(** * basic-input-validation: the validators and sanitizers of [script.cjs]

    A shallow embedding of [src/lib/dist/script.cjs] and the properties its
    specification states about it.

    Part I embeds the JavaScript data the library receives and the functions
    themselves, each next to the source lines it follows, and ends with the
    patterns in closed form and the notions the specification uses.  Part II
    states and proves the properties, Part III further properties of the
    code.

    Conventions of the embedding:
    - a JavaScript string is the list of its UTF-16 code units;
    - a value is a primitive, a function, a dense array or a plain object
      (an object literal or the result of [JSON.parse]): own enumerable
      string-keyed data properties with distinct keys, in the order in which
      [for ... in] and [Object.entries] enumerate them, above
      [Object.prototype];
    - a number is NaN, an infinity, one of the two zeros or an integer, which
      is all the library tells apart ([typeof], truthiness, [=== 0]);
    - a call either returns, throws, or reaches a function supplied by the
      caller (an own [hasOwnProperty] or [toString] property that shadows the
      builtin), whose effect is not described here;
    - a regular expression is a term of the pattern syntax below, matched by
      a backtracking matcher in the style of the language standard; the
      pattern of the source is quoted next to its term. *)

From Stdlib Require Import List NArith ZArith Bool Ascii String Lia.
From Stdlib Require Import DecimalString.
Import ListNotations.

Local Open Scope list_scope.

(* ===================================================================== *)
(** * Part I. The embedding                                               *)
(* ===================================================================== *)

(** ** Strings *)

Definition code_unit := N.
Definition jsstring := list code_unit.

Definition cu (a : ascii) : code_unit := N_of_ascii a.

(** The double quote. *)
Definition dquote : code_unit := 34%N.

(** A string literal of the source. *)
Definition lit (s : string) : jsstring := map cu (list_ascii_of_string s).

Fixpoint str_eqb (a b : jsstring) : bool :=
  match a, b with
  | [], [] => true
  | x :: a', y :: b' => N.eqb x y && str_eqb a' b'
  | _, _ => false
  end.

(** The rest of [s] behind the prefix [p], when [s] starts with [p]. *)
Fixpoint strip_prefix (p s : jsstring) : option jsstring :=
  match p with
  | [] => Some s
  | x :: p' =>
      match s with
      | [] => None
      | y :: s' => if N.eqb x y then strip_prefix p' s' else None
      end
  end.

(** [String.prototype.includes]. *)
Fixpoint includes (s p : jsstring) : bool :=
  match strip_prefix p s with
  | Some _ => true
  | None => match s with [] => false | _ :: s' => includes s' p end
  end.

(** Decimal rendering of a non-negative integer, as template literals
    print an array index or a depth. *)
Definition decimal (n : nat) : jsstring :=
  lit (NilEmpty.string_of_uint (Nat.to_uint n)).

Definition decimalZ (z : Z) : jsstring :=
  lit (NilZero.string_of_int (Z.to_int z)).

(** ** Numbers that are integers

    A number of the library is a double.  Where it is an integer it is kept
    as that integer; the integers up to [2^53] in magnitude are all doubles,
    and beyond them arithmetic rounds.  [to_double z] is the double nearest
    to [z]: 53 significant bits, round to nearest, ties to even.  (The
    integers here stay below the largest double.) *)
Definition to_double (z : Z) : Z :=
  let a := Z.abs z in
  if (a <=? 2 ^ 53)%Z then z
  else
    let e := (Z.log2 a - 52)%Z in
    let q := (a / 2 ^ e)%Z in
    let r := (a mod 2 ^ e)%Z in
    let half := (2 ^ (e - 1))%Z in
    let q' := if (half <? r)%Z || ((r =? half)%Z && Z.odd q)
              then (q + 1)%Z else q in
    (Z.sgn z * (q' * 2 ^ e))%Z.

(** [`${n}`] for a number [n] that is an integer: the fewest digits that
    still name the double, then zeros up to 21 digits in all, and the
    exponent form from there on.  Up to [2^53] these are the digits of the
    integer. *)
Definition digit_count (a : Z) : Z := Z.of_nat (List.length (decimalZ a)).

(** [s] has [k] digits and [s * 10^(n-k)] is a number whose double is [a]. *)
Definition digits_for (a n k s : Z) : bool :=
  (10 ^ (k - 1) <=? s)%Z && (s <? 10 ^ k)%Z
  && (to_double (s * 10 ^ (n - k)) =? a)%Z.

(** The [k] digits for [a], the nearer ones where two runs of digits do. *)
Definition shortest_with (a n k : Z) : option Z :=
  let unit := (10 ^ (n - k))%Z in
  let lo := (a / unit)%Z in
  let hi := (lo + 1)%Z in
  match digits_for a n k lo, digits_for a n k hi with
  | true, false => Some lo
  | false, true => Some hi
  | true, true =>
      let below := (a - lo * unit)%Z in
      let above := (hi * unit - a)%Z in
      if (below <? above)%Z then Some lo
      else if (above <? below)%Z then Some hi
      else if Z.even lo then Some lo else Some hi
  | false, false => None
  end.

(** The fewest digits for [a], from [k] digits on; 17 digits name every
    double. *)
Fixpoint shortest (fuel : nat) (a n k : Z) : Z * Z :=
  match fuel with
  | O => (a, n)
  | S fuel' =>
      match shortest_with a n k with
      | Some s => (s, k)
      | None => shortest fuel' a n (k + 1)%Z
      end
  end.

Definition number_text (z : Z) : jsstring :=
  let a := Z.abs z in
  if (a <=? 2 ^ 53)%Z then decimalZ z
  else
    let n0 := digit_count a in
    let '(s, k, n) :=
      if (to_double (10 ^ n0) =? a)%Z then (1%Z, 1%Z, (n0 + 1)%Z)
      else let (s, k) := shortest 17 a n0 1 in (s, k, n0) in
    (if (z <? 0)%Z then lit "-" else []) ++
    if (n <=? 21)%Z then decimalZ s ++ repeat (cu "0") (Z.to_nat (n - k))
    else
      match decimalZ s with
      | [] => []
      | d :: rest =>
          d :: (match rest with [] => [] | _ => cu "." :: rest end)
          ++ lit "e+" ++ decimalZ (n - 1)
      end.

(** ** Values *)

(** Numbers: only what the library looks at is kept apart, the sign of
    zero, NaN and the infinities; [Int z] is the double that equals the
    integer [z] (with [Int 0] for [+0]). *)
Inductive number :=
| NaN
| PosInfinity
| NegInfinity
| NegZero
| Int (z : Z).

(** Functions: the constructors [validateType] compares with, and any other
    function, known by an identity and its source text and taken to have a
    prototype object of its own. *)
Inductive builtin := BObject | BArray | BFunction | BString | BNumber | BBoolean.

Inductive func :=
| Builtin (b : builtin)
| UserFunction (id : nat) (source : jsstring).

Unset Elimination Schemes.

Inductive value :=
| VUndefined
| VNull
| VBoolean (b : bool)
| VNumber (n : number)
| VBigInt (z : Z)
| VString (s : jsstring)
| VSymbol (description : jsstring)
| VFunction (f : func)
| VArray (elems : list value)
| VObject (props : list (jsstring * value)).

Set Elimination Schemes.

Definition typeof (v : value) : jsstring :=
  match v with
  | VUndefined => lit "undefined"
  | VNull => lit "object"
  | VBoolean _ => lit "boolean"
  | VNumber _ => lit "number"
  | VBigInt _ => lit "bigint"
  | VString _ => lit "string"
  | VSymbol _ => lit "symbol"
  | VFunction _ => lit "function"
  | VArray _ => lit "object"
  | VObject _ => lit "object"
  end.

Definition isArray (v : value) : bool :=
  match v with VArray _ => true | _ => false end.

Definition is_null (v : value) : bool :=
  match v with VNull => true | _ => false end.

(** ** Completions *)

Inductive exn :=
| Error (message : jsstring)   (* [new Error(message)] *)
| TypeError.                   (* raised by the runtime, not by the library *)

Inductive completion (A : Type) :=
| Return (a : A)
| Throw (e : exn)
| UserCode.   (* control reached a caller-supplied function *)

Arguments Return {A} a.
Arguments Throw {A} e.
Arguments UserCode {A}.

Definition bind {A B} (c : completion A) (k : A -> completion B) : completion B :=
  match c with
  | Return a => k a
  | Throw e => Throw e
  | UserCode => UserCode
  end.

Notation "x <- c ;; k" := (bind c (fun x => k))
  (at level 61, c at next level, right associativity).

(** ** Own properties *)

Fixpoint lookup (key : jsstring) (props : list (jsstring * value)) : option value :=
  match props with
  | [] => None
  | (k, v) :: rest => if str_eqb key k then Some v else lookup key rest
  end.

(** The element an array holds under an index key, counting from [j]. *)
Fixpoint array_own (elems : list value) (j : nat) (key : jsstring) : option value :=
  match elems with
  | [] => None
  | v :: rest => if str_eqb key (decimal j) then Some v else array_own rest (S j) key
  end.

(** The own property [key] of an object or array. *)
Definition own_property (o : value) (key : jsstring) : option value :=
  match o with
  | VObject props => lookup key props
  | VArray elems =>
      if str_eqb key (lit "length")
      then Some (VNumber (Int (Z.of_nat (List.length elems))))
      else array_own elems 0 key
  | _ => None
  end.

Definition is_some {A} (o : option A) : bool :=
  match o with Some _ => true | None => false end.

(** [o.hasOwnProperty(key)]: the method is looked up on [o] itself first, so
    an own property of that name shadows [Object.prototype.hasOwnProperty];
    calling a shadowing value that is not a function is a TypeError. *)
Definition hasOwnProperty (o : value) (key : jsstring) : completion bool :=
  match o with
  | VObject props =>
      match lookup (lit "hasOwnProperty") props with
      | None => Return (is_some (lookup key props))
      | Some (VFunction _) => UserCode
      | Some _ => Throw TypeError
      end
  | _ => Return (is_some (own_property o key))
  end.

(** [o[key]] for a key that [o] owns. *)
Definition get (o : value) (key : jsstring) : value :=
  match own_property o key with
  | Some v => v
  | None => VUndefined
  end.

(** ** validateByStructure (script.cjs, lines 12-68) *)

(** A [for] loop whose body may [return error]: the first failure ends it. *)
Definition for_each {A} (body : A -> completion (option exn))
  : list A -> completion (option exn) :=
  fix loop (l : list A) :=
    match l with
    | [] => Return None
    | x :: rest =>
        r <- body x ;;
        match r with
        | Some e => Return (Some e)
        | None => loop rest
        end
    end.

(** The same over [arg[j]] for [j = from, from+1, ...]. *)
Definition for_each_indexed {A} (body : nat -> A -> completion (option exn))
  : nat -> list A -> completion (option exn) :=
  fix loop (j : nat) (l : list A) :=
    match l with
    | [] => Return None
    | x :: rest =>
        r <- body j x ;;
        match r with
        | Some e => Return (Some e)
        | None => loop (S j) rest
        end
    end.

Definition expected_type (structure path ty : jsstring) : exn :=
  Error (lit "Expected type " ++ structure ++ lit " at path " ++ dquote :: path
         ++ dquote :: lit ", but got " ++ ty).

Definition expected_array (path ty : jsstring) : exn :=
  Error (lit "Expected an array at path " ++ dquote :: path
         ++ dquote :: lit ", but got " ++ ty).

Definition expected_object (path ty : jsstring) : exn :=
  Error (lit "Expected an object at path " ++ dquote :: path
         ++ dquote :: lit ", but got " ++ ty).

Definition missing_key (key path : jsstring) : exn :=
  Error (lit "Missing key " ++ dquote :: key ++ dquote :: lit " at path "
         ++ dquote :: path ++ [dquote]).

Definition unknown_structure (path : jsstring) : exn :=
  Error (lit "Unknown structure type at path " ++ dquote :: path ++ [dquote]).

Definition index_path (path : jsstring) (j : nat) : jsstring :=
  path ++ lit "[" ++ decimal j ++ lit "]".

Definition key_path (path key : jsstring) : jsstring :=
  path ++ lit "." ++ key.

(** The body of the [for (const key in structure)] loop, lines 51-62, for
    the entry [key] whose shape [recurse] validates. *)
Definition check_key (structure arg : value) (path : jsstring)
    (key : jsstring) (recurse : value -> jsstring -> completion (option exn))
  : completion (option exn) :=
  declared <- hasOwnProperty structure key ;;
  if declared : bool then
    present <- hasOwnProperty arg key ;;
    if present : bool
    then recurse (get arg key) (key_path path key)
    else Return (Some (missing_key key path))
  else Return None.

Fixpoint validateByStructure (structure arg : value) (path : jsstring)
    {struct structure} : completion (option exn) :=
  match structure with
  | VString tag =>
      (* typeof structure === "string" *)
      if negb (str_eqb (typeof arg) tag)
      then Return (Some (expected_type tag path (typeof arg)))
      else Return None
  | VArray shapes =>
      if negb (isArray arg)
      then Return (Some (expected_array path (typeof arg)))
      else
        match arg with
        | VArray elems =>
            for_each (fun shape =>
              for_each_indexed (fun j item =>
                validateByStructure shape item (index_path path j)) 0 elems)
              shapes
        | _ => Return None
        end
  | VObject fields =>
      (* typeof structure === "object" *)
      if negb (str_eqb (typeof arg) (lit "object")) || is_null arg
      then Return (Some (expected_object path (typeof arg)))
      else
        for_each (fun entry =>
          check_key structure arg path (fst entry)
            (validateByStructure (snd entry))) fields
  | VNull =>
      (* typeof null === "object" too; [for ... in null] has no iteration *)
      if negb (str_eqb (typeof arg) (lit "object")) || is_null arg
      then Return (Some (expected_object path (typeof arg)))
      else Return None
  | _ => Return (Some (unknown_structure path))
  end.

(** ** validateType (script.cjs, lines 77-115) *)

Definition number_to_string (n : number) : jsstring :=
  match n with
  | NaN => lit "NaN"
  | PosInfinity => lit "Infinity"
  | NegInfinity => lit "-Infinity"
  | NegZero => lit "0"
  | Int z => number_text z
  end.

Definition builtin_name (b : builtin) : jsstring :=
  match b with
  | BObject => lit "Object"
  | BArray => lit "Array"
  | BFunction => lit "Function"
  | BString => lit "String"
  | BNumber => lit "Number"
  | BBoolean => lit "Boolean"
  end.

(** The text Node prints for a native function. *)
Definition function_source (f : func) : jsstring :=
  match f with
  | Builtin b => lit "function " ++ builtin_name b ++ lit "() { [native code] }"
  | UserFunction _ source => source
  end.

(** [`${v}`]: the string conversion a template literal applies.  A symbol
    does not convert; a plain object converts through its [toString], then
    its [valueOf], each of which an own property may shadow; an array joins
    its elements with commas, [null] and [undefined] printing as nothing. *)
Fixpoint to_string (v : value) : completion jsstring :=
  match v with
  | VUndefined => Return (lit "undefined")
  | VNull => Return (lit "null")
  | VBoolean b => Return (if b then lit "true" else lit "false")
  | VNumber n => Return (number_to_string n)
  | VBigInt z => Return (decimalZ z)
  | VString s => Return s
  | VSymbol _ => Throw TypeError
  | VFunction f => Return (function_source f)
  | VArray elems =>
      (fix join (l : list value) : completion jsstring :=
         match l with
         | [] => Return []
         | x :: rest =>
             a <- match x with
                  | VUndefined | VNull => Return []
                  | _ => to_string x
                  end ;;
             match rest with
             | [] => Return a
             | _ => b <- join rest ;; Return (a ++ lit "," ++ b)
             end
         end) elems
  | VObject props =>
      match lookup (lit "toString") props with
      | None => Return (lit "[object Object]")
      | Some (VFunction _) => UserCode
      | Some _ =>
          match lookup (lit "valueOf") props with
          | Some (VFunction _) => UserCode
          | _ => Throw TypeError
          end
      end
  end.

Definition builtin_eqb (a b : builtin) : bool :=
  match a, b with
  | BObject, BObject | BArray, BArray | BFunction, BFunction
  | BString, BString | BNumber, BNumber | BBoolean, BBoolean => true
  | _, _ => false
  end.

(** [type === Object], [type === Array], ... *)
Definition is_builtin (b : builtin) (v : value) : bool :=
  match v with
  | VFunction (Builtin b') => builtin_eqb b b'
  | _ => false
  end.

(** [value instanceof f].  Objects, arrays and functions have
    [Object.prototype] on their chain; a user function has a prototype object
    of its own, which no value of this embedding inherits from. *)
Definition instanceof (v : value) (f : func) : bool :=
  match f, v with
  | Builtin BObject, (VObject _ | VArray _ | VFunction _) => true
  | Builtin BArray, VArray _ => true
  | Builtin BFunction, VFunction _ => true
  | _, _ => false
  end.

Definition mismatch (a b : jsstring) : exn :=
  Error (lit "Type of " ++ a ++ lit " does not match " ++ b).

(** [throw new Error(`Type of ${type} does not match ${value}`)] *)
Definition throw_value_mismatch (type value : value) : completion unit :=
  t <- to_string type ;;
  v <- to_string value ;;
  Throw (mismatch t v).

(** [throw new Error(`Type of ${type} does not match ${typeof value}`)] *)
Definition throw_typeof_mismatch (type value : value) : completion unit :=
  t <- to_string type ;;
  Throw (mismatch t (typeof value)).

Definition validateType (type value : value) : completion unit :=
  if is_null type || is_null value then
    (* type !== value, one of them being null *)
    if negb (is_null type && is_null value)
    then throw_value_mismatch type value
    else Return tt
  else if is_builtin BObject type then
    if negb (is_null value) && str_eqb (typeof value) (lit "object")
       && negb (isArray value)
    then Return tt
    else throw_value_mismatch type value
  else if is_builtin BArray type then
    if isArray value then Return tt
    else throw_value_mismatch type value
  else
    match type with
    | VFunction f =>
        if instanceof value f then Return tt
        else if is_builtin BString type && str_eqb (typeof value) (lit "string")
        then Return tt
        else if is_builtin BNumber type && str_eqb (typeof value) (lit "number")
        then Return tt
        else if is_builtin BBoolean type && str_eqb (typeof value) (lit "boolean")
        then Return tt
        else throw_typeof_mismatch type value            (* line 114 *)
    | _ =>
        if str_eqb (typeof type) (typeof value) then Return tt
        else if isArray type && isArray value then Return tt
        else throw_typeof_mismatch type value            (* line 111 *)
    end.

(** ** Regular expressions *)

(** *** Character classes *)

Definition in_range (lo hi : ascii) (c : code_unit) : bool :=
  N.leb (cu lo) c && N.leb c (cu hi).

Definition is_char (a : ascii) (c : code_unit) : bool := N.eqb c (cu a).

Definition is_lower := in_range "a" "z".
Definition is_upper := in_range "A" "Z".
Definition is_digit := in_range "0" "9".               (* \d *)

(** [\w], the word characters [\b] looks at. *)
Definition is_word (c : code_unit) : bool :=
  is_lower c || is_upper c || is_digit c || is_char "_" c.

(** [\s]: white space and line terminators. *)
Definition is_space (c : code_unit) : bool :=
  (N.leb 9 c && N.leb c 13) || N.eqb c 32 || N.eqb c 160 || N.eqb c 5760
  || (N.leb 8192 c && N.leb c 8202) || N.eqb c 8232 || N.eqb c 8233
  || N.eqb c 8239 || N.eqb c 8287 || N.eqb c 12288 || N.eqb c 65279.

Definition is_line_terminator (c : code_unit) : bool :=
  N.eqb c 10 || N.eqb c 13 || N.eqb c 8232 || N.eqb c 8233.

(** [.] *)
Definition dot (c : code_unit) : bool := negb (is_line_terminator c).

(** [[\s\S]] *)
Definition any (c : code_unit) : bool := true.

(** Case folding of the [i] flag.  Without the [u] flag a code unit of 128
    or more never folds to one below 128, so against the ASCII patterns of
    this library only the ASCII letters need folding. *)
Definition canonicalize (c : code_unit) : code_unit :=
  if is_lower c then (c - 32)%N else c.

(** A pattern character against an input code unit. *)
Definition unit_eqb (icase : bool) (p c : code_unit) : bool :=
  if icase then N.eqb (canonicalize p) (canonicalize c) else N.eqb p c.

(** [\b] between two positions; outside the input counts as no word
    character. *)
Definition word_at (c : option code_unit) : bool :=
  match c with Some x => is_word x | None => false end.

Definition word_boundary (prev next : option code_unit) : bool :=
  xorb (word_at prev) (word_at next).

(** *** Patterns

    The syntax the patterns of the library need.  Quantifiers apply to
    character classes; the quantified groups of the URL pattern are treated
    with [validateURL].  The classes of the case-insensitive patterns hold no
    letters, so a class is a test on the code unit as it is. *)
Inductive re :=
| Eps
| Chr (p : code_unit)                       (* a pattern character *)
| Cls (cls : code_unit -> bool)             (* [...], \s, \d, . *)
| Seq (a b : re)                            (* ab *)
| Alt (a b : re)                            (* a|b *)
| Rep (greedy : bool) (min : nat) (max : option nat)
      (cls : code_unit -> bool)             (* c*, c+, c{m,n}, c*? *)
| Group (i : nat) (a : re)                  (* the i-th capturing (...) *)
| Bow                                       (* \b *)
| Bol                                       (* ^ *)
| Eol                                       (* $ *)
| Ahead (a : re).                           (* (?=a) *)

Definition star (cls : code_unit -> bool) : re := Rep true 0 None cls.
Definition plus (cls : code_unit -> bool) : re := Rep true 1 None cls.
Definition lazy_star (cls : code_unit -> bool) : re := Rep false 0 None cls.

Fixpoint sequence (rs : list re) : re :=
  match rs with
  | [] => Eps
  | r :: rs' => Seq r (sequence rs')
  end.

Definition literal (w : jsstring) : re := sequence (map Chr w).

Fixpoint alternation (rs : list re) : re :=
  match rs with
  | [] => Cls (fun _ => false)
  | [r] => r
  | r :: rs' => Alt r (alternation rs')
  end.

(** *** Matching

    The state of a match: the code unit before the current position, the
    input from there on, the text consumed since the start of the match and
    the captures made. *)
Record mstate := {
  before : option code_unit;
  input : jsstring;
  text : jsstring;
  groups : list (nat * jsstring)
}.

Definition step (st : mstate) (c : code_unit) (input' : jsstring) : mstate :=
  {| before := Some c; input := input'; text := text st ++ [c];
     groups := groups st |}.

Definition capture (i : nat) (g : jsstring) (st : mstate) : mstate :=
  {| before := before st; input := input st; text := text st;
     groups := (i, g) :: groups st |}.

Fixpoint group (i : nat) (gs : list (nat * jsstring)) : jsstring :=
  match gs with
  | [] => []
  | (j, g) :: gs' => if Nat.eqb i j then g else group i gs'
  end.

Definition has_room (max : option nat) : bool :=
  match max with
  | None => true
  | Some n => negb (Nat.eqb n 0)
  end.

(** A quantified class in front of the continuation [k].  Greedy, it takes
    a code unit whenever it may and comes back to [k] at the current
    position when the rest fails; lazy, it tries [k] first. *)
Fixpoint repeat_class (greedy : bool) (cls : code_unit -> bool)
    (k : mstate -> option mstate) (min : nat) (max : option nat)
    (gs : list (nat * jsstring)) (prev : option code_unit) (txt : jsstring)
    (s : jsstring) {struct s} : option mstate :=
  let here := {| before := prev; input := s; text := txt; groups := gs |} in
  let stay := fun _ : unit => match min with O => k here | S _ => None end in
  match s with
  | c :: s' =>
      if cls c && has_room max then
        if greedy then
          match repeat_class greedy cls k (pred min) (option_map pred max)
                  gs (Some c) (txt ++ [c]) s' with
          | Some r => Some r
          | None => stay tt
          end
        else
          match stay tt with
          | Some r => Some r
          | None =>
              repeat_class greedy cls k (pred min) (option_map pred max)
                gs (Some c) (txt ++ [c]) s'
          end
      else stay tt
  | [] => stay tt
  end.

(** The matcher of a pattern: it runs [r] from the state [st] and hands the
    state behind it to the continuation [k]; where [k] fails it tries the
    next way for [r] to match. *)
Fixpoint matches (icase : bool) (r : re) (st : mstate)
    (k : mstate -> option mstate) {struct r} : option mstate :=
  match r with
  | Eps => k st
  | Chr p =>
      match input st with
      | c :: s' => if unit_eqb icase p c then k (step st c s') else None
      | [] => None
      end
  | Cls cls =>
      match input st with
      | c :: s' => if cls c then k (step st c s') else None
      | [] => None
      end
  | Seq a b => matches icase a st (fun st' => matches icase b st' k)
  | Alt a b =>
      match matches icase a st k with
      | Some r => Some r
      | None => matches icase b st k
      end
  | Rep greedy min max cls =>
      repeat_class greedy cls k min max (groups st) (before st) (text st)
        (input st)
  | Group i a =>
      matches icase a st (fun st' =>
        k (capture i (skipn (List.length (text st)) (text st')) st'))
  | Bow =>
      if word_boundary (before st) (hd_error (input st)) then k st else None
  | Bol => match before st with None => k st | Some _ => None end
  | Eol => match input st with [] => k st | _ :: _ => None end
  | Ahead a =>
      match matches icase a st (fun st' => Some st') with
      | Some _ => k st
      | None => None
      end
  end.

(** The result of a match: the matched text and capture group 1. *)
Record rmatch := { matched : jsstring; group1 : jsstring }.

(** A pattern at one position: [prev] is the code unit before that
    position and the list is the input from there on. *)
Definition regex := option code_unit -> jsstring -> option rmatch.

Definition exec (icase : bool) (r : re) : regex :=
  fun prev s =>
    match matches icase r
            {| before := prev; input := s; text := []; groups := [] |}
            (fun st => Some st) with
    | Some st => Some {| matched := text st; group1 := group 1 (groups st) |}
    | None => None
    end.

(** [str.replace(re, fn)] for a global [re]: matches are sought left to
    right, each is replaced by [fn] of it and the search resumes behind it
    (one code unit further after an empty match).  [inside] counts the code
    units of the last match that are still to be passed. *)
Fixpoint replace_from (re : regex) (fn : rmatch -> jsstring)
    (prev : option code_unit) (inside : nat) (s : jsstring) : jsstring :=
  match s with
  | [] =>
      match inside with
      | O => match re prev [] with Some m => fn m | None => [] end
      | S _ => []
      end
  | c :: s' =>
      match inside with
      | S k => replace_from re fn (Some c) k s'
      | O =>
          match re prev s with
          | Some m =>
              fn m ++
              match List.length (matched m) with
              | O => c :: replace_from re fn (Some c) 0 s'
              | S k => replace_from re fn (Some c) k s'
              end
          | None => c :: replace_from re fn (Some c) 0 s'
          end
      end
  end.

Definition replace (re : regex) (fn : rmatch -> jsstring) (s : jsstring) : jsstring :=
  replace_from re fn None 0 s.

(** [re.test(str)] for a pattern without the [g] flag: a match at the first
    position where there is one. *)
Fixpoint test_from (re : regex) (prev : option code_unit) (s : jsstring) : bool :=
  match re prev s with
  | Some _ => true
  | None =>
      match s with
      | [] => false
      | c :: s' => test_from re (Some c) s'
      end
  end.

Definition test (re : regex) (s : jsstring) : bool := test_from re None s.

(** ** isSqlInjection (script.cjs, lines 212-219) *)

(** The pattern of line 214, with the flags [g] and [i]:

      (\b(SELECT|INSERT|UPDATE|DELETE|DROP|CREATE|TRUNCATE|EXEC|EXECUTE|UNION
          |OR|AND|LIMIT|OFFSET|HAVING|WAITFOR|LIKE|IN|BETWEEN|CONCAT
          |--|\/\*|\*\/|#|;|--
          |\bDROP\s+TABLE|\bSHOW\s+TABLES|\bUNION\s+SELECT|\bINSERT\s+INTO)\b)

    Its alternatives, in the order of the source. *)
Inductive alternative :=
| Token (w : jsstring)            (* a literal *)
| Phrase (w1 w2 : jsstring).      (* \bW1\s+W2 *)

Definition sql_alternatives : list alternative :=
  [ Token (lit "SELECT"); Token (lit "INSERT"); Token (lit "UPDATE");
    Token (lit "DELETE"); Token (lit "DROP"); Token (lit "CREATE");
    Token (lit "TRUNCATE"); Token (lit "EXEC"); Token (lit "EXECUTE");
    Token (lit "UNION"); Token (lit "OR"); Token (lit "AND");
    Token (lit "LIMIT"); Token (lit "OFFSET"); Token (lit "HAVING");
    Token (lit "WAITFOR"); Token (lit "LIKE"); Token (lit "IN");
    Token (lit "BETWEEN"); Token (lit "CONCAT");
    Token (lit "--"); Token (lit "/*"); Token (lit "*/"); Token (lit "#");
    Token (lit ";"); Token (lit "--");
    Phrase (lit "DROP") (lit "TABLE"); Phrase (lit "SHOW") (lit "TABLES");
    Phrase (lit "UNION") (lit "SELECT"); Phrase (lit "INSERT") (lit "INTO") ].

Definition re_of_alternative (a : alternative) : re :=
  match a with
  | Token w => literal w
  | Phrase w1 w2 => sequence [Bow; literal w1; plus is_space; literal w2]
  end.

Definition sqlInjectionRegex : re :=
  Group 1
    (sequence [Bow;
               Group 2 (alternation (map re_of_alternative sql_alternatives));
               Bow]).

(** The class of the inner pattern: semicolon, hash, slash, asterisk and
    hyphen. *)
Definition is_sql_punct (c : code_unit) : bool :=
  is_char ";" c || is_char "#" c || is_char "/" c || is_char "*" c
  || is_char "-" c.

(** The inner pattern of line 216, the class above in a capturing group. *)
Definition punctRegex : re := Group 1 (Cls is_sql_punct).

(** The callback of line 215: the inner [replace] with a backslash and
    group 1 for every match. *)
Definition escape_punct (m : jsstring) : jsstring :=
  replace (exec false punctRegex) (fun r => cu "\" :: group1 r) m.

Definition isSqlInjection (input : jsstring) : jsstring :=
  replace (exec true sqlInjectionRegex) (fun m => escape_punct (matched m))
    input.

(** ** isJsScript (script.cjs, lines 228-251)

    The pattern of line 229, with the flags [g] and [i]:

      <\s*script[^>]*>([\s\S]*?)<\/\s*script>
*)
Definition scriptRegex : re :=
  sequence [Chr (cu "<"); star is_space; literal (lit "script");
            star (fun c => negb (is_char ">" c)); Chr (cu ">");
            Group 1 (lazy_star any);
            Chr (cu "<"); Chr (cu "/"); star is_space;
            literal (lit "script"); Chr (cu ">")].

(** The class of [escapeHtml]: ampersand, angle brackets and both quotes. *)
Definition is_html_special (c : code_unit) : bool :=
  is_char "&" c || is_char "<" c || is_char ">" c || N.eqb c dquote
  || is_char "'" c.

Definition htmlRegex : re := Cls is_html_special.

(** The [switch] of the replacement callback. *)
Definition entity (c : code_unit) : jsstring :=
  if is_char "&" c then lit "&amp;"
  else if is_char "<" c then lit "&lt;"
  else if is_char ">" c then lit "&gt;"
  else if N.eqb c dquote then lit "&quot;"
  else if is_char "'" c then lit "&#39;"
  else [c].

Definition escapeHtml (str : jsstring) : jsstring :=
  replace (exec false htmlRegex)
    (fun m => match matched m with [c] => entity c | other => other end) str.

Definition isJsScript (input : jsstring) : jsstring :=
  let input := replace (exec true scriptRegex) (fun m => group1 m) input in
  escapeHtml input.

(** ** validatePassword (script.cjs, lines 182-204)

    The pattern of line 198:

      ^(?=.*[a-z])(?=.*[A-Z])(?=.*\d)(?=.*[@$!%*?&])[A-Za-z\d@$!%*?&]{8,128}$
*)

(** [[@$!%*?&]] *)
Definition is_special (c : code_unit) : bool :=
  is_char "@" c || is_char "$" c || is_char "!" c || is_char "%" c
  || is_char "*" c || is_char "?" c || is_char "&" c.

(** [[A-Za-z\d@$!%*?&]] *)
Definition is_password_char (c : code_unit) : bool :=
  is_upper c || is_lower c || is_digit c || is_special c.

Definition passwordRegex : re :=
  sequence [Bol;
            Ahead (sequence [star dot; Cls is_lower]);
            Ahead (sequence [star dot; Cls is_upper]);
            Ahead (sequence [star dot; Cls is_digit]);
            Ahead (sequence [star dot; Cls is_special]);
            Rep true 8 (Some 128) is_password_char;
            Eol].

Definition too_short (n : Z) : exn :=
  Error (lit "Password must be at least " ++ number_text n ++ lit " characters long.").

Definition too_long (n : Z) : exn :=
  Error (lit "Password must not exceed " ++ number_text n ++ lit " characters.").

Definition weak_password : exn :=
  Error (lit "Password must contain at least one lowercase letter, one uppercase letter, one number, and one special character.").

Definition validatePassword (password : jsstring)
    (possiblePasswordMinLength possiblePasswordLength : Z) : completion unit :=
  if (Z.of_nat (List.length password) <? possiblePasswordMinLength)%Z
  then Throw (too_short possiblePasswordMinLength)
  else if (Z.of_nat (List.length password) >? possiblePasswordLength)%Z
  then Throw (too_long possiblePasswordLength)
  else if negb (test (exec false passwordRegex) password)
  then Throw weak_password
  else Return tt.

(** ** validateNonEmptyFields (script.cjs, lines 296-322) *)

(** [forEach] with a callback that may throw. *)
Definition forEach {A} (callback : A -> completion unit)
  : list A -> completion unit :=
  fix loop (l : list A) :=
    match l with
    | [] => Return tt
    | x :: rest => _ <- callback x ;; loop rest
    end.

(** [value === null || value === undefined || value === ''] *)
Definition is_blank (v : value) : bool :=
  match v with
  | VNull | VUndefined | VString [] => true
  | _ => false
  end.

Definition empty_field (key : jsstring) (currentDepth : Z) : exn :=
  Error (lit "Field " ++ dquote :: key ++ dquote
         :: lit " cannot be null, undefined, or empty at depth "
         ++ number_text currentDepth ++ lit ".").

Definition empty_value (currentDepth : Z) : exn :=
  Error (lit "Value cannot be null, undefined, or empty at depth "
         ++ number_text currentDepth ++ lit ".").

Fixpoint validateNonEmptyFields (data : value) (depth currentDepth : Z)
    {struct data} : completion unit :=
  if (currentDepth >=? depth)%Z then Return tt
  else
    match data with
    | VArray items =>
        forEach (fun item =>
          validateNonEmptyFields item depth (to_double (currentDepth + 1))) items
    | VObject entries =>
        forEach (fun entry =>
          if is_blank (snd entry)
          then Throw (empty_field (fst entry) currentDepth)
          else if str_eqb (typeof (snd entry)) (lit "object") || isArray (snd entry)
          then validateNonEmptyFields (snd entry) depth
                 (to_double (currentDepth + 1))
          else Return tt) entries
    | _ =>
        if is_blank data then Throw (empty_value currentDepth) else Return tt
    end.

(** ** isNull (script.cjs, lines 330-362) *)

(** [!!value] *)
Definition to_boolean (v : value) : bool :=
  match v with
  | VUndefined | VNull => false
  | VBoolean b => b
  | VNumber NaN | VNumber NegZero => false
  | VNumber (Int z) => negb (Z.eqb z 0)
  | VNumber _ => true
  | VBigInt z => negb (Z.eqb z 0)
  | VString s => match s with [] => false | _ => true end
  | _ => true
  end.

(** [value === 0]: both zeros are equal to [0]. *)
Definition is_zero (v : value) : bool :=
  match v with
  | VNumber NegZero => true
  | VNumber (Int z) => Z.eqb z 0
  | _ => false
  end.

(** [value === false] *)
Definition is_false (v : value) : bool :=
  match v with VBoolean false => true | _ => false end.

(** [Object.keys(value)] of an object, [value.length] of an array. *)
Definition keys (v : value) : list jsstring :=
  match v with VObject props => map fst props | _ => [] end.

Definition array_length (v : value) : nat :=
  match v with VArray elems => List.length elems | _ => 0 end.

Definition isNull (value : value) : completion unit :=
  if negb (to_boolean value) && negb (is_zero value) && negb (is_false value)
  then Throw (Error (lit "Value is null, undefined, or falsy"))
  else if str_eqb (typeof value) (lit "object") && negb (is_null value) then
    if isArray value && Nat.eqb (array_length value) 0
    then Throw (Error (lit "Value is an empty array"))
    else if negb (isArray value) && Nat.eqb (List.length (keys value)) 0
    then Throw (Error (if instanceof value (Builtin BObject)
                       then lit "Value is an empty class instance"
                       else lit "Value is an empty object"))
    else Return tt
  else if str_eqb (typeof value) (lit "string")
          || str_eqb (typeof value) (lit "number")
          || str_eqb (typeof value) (lit "bigint") then
    if negb (to_boolean value) && negb (is_zero value)
    then Throw (Error (lit "Value is empty"))
    else Return tt
  else Throw (Error (lit "Invalid value type")).


(** ** validateEmail (script.cjs, lines 125-143)

    The pattern of line 139:

      ^[^\s@]+@[^\s@]+\.[^\s@]+$
*)

(** What a call prints with [console.log], and how it ends. *)
Record logged (A : Type) := {
  output : list jsstring;
  outcome : completion A
}.

Arguments output {A} l.
Arguments outcome {A} l.

(** [[^\s@]] *)
Definition is_email_char (c : code_unit) : bool :=
  negb (is_space c || is_char "@" c).

Definition emailRegex : re :=
  sequence [Bol; plus is_email_char; Chr (cu "@"); plus is_email_char;
            Chr (cu "."); plus is_email_char; Eol].

Definition email_too_short (n : Z) : exn :=
  Error (lit "Email must be at least " ++ number_text n ++ lit " characters long.").

Definition email_too_long (n : Z) : exn :=
  Error (lit "Email must not exceed " ++ number_text n ++ lit " characters.").

Definition invalid_email : exn :=
  Error (lit "Email must be a valid email address.").

Definition validateEmail (email : jsstring)
    (possibleEmailMinLength possibleEmailLength : Z) : logged unit :=
  {| output :=
       [lit "Email: " ++ email ++ lit ", Length: "
        ++ decimal (List.length email)];
     outcome :=
       if (Z.of_nat (List.length email) <? possibleEmailMinLength)%Z
       then Throw (email_too_short possibleEmailMinLength)
       else if (Z.of_nat (List.length email) >? possibleEmailLength)%Z
       then Throw (email_too_long possibleEmailLength)
       else if negb (test (exec false emailRegex) email)
       then Throw invalid_email
       else Return tt |}.

(** ** validateUserName (script.cjs, lines 153-172)

    The pattern of line 158:

      ^[a-zA-Z0-9]+$
*)

(** [[a-zA-Z0-9]] *)
Definition is_alnum (c : code_unit) : bool :=
  is_lower c || is_upper c || is_digit c.

Definition userNameRegex : re := sequence [Bol; plus is_alnum; Eol].

Definition invalid_username : exn :=
  Error (lit "Username must contain only letters and numbers.").

Definition username_too_short (n : Z) : exn :=
  Error (lit "Username must be at least " ++ number_text n ++ lit " characters long.").

Definition username_too_long (n : Z) : exn :=
  Error (lit "Username must not exceed " ++ number_text n ++ lit " characters.").

Definition validateUserName (userName : jsstring)
    (possibleUserNameMinLength possibleUserNameLength : Z) : completion unit :=
  if negb (test (exec false userNameRegex) userName)
  then Throw invalid_username
  else if (Z.of_nat (List.length userName) <? possibleUserNameMinLength)%Z
  then Throw (username_too_short possibleUserNameMinLength)
  else if (Z.of_nat (List.length userName) >? possibleUserNameLength)%Z
  then Throw (username_too_long possibleUserNameLength)
  else Return tt.

(** ** validateURL (script.cjs, lines 262-285) *)

(** *** Patterns with quantified groups

    The pattern of a URL puts quantifiers on groups.  A grouped pattern is
    built from patterns of the syntax above; [test] reads no capture, so a
    group only delimits what its quantifier applies to. *)
Inductive pattern :=
| Atom (r : re)
| Then (p q : pattern)
| Opt (p : pattern)                   (* ( ... )? *)
| Many (min : nat) (p : pattern).     (* ( ... )* and ( ... )+ *)

Definition matcher := mstate -> (mstate -> option mstate) -> option mstate.

(** An optional group in front of [k]: with the group first, then without
    it.  The group is not taken where it consumes nothing, as in the
    language standard. *)
Definition optional (m : matcher) : matcher :=
  fun st k =>
    match m st (fun st' =>
            if Nat.eqb (List.length (input st')) (List.length (input st))
            then None
            else k st') with
    | Some r => Some r
    | None => k st
    end.

(** A greedy quantified group in front of [k]: one more iteration first,
    and [k] at the current position where that fails and no iteration is
    due.  An iteration that is not due and consumes nothing fails, as in the
    language standard.  [fuel] bounds the number of iterations. *)
Fixpoint repeat_group (fuel : nat) (m : matcher) (min : nat) : matcher :=
  fun st k =>
    let stay := fun _ : unit => match min with O => k st | S _ => None end in
    match fuel with
    | O => stay tt
    | S fuel' =>
        match m st (fun st' =>
                if Nat.eqb min 0
                   && Nat.eqb (List.length (input st')) (List.length (input st))
                then None
                else repeat_group fuel' m (pred min) st' k) with
        | Some r => Some r
        | None => stay tt
        end
    end.

(** The iterations that are due and one for each code unit of the input:
    more cannot take place. *)
Definition group_repeat (m : matcher) (min : nat) : matcher :=
  fun st k => repeat_group (min + List.length (input st)) m min st k.

Fixpoint matcher_of (icase : bool) (p : pattern) : matcher :=
  match p with
  | Atom r => matches icase r
  | Then p q =>
      fun st k => matcher_of icase p st (fun st' => matcher_of icase q st' k)
  | Opt p => optional (matcher_of icase p)
  | Many min p => group_repeat (matcher_of icase p) min
  end.

Definition exec_pattern (icase : bool) (p : pattern) : regex :=
  fun prev s =>
    match matcher_of icase p
            {| before := prev; input := s; text := []; groups := [] |}
            (fun st => Some st) with
    | Some st => Some {| matched := text st; group1 := group 1 (groups st) |}
    | None => None
    end.

(** *** The pattern of lines 263-264

    Its parts, from left to right:

      ^  ( https? : \/ \/ )?  ( [a-zA-Z0-9-]+ \. )+  [a-zA-Z]{2,6}
         ( \/ [a-zA-Z0-9-]* )*  ( \? [a-zA-Z0-9=&]* )?
         ( # [a-zA-Z0-9-_]* )?  $
*)

(** [[a-zA-Z]] *)
Definition is_alpha (c : code_unit) : bool := is_lower c || is_upper c.

(** [[a-zA-Z0-9-]] *)
Definition is_host_char (c : code_unit) : bool := is_alnum c || is_char "-" c.

(** [[a-zA-Z0-9=&]] *)
Definition is_query_char (c : code_unit) : bool :=
  is_alnum c || is_char "=" c || is_char "&" c.

(** [[a-zA-Z0-9-_]]: behind the range [0-9] the hyphen stands for itself. *)
Definition is_fragment_char (c : code_unit) : bool :=
  is_alnum c || is_char "-" c || is_char "_" c.

Definition scheme : re :=
  sequence [literal (lit "http"); Rep true 0 (Some 1) (is_char "s");
            literal (lit "://")].

Definition label : re := sequence [plus is_host_char; Chr (cu ".")].

Definition segment : re := sequence [Chr (cu "/"); star is_host_char].

Definition query : re := sequence [Chr (cu "?"); star is_query_char].

Definition fragment : re := sequence [Chr (cu "#"); star is_fragment_char].

Definition urlRegex : pattern :=
  Then (Atom Bol)
    (Then (Opt (Atom scheme))
       (Then (Many 1 (Atom label))
          (Then (Atom (Rep true 2 (Some 6) is_alpha))
             (Then (Many 0 (Atom segment))
                (Then (Opt (Atom query))
                   (Then (Opt (Atom fragment))
                      (Atom Eol))))))).

(** *** The validator *)

(** [s.endsWith(t)] *)
Definition ends_with (s t : jsstring) : bool :=
  is_some (strip_prefix (rev t) (rev s)).

(** [l.join(sep)] for a list of strings. *)
Fixpoint join (sep : jsstring) (l : list jsstring) : jsstring :=
  match l with
  | [] => []
  | [x] => x
  | x :: rest => x ++ sep ++ join sep rest
  end.

Definition invalid_url : exn := Error (lit "Invalid URL.").

Definition url_too_long (n : Z) : exn :=
  Error (lit "URL exceeds the maximum length of " ++ number_text n
         ++ lit " characters.").

Definition foreign_domain (allowedDomains : list jsstring) : exn :=
  Error (lit "URL must belong to one of the allowed domains: "
         ++ join (lit ", ") allowedDomains ++ lit ".").

Section Url.

(** [new URL(url).hostname]: the host name that the URL parser of the
    platform finds in [url], or the exception it throws.  The parser is not
    part of the library and is left open. *)
Variable hostname : jsstring -> completion jsstring.

Definition validateURL (url : jsstring) (maxLength : Z)
    (allowedDomains : list jsstring) : completion unit :=
  if negb (test (exec_pattern false urlRegex) url)
  then Throw invalid_url
  else if (Z.of_nat (List.length url) >? maxLength)%Z
  then Throw (url_too_long maxLength)
  else if Nat.ltb 0 (List.length allowedDomains) then
    domain <- hostname url ;;
    if negb (existsb (fun allowedDomain => ends_with domain allowedDomain)
               allowedDomains)
    then Throw (foreign_domain allowedDomains)
    else Return tt
  else Return tt.

End Url.
(** ** The patterns in closed form

    What each pattern of the library matches at one position, written as a
    function of the input.  Part II shows that the matcher computes these
    functions on the patterns of the source. *)

(** The code unit before the position behind [a], which starts behind
    [prev]. *)
Fixpoint prev_after (prev : option code_unit) (a : jsstring) : option code_unit :=
  match a with
  | [] => prev
  | x :: a' => prev_after (Some x) a'
  end.

(** The state behind the text [m], with [rest] left of the input. *)
Definition advance (st : mstate) (m rest : jsstring) : mstate :=
  {| before := prev_after (before st) m; input := rest;
     text := text st ++ m; groups := groups st |}.

(** A literal under the [i] flag: the text it matches and the input behind
    it. *)
Fixpoint match_ci (p s : jsstring) : option (jsstring * jsstring) :=
  match p with
  | [] => Some ([], s)
  | x :: p' =>
      match s with
      | [] => None
      | y :: s' =>
          if unit_eqb true x y then
            match match_ci p' s' with
            | Some (m, rest) => Some (y :: m, rest)
            | None => None
            end
          else None
      end
  end.

(** The longest run of [cls] and the input behind it. *)
Fixpoint span (cls : code_unit -> bool) (s : jsstring) : jsstring * jsstring :=
  match s with
  | [] => ([], [])
  | c :: s' =>
      if cls c then let (run, rest) := span cls s' in (c :: run, rest)
      else ([], s)
  end.

(** A one-character class, with or without a capturing group around it. *)
Definition re_class (grouped : bool) (cls : code_unit -> bool) : regex :=
  fun _ s =>
    match s with
    | c :: _ =>
        if cls c
        then Some {| matched := [c]; group1 := if grouped then [c] else [] |}
        else None
    | [] => None
    end.

(** One alternative of the SQL pattern: its text and the input behind it. *)
Definition match_alternative (prev : option code_unit) (a : alternative)
    (s : jsstring) : option (jsstring * jsstring) :=
  match a with
  | Token w => match_ci w s
  | Phrase w1 w2 =>
      if word_boundary prev (hd_error s) then
        match match_ci w1 s with
        | Some (m1, s1) =>
            match span is_space s1 with
            | ([], _) => None
            | (gap, s2) =>
                match match_ci w2 s2 with
                | Some (m2, rest) => Some (m1 ++ gap ++ m2, rest)
                | None => None
                end
            end
        | None => None
        end
      else None
  end.

(** The second word of a phrase starts with a letter. *)
Definition alternative_ok (a : alternative) : bool :=
  match a with
  | Token _ => true
  | Phrase _ w2 =>
      match w2 with x :: _ => is_lower x || is_upper x | [] => false end
  end.

(** The first alternative that matches and is followed by a word
    boundary. *)
Fixpoint first_alternative (prev : option code_unit) (alts : list alternative)
    (s : jsstring) : option (jsstring * jsstring) :=
  match alts with
  | [] => None
  | a :: alts' =>
      match match_alternative prev a s with
      | Some (m, rest) =>
          if word_boundary (prev_after prev m) (hd_error rest)
          then Some (m, rest)
          else first_alternative prev alts' s
      | None => first_alternative prev alts' s
      end
  end.

Definition sql_match : regex :=
  fun prev s =>
    if word_boundary prev (hd_error s) then
      match first_alternative prev sql_alternatives s with
      | Some (m, _) => Some {| matched := m; group1 := m |}
      | None => None
      end
    else None.

(** The end of the script pattern: [<\/\s*script>]. *)
Definition closing : re :=
  sequence [Chr (cu "<"); Chr (cu "/"); star is_space;
            literal (lit "script"); Chr (cu ">")].

(** The opening tag of a script element. *)
Definition open_tag (s : jsstring) : option (jsstring * jsstring) :=
  match s with
  | c :: s1 =>
      if is_char "<" c then
        let (gap, s2) := span is_space s1 in
        match match_ci (lit "script") s2 with
        | Some (name, s3) =>
            match span (fun x => negb (is_char ">" x)) s3 with
            | (attrs, gt :: s4) => Some (c :: gap ++ name ++ attrs ++ [gt], s4)
            | (_, []) => None
            end
        | None => None
        end
      else None
  | [] => None
  end.

(** The closing tag. *)
Definition close_tag (s : jsstring) : option (jsstring * jsstring) :=
  match s with
  | c :: d :: s1 =>
      if is_char "<" c && is_char "/" d then
        let (gap, s2) := span is_space s1 in
        match match_ci (lit "script") s2 with
        | Some (name, gt :: s3) =>
            if is_char ">" gt then Some (c :: d :: gap ++ name ++ [gt], s3)
            else None
        | _ => None
        end
      else None
  | _ => None
  end.

(** The shortest text behind which the closing tag matches, that tag, and
    the input behind it. *)
Fixpoint until_close (s : jsstring) : option (jsstring * jsstring * jsstring) :=
  match close_tag s with
  | Some (tag, rest) => Some ([], tag, rest)
  | None =>
      match s with
      | [] => None
      | c :: s' =>
          match until_close s' with
          | Some (body, tag, rest) => Some (c :: body, tag, rest)
          | None => None
          end
      end
  end.

Definition script_match : regex :=
  fun _ s =>
    match open_tag s with
    | Some (opening, s1) =>
        match until_close s1 with
        | Some (body, closing, _) =>
            Some {| matched := opening ++ body ++ closing; group1 := body |}
        | None => None
        end
    | None => None
    end.

(** A lookahead for one character of a class behind any characters of the
    same line. *)
Fixpoint lookahead (cls : code_unit -> bool) (s : jsstring) : bool :=
  match s with
  | [] => false
  | c :: s' => cls c || (dot c && lookahead cls s')
  end.

(** Between [min] and [max] characters of a class, up to the end. *)
Definition counted (cls : code_unit -> bool) (min max : nat) (s : jsstring) : bool :=
  forallb cls s && Nat.leb min (List.length s) && Nat.leb (List.length s) max.

Definition password_test (s : jsstring) : bool :=
  lookahead is_lower s && lookahead is_upper s && lookahead is_digit s
  && lookahead is_special s && counted is_password_char 8 128 s.

(** ** Notions of the specification *)

(** *** Structural conformance

    A subject conforms to a shape when every primitive leaf has the type its
    tag names, every declared field is present and conforms, and every
    element of an array conforms to every declared element shape.  Fields of
    the subject that the shape does not declare play no part. *)
Inductive conforms : value -> value -> Prop :=
| conforms_leaf (tag : jsstring) (v : value) :
    typeof v = tag ->
    conforms (VString tag) v
| conforms_array (shapes elems : list value) :
    (forall s v, In s shapes -> In v elems -> conforms s v) ->
    conforms (VArray shapes) (VArray elems)
| conforms_object (fields props : list (jsstring * value)) :
    (forall k s, In (k, s) fields -> is_some (lookup k props) = true) ->
    (forall k s v, In (k, s) fields -> lookup k props = Some v ->
       conforms s v) ->
    conforms (VObject fields) (VObject props).

(** No object that the matcher calls [hasOwnProperty] on has an own property
    of that name: neither a shape with declared fields nor the subject it is
    matched with, at any declared position. *)
Inductive unshadowed : value -> value -> Prop :=
| unshadowed_leaf (tag : jsstring) (v : value) :
    unshadowed (VString tag) v
| unshadowed_array (shapes elems : list value) :
    (forall s v, In s shapes -> In v elems -> unshadowed s v) ->
    unshadowed (VArray shapes) (VArray elems)
| unshadowed_object (fields props : list (jsstring * value)) :
    (fields <> [] ->
       lookup (lit "hasOwnProperty") fields = None
       /\ lookup (lit "hasOwnProperty") props = None) ->
    (forall k s v, In (k, s) fields -> lookup k props = Some v ->
       unshadowed s v) ->
    unshadowed (VObject fields) (VObject props).

(** *** The cross product of an array shape

    The elements of the subject with their indices, from [j] on. *)
Fixpoint indexed (j : nat) (elems : list value) : list (nat * value) :=
  match elems with
  | [] => []
  | v :: rest => (j, v) :: indexed (S j) rest
  end.

(** Every declared element shape with every subject element: the shapes in
    the outer position, the indexed elements in the inner one. *)
Definition cross (shapes elems : list value) : list (value * (nat * value)) :=
  flat_map (fun shape => map (pair shape) (indexed 0 elems)) shapes.

(** One pair of the cross product, validated at the path of the subject
    element. *)
Definition check_pair (path : jsstring) (p : value * (nat * value))
  : completion (option exn) :=
  validateByStructure (fst p) (snd (snd p)) (index_path path (fst (snd p))).

(** *** A subject with a field named like the method

    The shape declares one string field; the subject has it, and one more
    field whose name is [hasOwnProperty]. *)
Definition name_shape : value :=
  VObject [(lit "a", VString (lit "string"))].

Definition shadowing_subject : value :=
  VObject [(lit "a", VString (lit "x"));
           (lit "hasOwnProperty", VNumber (Int 1))].

(** *** Unknown shapes *)

(** Shapes that are none of a string, an array, an object or [null]. *)
Definition unknown_kind (structure : value) : bool :=
  match structure with
  | VUndefined | VBoolean _ | VNumber _ | VBigInt _ | VSymbol _
  | VFunction _ => true
  | _ => false
  end.


(** *** Character classes of a password *)

Definition has (cls : code_unit -> bool) (s : jsstring) : bool := existsb cls s.

(** A password with a character of each class, and a space at the end. *)
Definition spaced_password : jsstring := lit "Password1! ".

(** *** Blank fields and their depth

    [nested v]: the test of line 311, under which a field value is descended
    into. *)
Definition nested (v : value) : bool :=
  str_eqb (typeof v) (lit "object") || isArray v.

(** [blank_at data k]: [data] holds a null, undefined or empty-string value
    that the traversal meets [k] recursion levels below the call on [data].
    The fields of an object are met at the level of the object, the elements
    of an array one level below the array. *)
Inductive blank_at : value -> nat -> Prop :=
| blank_here (v : value) :
    is_blank v = true ->
    blank_at v 0
| blank_field (entries : list (jsstring * value)) (key : jsstring) (v : value) :
    In (key, v) entries -> is_blank v = true ->
    blank_at (VObject entries) 0
| blank_in_field (entries : list (jsstring * value)) (key : jsstring)
    (v : value) (k : nat) :
    In (key, v) entries -> is_blank v = false -> nested v = true ->
    blank_at v k ->
    blank_at (VObject entries) (S k)
| blank_in_item (items : list value) (v : value) (k : nat) :
    In v items -> blank_at v k ->
    blank_at (VArray items) (S k).

(** The failures for all blank values within the depth bound, in the order
    of a depth-first traversal. *)
Fixpoint blanks (data : value) (depth currentDepth : Z) {struct data}
  : list exn :=
  if (currentDepth >=? depth)%Z then []
  else
    match data with
    | VArray items =>
        flat_map (fun item => blanks item depth (to_double (currentDepth + 1)))
          items
    | VObject entries =>
        flat_map (fun entry =>
          if is_blank (snd entry) then [empty_field (fst entry) currentDepth]
          else if nested (snd entry)
          then blanks (snd entry) depth (to_double (currentDepth + 1))
          else []) entries
    | _ => if is_blank data then [empty_value currentDepth] else []
    end.

(** What a call throws when the traversal finds these failures. *)
Definition first_failure (failures : list exn) : completion unit :=
  match failures with
  | [] => Return tt
  | e :: _ => Throw e
  end.

(** *** Tokens between word characters

    The comment and terminator tokens of one and of two code units. *)
Definition is_single_token (c : code_unit) : bool :=
  is_char "#" c || is_char ";" c.

Definition is_double_token (c d : code_unit) : bool :=
  (is_char "-" c && is_char "-" d)
  || (is_char "/" c && is_char "*" d)
  || (is_char "*" c && is_char "/" d).

(** Every token that stands directly between two word characters gets a
    backslash before each of its code units; all else is copied.  [prev] is
    the code unit before the current position. *)
Fixpoint escape_flanked (prev : option code_unit) (s : jsstring) : jsstring :=
  match s with
  | [] => []
  | c :: s1 =>
      if word_at prev && is_single_token c && word_at (hd_error s1)
      then cu "\" :: c :: escape_flanked (Some c) s1
      else
        match s1 with
        | d :: s2 =>
            if word_at prev && is_double_token c d && word_at (hd_error s2)
            then cu "\" :: c :: cu "\" :: d :: escape_flanked (Some d) s2
            else c :: escape_flanked (Some c) s1
        | [] => c :: escape_flanked (Some c) s1
        end
  end.

(** The statement that the test suite passes to [isSqlInjection]. *)
Definition admin_query : jsstring :=
  lit "SELECT * FROM users WHERE name = 'admin';".

(** *** The two phases of the HTML sanitizer

    The input after the first phase, with the script tags taken out. *)
Definition stripped (input : jsstring) : jsstring :=
  replace (exec true scriptRegex) (fun m => group1 m) input.

(** The angle brackets and the two quotes. *)
Definition is_markup (c : code_unit) : bool :=
  is_char "<" c || is_char ">" c || N.eqb c dquote || is_char "'" c.

(** *** The alternatives of the SQL pattern, by kind *)

Definition is_letter (c : code_unit) : bool := is_lower c || is_upper c.

Definition is_word_text (w : jsstring) : bool :=
  match w with [] => false | _ => forallb is_letter w end.

(** Keywords and phrases: letters only. *)
Definition word_alternative (a : alternative) : bool :=
  match a with
  | Token w => is_word_text w
  | Phrase w1 w2 => is_word_text w1 && is_word_text w2
  end.

(** Comment and terminator tokens: they start with punctuation. *)
Definition punct_alternative (a : alternative) : bool :=
  match a with
  | Token (p :: _) => is_sql_punct p
  | _ => false
  end.

(** Text without any of the five punctuation characters. *)
Definition plain (m : jsstring) : bool :=
  forallb (fun c => negb (is_sql_punct c)) m.


(** ** Further notions *)

(** *** Where a failure is reported

    The five failures of the structure matcher, at the path [p]. *)
Inductive failure_at (p : jsstring) : exn -> Prop :=
| at_expected_type (tag ty : jsstring) : failure_at p (expected_type tag p ty)
| at_expected_array (ty : jsstring) : failure_at p (expected_array p ty)
| at_expected_object (ty : jsstring) : failure_at p (expected_object p ty)
| at_missing_key (key : jsstring) : failure_at p (missing_key key p)
| at_unknown_structure : failure_at p (unknown_structure p).

(** *** What the matcher lets pass

    Shapes made of type tags, arrays and field maps. *)
Fixpoint proper_shape (structure : value) : bool :=
  match structure with
  | VString _ => true
  | VArray shapes => forallb proper_shape shapes
  | VObject fields => forallb (fun entry => proper_shape (snd entry)) fields
  | _ => false
  end.

(** [admits structure arg]: every leaf of [arg] has the type its tag names,
    every declared field is an own property of an object or array and is
    admitted, and every element of an array is admitted by every declared
    element shape. *)
Inductive admits : value -> value -> Prop :=
| admits_leaf (tag : jsstring) (v : value) :
    typeof v = tag ->
    admits (VString tag) v
| admits_array (shapes elems : list value) :
    (forall s v, In s shapes -> In v elems -> admits s v) ->
    admits (VArray shapes) (VArray elems)
| admits_object (fields : list (jsstring * value)) (v : value) :
    typeof v = lit "object" -> is_null v = false ->
    (forall k s, In (k, s) fields -> is_some (own_property v k) = true) ->
    (forall k s x, In (k, s) fields -> own_property v k = Some x ->
       admits s x) ->
    admits (VObject fields) v.

(** *** What each descriptor accepts *)

Definition satisfies (b : builtin) (v : value) : bool :=
  match b, v with
  | BObject, VObject _ => true
  | BArray, VArray _ => true
  | BFunction, VFunction _ => true
  | BString, VString _ => true
  | BNumber, VNumber _ => true
  | BBoolean, VBoolean _ => true
  | _, _ => false
  end.

Definition is_callable (v : value) : bool :=
  match v with VFunction _ => true | _ => false end.

(** *** What [isNull] lets pass

    Non-empty strings, arrays and objects, numbers other than NaN and
    bigints other than [0n]. *)
Definition non_empty (v : value) : bool :=
  match v with
  | VString (_ :: _) => true
  | VNumber NaN => false
  | VNumber _ => true
  | VBigInt z => negb (Z.eqb z 0)
  | VArray (_ :: _) => true
  | VObject (_ :: _) => true
  | _ => false
  end.

(** *** Backslashes *)

Definition is_backslash (c : code_unit) : bool := is_char "\" c.

Definition without_backslashes (s : jsstring) : jsstring :=
  filter (fun c => negb (is_backslash c)) s.

(** *** Where the SQL sanitizer escapes

    [token_at prev s]: a token of one or two code units starts [s] and
    stands directly between two word characters, [prev] being the code unit
    before [s]. *)
Definition token_at (prev : option code_unit) (s : jsstring) : bool :=
  match s with
  | [] => false
  | c :: s1 =>
      (word_at prev && is_single_token c && word_at (hd_error s1))
      || match s1 with
         | d :: s2 =>
             word_at prev && is_double_token c d && word_at (hd_error s2)
         | [] => false
         end
  end.

(** *** What a matcher accepts

    [fits max n]: [n] repetitions are within the bound [max]. *)
Definition fits (max : option nat) (n : nat) : Prop :=
  match max with
  | None => True
  | Some m => n <= m
  end.

(** [accepts m L]: in front of any continuation, [m] succeeds exactly when
    the input starts with a text of [L] behind which the continuation
    succeeds. *)
Definition accepts (m : matcher) (L : jsstring -> Prop) : Prop :=
  forall st k,
    is_some (m st k) = true <->
    exists x rest,
      input st = x ++ rest /\ L x
      /\ is_some (k (advance st x rest)) = true.

(** *** The shape of a URL *)

Definition is_scheme (x : jsstring) : Prop :=
  x = lit "http://" \/ x = lit "https://".

Definition is_label (x : jsstring) : Prop :=
  exists name,
    x = name ++ [cu "."] /\ name <> []
    /\ forallb is_host_char name = true.

Definition is_tld (x : jsstring) : Prop :=
  forallb is_alpha x = true /\ 2 <= List.length x <= 6.

Definition is_segment (x : jsstring) : Prop :=
  exists name, x = cu "/" :: name /\ forallb is_host_char name = true.

Definition is_query (x : jsstring) : Prop :=
  exists q, x = cu "?" :: q /\ forallb is_query_char q = true.

Definition is_fragment (x : jsstring) : Prop :=
  exists f, x = cu "#" :: f /\ forallb is_fragment_char f = true.

(** An optional scheme, one or more labels that each end in a dot, a last
    label of two to six letters, any number of path segments, an optional
    query and an optional fragment. *)
Definition url_shape (url : jsstring) : Prop :=
  exists (prefix : jsstring) (labels : list jsstring) (tld : jsstring)
         (segments : list jsstring) (search hash : jsstring),
    url = prefix ++ List.concat labels ++ tld ++ List.concat segments
          ++ search ++ hash
    /\ (prefix = [] \/ is_scheme prefix)
    /\ labels <> [] /\ Forall is_label labels
    /\ is_tld tld
    /\ Forall is_segment segments
    /\ (search = [] \/ is_query search)
    /\ (hash = [] \/ is_fragment hash).

(** The code units of a URL that passes. *)
Definition is_url_char (c : code_unit) : bool :=
  is_alnum c || is_char "-" c || is_char "." c || is_char "/" c
  || is_char ":" c || is_char "?" c || is_char "=" c || is_char "&" c
  || is_char "#" c || is_char "_" c.
(* ===================================================================== *)
(** * Part II. Properties                                                 *)
(* ===================================================================== *)

(** ** Strings and values *)

Lemma str_eqb_eq (a b : jsstring) : str_eqb a b = true <-> a = b.
Proof.
  revert b; induction a as [|x a IH]; intros [|y b]; simpl;
    try (split; [discriminate | discriminate]); try tauto.
  rewrite andb_true_iff, N.eqb_eq, IH.
  split; [intros [-> ->]; reflexivity | intros H; inversion H; auto].
Qed.

Lemma str_eqb_refl (a : jsstring) : str_eqb a a = true.
Proof. apply str_eqb_eq; reflexivity. Qed.

(** ** Numbers that are integers *)

(** Up to [2^53] a number prints as the digits of the integer. *)
Lemma number_text_exact (z : Z) :
  (Z.abs z <= 2 ^ 53)%Z -> number_text z = decimalZ z.
Proof.
  intros H. unfold number_text.
  destruct (Z.leb_spec (Z.abs z) (2 ^ 53)) as [_ | Hgt]; [reflexivity | lia].
Qed.

(** Beyond, doubles round and print with the fewest digits that name them. *)
Lemma number_text_rounded :
  to_double (2 ^ 53 + 1) = (2 ^ 53)%Z
  /\ to_double (2 ^ 53 + 3) = (2 ^ 53 + 4)%Z
  /\ number_text (2 ^ 64) = lit "18446744073709552000"
  /\ number_text (10 ^ 21) = lit "1e+21"
  /\ number_text (2 ^ 70) = lit "1.1805916207174113e+21".
Proof. repeat split; vm_compute; reflexivity. Qed.

(** Induction on values, with the hypothesis for every element of an array
    and every property value of an object. *)
Lemma value_ind (P : value -> Prop)
    (Hundefined : P VUndefined)
    (Hnull : P VNull)
    (Hboolean : forall b, P (VBoolean b))
    (Hnumber : forall n, P (VNumber n))
    (Hbigint : forall z, P (VBigInt z))
    (Hstring : forall s, P (VString s))
    (Hsymbol : forall d, P (VSymbol d))
    (Hfunction : forall f, P (VFunction f))
    (Harray : forall elems, Forall P elems -> P (VArray elems))
    (Hobject : forall props, Forall (fun kv => P (snd kv)) props ->
                             P (VObject props)) :
  forall v, P v.
Proof.
  fix IH 1.
  intros [ | | b | n | z | s | d | f | elems | props].
  - exact Hundefined.
  - exact Hnull.
  - apply Hboolean.
  - apply Hnumber.
  - apply Hbigint.
  - apply Hstring.
  - apply Hsymbol.
  - apply Hfunction.
  - apply Harray. revert elems. fix IHl 1.
    intros [|x l]; constructor; [apply IH | apply IHl].
  - apply Hobject. revert props. fix IHl 1.
    intros [|[k x] l]; constructor; [apply IH | apply IHl].
Qed.

Lemma lookup_In (k : jsstring) (s : value) (fields : list (jsstring * value)) :
  In (k, s) fields -> is_some (lookup k fields) = true.
Proof.
  induction fields as [|[k' s'] fields IH]; simpl; [tauto|].
  intros [H | H].
  - inversion H; subst. rewrite str_eqb_refl. reflexivity.
  - destruct (str_eqb k k'); [reflexivity | auto].
Qed.

(** ** The loops of the structure matcher *)

Lemma for_each_none {A} (body : A -> completion (option exn)) (l : list A) :
  for_each body l = Return None <->
  (forall x, In x l -> body x = Return None).
Proof.
  induction l as [|x l IH]; simpl.
  - split; [intros _ y [] | reflexivity].
  - destruct (body x) as [[e|] | e | ] eqn:E; simpl.
    + split; [discriminate | intros H; specialize (H x (or_introl eq_refl)); congruence].
    + rewrite IH. split.
      * intros H y [<- | Hy]; auto.
      * intros H y Hy. apply H. right; exact Hy.
    + split; [discriminate | intros H; specialize (H x (or_introl eq_refl)); congruence].
    + split; [discriminate | intros H; specialize (H x (or_introl eq_refl)); congruence].
Qed.

Lemma for_each_indexed_as_for_each
    (body : nat -> value -> completion (option exn)) (elems : list value) :
  forall j,
    for_each_indexed body j elems =
    for_each (fun p => body (fst p) (snd p)) (indexed j elems).
Proof.
  induction elems as [|x l IH]; intros j; simpl; [reflexivity|].
  destruct (body j x) as [[e|] | e | ]; simpl; auto.
Qed.

Lemma for_each_app {A} (body : A -> completion (option exn)) (l1 l2 : list A) :
  for_each body (l1 ++ l2) =
  r <- for_each body l1 ;;
  match r with
  | Some e => Return (Some e)
  | None => for_each body l2
  end.
Proof.
  induction l1 as [|x l1 IH]; simpl; [reflexivity|].
  destruct (body x) as [[e|] | e | ]; simpl; auto.
Qed.

Lemma for_each_map {A B} (f : A -> B) (body : B -> completion (option exn))
    (l : list A) :
  for_each body (map f l) = for_each (fun x => body (f x)) l.
Proof.
  induction l as [|x l IH]; simpl; [reflexivity|].
  destruct (body (f x)) as [[e|] | e | ]; simpl; auto.
Qed.

Lemma for_each_flat_map {A B} (f : A -> list B)
    (body : B -> completion (option exn)) (l : list A) :
  for_each body (flat_map f l) = for_each (fun x => for_each body (f x)) l.
Proof.
  induction l as [|x l IH]; simpl; [reflexivity|].
  rewrite for_each_app, IH.
  destruct (for_each body (f x)) as [[e|] | e | ]; reflexivity.
Qed.

Lemma indexed_nth (elems : list value) (j0 j : nat) (v : value) :
  In (j, v) (indexed j0 elems) <->
  j0 <= j /\ nth_error elems (j - j0) = Some v.
Proof.
  revert j0; induction elems as [|x l IH]; intros j0; simpl.
  - split; [tauto|]. intros [_ H]. destruct (j - j0); discriminate.
  - rewrite IH. split.
    + intros [H | [Hle H]].
      * inversion H; subst. rewrite Nat.sub_diag. auto.
      * split; [lia|]. replace (j - j0) with (S (j - S j0)) by lia. exact H.
    + intros [Hle H]. destruct (j - j0) as [|n] eqn:E.
      * left. simpl in H. inversion H. f_equal. lia.
      * right. split; [lia|]. simpl in H. replace (j - S j0) with n by lia.
        exact H.
Qed.

Lemma for_each_first_failure {A} (body : A -> completion (option exn))
    (l : list A) (e : exn) :
  for_each body l = Return (Some e) ->
  exists before x after,
    l = before ++ x :: after
    /\ (forall y, In y before -> body y = Return None)
    /\ body x = Return (Some e).
Proof.
  induction l as [|x l IH]; simpl; [discriminate|].
  destruct (body x) as [[e'|] | e' | ] eqn:E; simpl; try discriminate.
  - intros H; inversion H; subst.
    exists [], x, l. repeat split; [intros y [] | exact E].
  - intros H. destruct (IH H) as (before & y & after & -> & Hb & Hy).
    exists (x :: before), y, after. repeat split; auto.
    intros z [<- | Hz]; auto.
Qed.

(** ** validateByStructure *)

Section StructureMatcher.

Implicit Types (structure arg shape : value) (path : jsstring).

(** The array branch is the loop over the cross product. *)
Lemma validateByStructure_array (shapes elems : list value) path :
  validateByStructure (VArray shapes) (VArray elems) path =
  for_each (check_pair path) (cross shapes elems).
Proof.
  unfold cross. rewrite for_each_flat_map. simpl.
  induction shapes as [|shape shapes IH]; [reflexivity|].
  simpl. rewrite for_each_map. unfold check_pair at 1. simpl.
  rewrite for_each_indexed_as_for_each.
  rewrite IH. reflexivity.
Qed.

Lemma In_cross (shapes elems : list value) shape (j : nat) (v : value) :
  In (shape, (j, v)) (cross shapes elems) <->
  In shape shapes /\ nth_error elems j = Some v.
Proof.
  unfold cross. rewrite in_flat_map. split.
  - intros (s & Hs & Hin). apply in_map_iff in Hin.
    destruct Hin as ([j' v'] & Heq & Hin). inversion Heq; subst.
    apply indexed_nth in Hin. rewrite Nat.sub_0_r in Hin. tauto.
  - intros [Hs Hn]. exists shape. split; [exact Hs|].
    apply in_map. apply indexed_nth. rewrite Nat.sub_0_r. split; [lia | exact Hn].
Qed.

(** A conforming subject yields no failure, as long as no object that the
    matcher asks [hasOwnProperty] of shadows that method. *)
Lemma validateByStructure_sound structure :
  forall arg path,
    conforms structure arg ->
    unshadowed structure arg ->
    validateByStructure structure arg path = Return None.
Proof.
  induction structure as
    [ | | b | n | z | tag | d | f | shapes IH | fields IH] using value_ind;
    intros arg path Hc Hu; inversion Hc; subst.
  - (* a type tag *)
    simpl. rewrite str_eqb_refl. reflexivity.
  - (* an array shape *)
    inversion Hu; subst.
    rewrite validateByStructure_array. apply for_each_none.
    intros [shape [j v]] Hin. apply In_cross in Hin. destruct Hin as [Hs Hv].
    simpl. rewrite Forall_forall in IH.
    apply nth_error_In in Hv. apply IH; auto.
  - (* an object shape *)
    inversion Hu as [ | | ? ? Hown Hsub]; subst.
    simpl. apply for_each_none. intros [k s] Hin.
    destruct Hown as [Hf Hp]; [intros ->; destruct Hin|].
    unfold check_key; simpl. rewrite Hf, Hp; simpl.
    rewrite (lookup_In k s fields Hin); simpl.
    match goal with H : forall k s, In _ fields -> is_some _ = true |- _ =>
      pose proof (H k s Hin) as Hpresent end.
    rewrite Hpresent. unfold get; simpl.
    destruct (lookup k props) as [v|] eqn:El; [|discriminate].
    rewrite Forall_forall in IH. apply (IH (k, s) Hin); eauto.
Qed.

(** An own property [hasOwnProperty] of the subject that is no function
    makes the matcher throw as soon as an object shape declares a field. *)
Lemma validateByStructure_shadowed (fields props : list (jsstring * value))
    (shadow : value) path :
  fields <> [] ->
  lookup (lit "hasOwnProperty") fields = None ->
  lookup (lit "hasOwnProperty") props = Some shadow ->
  match shadow with VFunction _ => false | _ => true end = true ->
  validateByStructure (VObject fields) (VObject props) path = Throw TypeError.
Proof.
  intros Hne Hf Hp Hs. destruct fields as [|[k s] fields]; [congruence|].
  cbn [validateByStructure typeof is_null negb orb for_each fst snd].
  rewrite str_eqb_refl. cbn [negb].
  unfold check_key. cbn [hasOwnProperty]. rewrite Hf, Hp.
  rewrite (lookup_In k s ((k, s) :: fields) (or_introl eq_refl)).
  cbn [bind]. destruct shadow; try discriminate; reflexivity.
Qed.

Lemma validateByStructure_unknown structure arg path :
  unknown_kind structure = true ->
  validateByStructure structure arg path = Return (Some (unknown_structure path)).
Proof. destruct structure; simpl; congruence || reflexivity. Qed.

(** The shape [null] is taken for an object shape without fields. *)
Lemma validateByStructure_null arg path :
  validateByStructure VNull arg path =
  if negb (str_eqb (typeof arg) (lit "object")) || is_null arg
  then Return (Some (expected_object path (typeof arg)))
  else Return None.
Proof. reflexivity. Qed.

End StructureMatcher.

(** C1.  A subject that conforms to its shape and has one undeclared field
    named [hasOwnProperty]: the call [arg.hasOwnProperty(key)] of line 52
    finds that field instead of the method, and the matcher throws a
    TypeError instead of returning no failure. *)
Theorem validateByStructure_shadowed_subject :
  conforms name_shape shadowing_subject
  /\ validateByStructure name_shape shadowing_subject [] = Throw TypeError.
Proof.
  split; [|reflexivity].
  apply conforms_object.
  - intros k s [H | []]. inversion H; subst. reflexivity.
  - intros k s v [H | []] Hl. inversion H; subst.
    vm_compute in Hl. inversion Hl; subst. apply conforms_leaf. reflexivity.
Qed.

(** C2.  An array shape first requires an array; on an array it is the loop
    over the cross product of declared element shapes (outer) and subject
    elements (inner), every pair validated at the path suffixed with the
    index of the subject element in brackets, and the first failure is
    returned.  So the subject passes exactly when every element passes under
    every declared element shape; the first element that is not of the type
    the first shape names is reported at the path with its index. *)
Theorem array_shape_cross_product (shapes : list value) (arg : value)
    (path : jsstring) :
  (isArray arg = false ->
     validateByStructure (VArray shapes) arg path =
     Return (Some (expected_array path (typeof arg))))
  /\ (forall elems, arg = VArray elems ->
        validateByStructure (VArray shapes) arg path =
        for_each (check_pair path) (cross shapes elems))
  /\ (forall elems e, arg = VArray elems ->
        validateByStructure (VArray shapes) arg path = Return (Some e) ->
        exists before shape j v after,
          cross shapes elems = before ++ (shape, (j, v)) :: after
          /\ (forall p, In p before -> check_pair path p = Return None)
          /\ validateByStructure shape v (index_path path j) = Return (Some e))
  /\ (forall elems, arg = VArray elems ->
        (validateByStructure (VArray shapes) arg path = Return None <->
         forall shape j v, In shape shapes -> nth_error elems j = Some v ->
           validateByStructure shape v (index_path path j) = Return None))
  /\ (forall j, index_path path j = path ++ lit "[" ++ decimal j ++ lit "]")
  /\ (forall tag more before v after,
        shapes = VString tag :: more ->
        arg = VArray (before ++ v :: after) ->
        (forall u, In u before -> typeof u = tag) ->
        typeof v <> tag ->
        validateByStructure (VArray shapes) arg path =
        Return (Some (expected_type tag
                        (path ++ lit "[" ++ decimal (List.length before)
                         ++ lit "]")
                        (typeof v))))
  /\ validateByStructure
       (VArray [VString (lit "number"); VString (lit "string")])
       (VArray [VNumber (Int 1)]) (lit "items")
     = Return (Some (expected_type (lit "string") (lit "items[0]")
                       (lit "number"))).
Proof.
  split; [|split; [|split; [|split; [|split; [|split]]]]].
  - intros H. simpl. rewrite H. reflexivity.
  - intros elems ->. apply validateByStructure_array.
  - intros elems e -> H. rewrite validateByStructure_array in H.
    apply for_each_first_failure in H.
    destruct H as (before & [shape [j v]] & after & Heq & Hb & Hx).
    exists before, shape, j, v, after. auto.
  - intros elems ->. rewrite validateByStructure_array, for_each_none. split.
    + intros H shape j v Hs Hv.
      apply (H (shape, (j, v))). apply In_cross; auto.
    + intros H [shape [j v]] Hin. apply In_cross in Hin. apply H; tauto.
  - reflexivity.
  - intros tag more before v after -> -> Hbefore Hv.
    cbn [validateByStructure isArray negb for_each].
    assert (Hloop : forall j,
              for_each_indexed
                (fun (j0 : nat) (item : value) =>
                   if negb (str_eqb (typeof item) tag)
                   then Return (Some (expected_type tag (index_path path j0)
                                        (typeof item)))
                   else Return None)
                j (before ++ v :: after)
              = Return (Some (expected_type tag
                                (index_path path (j + List.length before))
                                (typeof v)))).
    { induction before as [|u before IH]; intros j;
        cbn [app for_each_indexed List.length].
      - destruct (str_eqb (typeof v) tag) eqn:E;
          [apply str_eqb_eq in E; contradiction|].
        cbn [negb bind]. rewrite Nat.add_0_r. reflexivity.
      - rewrite (Hbefore u (or_introl eq_refl)), str_eqb_refl.
        cbn [negb bind]. rewrite IH by (intros w Hw; apply Hbefore; right; exact Hw).
        rewrite Nat.add_succ_r. reflexivity. }
    rewrite (Hloop 0). reflexivity.
  - reflexivity.
Qed.

(** An instance: a number under two element shapes, of which it matches the
    first only. *)
Lemma array_shape_cross_product_witness :
  exists before shape j v after,
    cross [VString (lit "number"); VString (lit "string")] [VNumber (Int 1)]
    = before ++ (shape, (j, v)) :: after
    /\ (forall p, In p before -> check_pair [] p = Return None)
    /\ validateByStructure shape v (index_path [] j)
       = Return (Some (expected_type (lit "string") (lit "[0]")
                         (lit "number"))).
Proof.
  apply (proj1 (proj2 (proj2 (array_shape_cross_product
                  [VString (lit "number"); VString (lit "string")]
                  (VArray [VNumber (Int 1)]) []))) [VNumber (Int 1)]);
    reflexivity.
Defined.

(** C5.  The shape [null] never reaches the branch of unknown structure
    types: [typeof null] is ["object"], so line 42 takes it for an object
    shape, one without fields.  An object or array subject then passes, and
    any other subject is reported as not being an object. *)
Theorem validateByStructure_null_shape (arg : value) (path : jsstring) :
  validateByStructure VNull arg path
  <> Return (Some (unknown_structure path))
  /\ validateByStructure VNull (VObject []) path = Return None
  /\ validateByStructure VNull (VNumber (Int 5)) path
     = Return (Some (expected_object path (lit "number"))).
Proof.
  repeat split. rewrite validateByStructure_null.
  destruct (negb _ || _); discriminate.
Qed.

(** ** validateType *)

Section TypeGuard.

Implicit Types (type value : value).

(** A string conversion raises nothing but the TypeError of the runtime. *)
Lemma to_string_throw (v : value) :
  forall e, to_string v = Throw e -> e = TypeError.
Proof.
  induction v as
    [ | | b | n | z | s | d | f | elems IH | props IH] using value_ind;
    simpl; intros e; try discriminate.
  - intros H; inversion H; reflexivity.
  - induction elems as [|x l IHl]; [discriminate|].
    inversion IH as [|? ? Hx Hl]; subst.
    destruct (match x with
              | VUndefined | VNull => Return []
              | _ => to_string x
              end) as [a | e0 | ] eqn:Ex; simpl.
    + destruct l as [|y l']; [discriminate|].
      specialize (IHl Hl).
      match goal with
        |- context [bind ?j _] => destruct j as [b0 | e1 | ] eqn:Ej
      end; simpl; try discriminate.
      intros H; inversion H; subst. apply IHl. reflexivity.
    + intros H; inversion H; subst.
      destruct x; try discriminate; auto.
    + discriminate.
  - destruct (lookup (lit "toString") props) as [[]|];
      try discriminate;
      destruct (lookup (lit "valueOf") props) as [[]|];
      try discriminate; intros H; inversion H; reflexivity.
Qed.

(** Behind the null, [Object] and [Array] branches every failure names
    the descriptor and [typeof value]. *)
Lemma validateType_late_branches type value (e : exn) :
  is_null type = false -> is_null value = false ->
  is_builtin BObject type = false -> is_builtin BArray type = false ->
  validateType type value = Throw e ->
  e = TypeError
  \/ exists t, to_string type = Return t
               /\ e = mismatch t (typeof value).
Proof.
  intros Hn Hv Ho Ha. unfold validateType. rewrite Hn, Hv, Ho, Ha. simpl.
  assert (Hthrow : throw_typeof_mismatch type value = Throw e ->
                   e = TypeError
                   \/ exists t, to_string type = Return t
                                /\ e = mismatch t (typeof value)).
  { unfold throw_typeof_mismatch.
    destruct (to_string type) as [t | e' | ] eqn:Et; simpl; intros H;
      inversion H; subst.
    - right. exists t. auto.
    - left. eapply to_string_throw, Et. }
  destruct type; try discriminate; auto;
    repeat match goal with
      |- context [if ?c then _ else _] => destruct c; try discriminate
    end; auto.
Qed.

(** In the null, [Object] and [Array] branches a failure prints the value
    itself. *)
Lemma validateType_early_branches type value (t v : jsstring) :
  is_null type || is_builtin BObject type || is_builtin BArray type = true ->
  to_string type = Return t ->
  to_string value = Return v ->
  validateType type value = Return tt
  \/ validateType type value = Throw (mismatch t v).
Proof.
  intros Hb Ht Hv. unfold validateType, throw_value_mismatch.
  rewrite Ht, Hv. simpl.
  destruct (is_null type) eqn:En; simpl.
  - destruct (is_null value); auto.
  - destruct (is_null value) eqn:Env; simpl; [auto|].
    destruct (is_builtin BObject type) eqn:Eo; simpl.
    + destruct (_ && _); auto.
    + destruct (is_builtin BArray type) eqn:Ea; [|discriminate].
      destruct (isArray value); auto.
Qed.

End TypeGuard.

(** C9.  In the null, [Object] and [Array] branches (lines 81, 90 and 97)
    the message is built from the value itself, not from [typeof value] as
    at lines 111 and 114: for a string value it carries the text of the
    string and does not name its category. *)
Theorem validateType_early_branches_name_value :
  validateType VNull (VString (lit "abc"))
  = Throw (Error (lit "Type of null does not match abc"))
  /\ validateType (VFunction (Builtin BObject)) (VString (lit "abc"))
     = Throw (Error (lit "Type of function Object() { [native code] } does not match abc"))
  /\ validateType (VFunction (Builtin BArray)) (VString (lit "test"))
     = Throw (Error (lit "Type of function Array() { [native code] } does not match test"))
  /\ includes (lit "Type of null does not match abc")
       (typeof (VString (lit "abc"))) = false
  /\ includes (lit "Type of function Object() { [native code] } does not match abc")
       (typeof (VString (lit "abc"))) = false
  /\ includes (lit "Type of function Array() { [native code] } does not match test")
       (typeof (VString (lit "test"))) = false.
Proof. repeat split; vm_compute; reflexivity. Qed.

(** ** Character classes *)

(** Replaces the code units of character literals by their numbers. *)
Ltac eval_cu :=
  repeat match goal with
    | |- context [cu ?a] =>
        let x := eval vm_compute in (cu a) in change (cu a) with x
    | H : context [cu ?a] |- _ =>
        let x := eval vm_compute in (cu a) in change (cu a) with x in H
    end.

(** Turns boolean tests on code units into arithmetic. *)
Ltac char_prop :=
  unfold is_password_char, is_special, is_word, is_lower, is_upper, is_digit,
    is_html_special, is_sql_punct, is_single_token, is_double_token,
    is_line_terminator, is_space, in_range, is_char, dquote in *;
  eval_cu;
  repeat rewrite ?andb_true_iff, ?orb_true_iff, ?andb_false_iff,
    ?orb_false_iff, ?negb_true_iff, ?negb_false_iff, ?N.leb_le, ?N.leb_gt,
    ?N.eqb_eq, ?N.eqb_neq in *.

Lemma password_char_dot (c : code_unit) :
  is_password_char c = true -> dot c = true.
Proof.
  intros H. unfold dot. destruct (is_line_terminator c) eqn:E; [|reflexivity].
  exfalso. char_prop. lia.
Qed.

(** ** The matcher of regular expressions *)

Section Matcher.

Implicit Types (st : mstate) (k : mstate -> option mstate).

Lemma prev_after_app (prev : option code_unit) (a b : jsstring) :
  prev_after (prev_after prev a) b = prev_after prev (a ++ b).
Proof. revert prev; induction a as [|x a IH]; intros prev; simpl; auto. Qed.

Lemma prev_after_snoc (prev : option code_unit) (a : jsstring)
    (x : code_unit) :
  prev_after prev (a ++ [x]) = Some x.
Proof. revert prev; induction a as [|y a IH]; intros prev; simpl; auto. Qed.

Lemma advance_nil st : advance st [] (input st) = st.
Proof. destruct st. unfold advance. simpl. rewrite app_nil_r. reflexivity. Qed.

Lemma advance_step st (c : code_unit) (s' m rest : jsstring) :
  advance (step st c s') m rest = advance st (c :: m) rest.
Proof. unfold advance, step. simpl. rewrite <- app_assoc. reflexivity. Qed.

(** A literal consumes the text that matches it. *)
Lemma matches_literal (w : jsstring) :
  forall st k,
    matches true (literal w) st k =
    match match_ci w (input st) with
    | Some (m, rest) => k (advance st m rest)
    | None => None
    end.
Proof.
  induction w as [|x w IH]; intros st k.
  - simpl. rewrite advance_nil. reflexivity.
  - change (literal (x :: w)) with (Seq (Chr x) (literal w)).
    cbn [matches match_ci]. destruct (input st) as [|c s']; [reflexivity|].
    destruct (unit_eqb true x c); [|reflexivity].
    rewrite IH. cbn [step input].
    destruct (match_ci w s') as [[m rest]|]; [|reflexivity].
    rewrite advance_step. reflexivity.
Qed.

(** Where the continuation fails in front of a code unit of the class, a
    greedy star commits to the longest run. *)
Lemma repeat_star_commit (cls : code_unit -> bool) k
    (gs : list (nat * jsstring)) :
  (forall prev txt c s', cls c = true ->
     k {| before := prev; input := c :: s'; text := txt; groups := gs |}
     = None) ->
  forall s prev txt,
    repeat_class true cls k 0 None gs prev txt s =
    k {| before := prev_after prev (fst (span cls s));
         input := snd (span cls s);
         text := txt ++ fst (span cls s); groups := gs |}.
Proof.
  intros Hk. induction s as [|c s IH]; intros prev txt.
  - simpl. rewrite app_nil_r. reflexivity.
  - cbn [repeat_class span]. destruct (cls c) eqn:Ec; cbn [andb has_room].
    + cbn [pred option_map]. rewrite IH, (Hk prev txt c s Ec).
      destruct (span cls s) as [run rest]. cbn [fst snd prev_after].
      rewrite <- app_assoc. cbn [app].
      destruct (k _); reflexivity.
    + cbn [fst snd prev_after]. rewrite app_nil_r. reflexivity.
Qed.

Lemma repeat_plus_commit (cls : code_unit -> bool) k
    (gs : list (nat * jsstring)) :
  (forall prev txt c s', cls c = true ->
     k {| before := prev; input := c :: s'; text := txt; groups := gs |}
     = None) ->
  forall s prev txt,
    repeat_class true cls k 1 None gs prev txt s =
    match span cls s with
    | ([], _) => None
    | (run, rest) =>
        k {| before := prev_after prev run; input := rest;
             text := txt ++ run; groups := gs |}
    end.
Proof.
  intros Hk [|c s] prev txt; [reflexivity|].
  cbn [repeat_class span]. destruct (cls c) eqn:Ec; cbn [andb has_room];
    [|reflexivity].
  cbn [pred option_map]. rewrite (repeat_star_commit cls k gs Hk).
  destruct (span cls s) as [run rest]. cbn [fst snd prev_after].
  rewrite <- app_assoc. cbn [app].
  destruct (k _); reflexivity.
Qed.

Lemma matches_alternation_cons (icase : bool) (r : re) (rs : list re) st k :
  matches icase (alternation (r :: rs)) st k =
  match matches icase r st k with
  | Some x => Some x
  | None => matches icase (alternation rs) st k
  end.
Proof.
  destruct rs as [|r' rs]; [|reflexivity].
  cbn [alternation matches].
  destruct (matches icase r st k); [reflexivity|].
  destruct (input st); reflexivity.
Qed.

(** A pattern character that is no letter matches itself only. *)
Lemma unit_eqb_char (a : ascii) (c : code_unit) :
  is_lower (cu a) || is_upper (cu a) = false ->
  unit_eqb true (cu a) c = is_char a c.
Proof.
  intros Ha. unfold unit_eqb, is_char, canonicalize.
  apply orb_false_iff in Ha. destruct Ha as [Hl Hu]. rewrite Hl.
  destruct (N.eqb_spec c (cu a)) as [-> | Hne].
  - rewrite Hl. apply N.eqb_refl.
  - apply N.eqb_neq. destruct (is_lower c) eqn:Ec; [|congruence].
    intros E. unfold is_lower, is_upper, in_range in *.
    change (cu "a") with 97%N in *. change (cu "z") with 122%N in *.
    change (cu "A") with 65%N in *. change (cu "Z") with 90%N in *.
    rewrite ?andb_true_iff, ?andb_false_iff, ?N.leb_le, ?N.leb_gt in *. lia.
Qed.


(** *** The two classes *)

Lemma exec_class (icase : bool) (cls : code_unit -> bool)
    (prev : option code_unit) (s : jsstring) :
  exec icase (Cls cls) prev s = re_class false cls prev s.
Proof.
  unfold exec, re_class. cbn [matches input].
  destruct s as [|c s']; [reflexivity|]. destruct (cls c); reflexivity.
Qed.

Lemma exec_group_class (icase : bool) (cls : code_unit -> bool)
    (prev : option code_unit) (s : jsstring) :
  exec icase (Group 1 (Cls cls)) prev s = re_class true cls prev s.
Proof.
  unfold exec, re_class. cbn [matches input].
  destruct s as [|c s']; [reflexivity|]. destruct (cls c); reflexivity.
Qed.

(** *** The SQL pattern *)

Lemma letter_not_space (x c : code_unit) :
  is_lower x || is_upper x = true -> is_space c = true ->
  unit_eqb true x c = false.
Proof.
  intros Hx Hc. unfold unit_eqb, canonicalize. apply N.eqb_neq.
  unfold is_space, is_lower, is_upper, in_range in *.
  change (cu "a") with 97%N in *. change (cu "z") with 122%N in *.
  change (cu "A") with 65%N in *. change (cu "Z") with 90%N in *.
  destruct (N.leb 97 x && N.leb x 122) eqn:Ex,
           (N.leb 97 c && N.leb c 122) eqn:Ec;
    repeat rewrite ?andb_true_iff, ?orb_true_iff, ?andb_false_iff,
      ?orb_false_iff, ?N.leb_le, ?N.leb_gt, ?N.eqb_eq in *; lia.
Qed.

Lemma matches_alternative (a : alternative) :
  alternative_ok a = true ->
  forall st k,
    matches true (re_of_alternative a) st k =
    match match_alternative (before st) a (input st) with
    | Some (m, rest) => k (advance st m rest)
    | None => None
    end.
Proof.
  destruct a as [w | w1 w2]; intros Hok st k.
  - apply matches_literal.
  - cbn [re_of_alternative sequence matches match_alternative].
    destruct (word_boundary (before st) (hd_error (input st))); [|reflexivity].
    rewrite matches_literal.
    destruct (match_ci w1 (input st)) as [[m1 s1]|]; [|reflexivity].
    unfold plus. cbn [matches].
    rewrite repeat_plus_commit.
    + cbn [advance input before text groups].
      destruct (span is_space s1) as [[|g gap] s2]; [reflexivity|].
      rewrite matches_literal. cbn [input].
      destruct (match_ci w2 s2) as [[m2 rest]|]; [|reflexivity].
      cbn [matches]. f_equal. unfold advance. cbn [before text groups input].
      rewrite !prev_after_app, <- !app_assoc. reflexivity.
    + intros prev txt c s' Hc. rewrite matches_literal. cbn [input].
      destruct w2 as [|x w2]; [discriminate|]. cbn [alternative_ok] in Hok.
      cbn [match_ci]. rewrite (letter_not_space x c Hok Hc). reflexivity.
Qed.

Lemma matches_sql_alternatives (alts : list alternative) :
  forallb alternative_ok alts = true ->
  forall (prev : option code_unit) (s : jsstring),
    matches true (alternation (map re_of_alternative alts))
      {| before := prev; input := s; text := []; groups := [] |}
      (fun st' =>
         if word_boundary (before st') (hd_error (input st'))
         then Some (capture 1 (text st') (capture 2 (text st') st'))
         else None)
    = match first_alternative prev alts s with
      | Some (m, rest) =>
          Some {| before := prev_after prev m; input := rest; text := m;
                  groups := [(1, m); (2, m)] |}
      | None => None
      end.
Proof.
  intros Hok prev s. induction alts as [|a alts IH].
  - cbn [map alternation matches input first_alternative].
    destruct s; reflexivity.
  - cbn [forallb] in Hok. apply andb_true_iff in Hok. destruct Hok as [Ha Hok].
    cbn [map]. rewrite matches_alternation_cons, (matches_alternative a Ha).
    cbn [before input first_alternative].
    destruct (match_alternative prev a s) as [[m rest]|]; [|exact (IH Hok)].
    cbn [advance before input text groups app].
    destruct (word_boundary (prev_after prev m) (hd_error rest));
      [reflexivity | exact (IH Hok)].
Qed.

Lemma exec_sqlInjectionRegex (prev : option code_unit) (s : jsstring) :
  exec true sqlInjectionRegex prev s = sql_match prev s.
Proof.
  unfold exec, sqlInjectionRegex, sql_match.
  cbn [sequence matches before input text groups List.length skipn capture].
  destruct (word_boundary prev (hd_error s)); [|reflexivity].
  pose proof (matches_sql_alternatives sql_alternatives eq_refl prev s) as H.
  cbn [capture before input text groups] in H.
  rewrite H.
  destruct (first_alternative prev sql_alternatives s) as [[m rest]|];
    reflexivity.
Qed.


(** *** The script pattern *)

Lemma span_stop (cls : code_unit -> bool) (s : jsstring) :
  forall run x rest, span cls s = (run, x :: rest) -> cls x = false.
Proof.
  induction s as [|c s IH]; intros run x rest; simpl; [discriminate|].
  destruct (cls c) eqn:Ec.
  - destruct (span cls s) as [run' rest'] eqn:Es.
    intros H; inversion H; subst. eapply IH; reflexivity.
  - intros H; inversion H; subst. exact Ec.
Qed.

(** The name of the element does not start at white space. *)
Lemma script_after_space k (prev : option code_unit) (txt : jsstring)
    (gs : list (nat * jsstring)) (c : code_unit) (s' : jsstring) :
  is_space c = true ->
  matches true (literal (lit "script"))
    {| before := prev; input := c :: s'; text := txt; groups := gs |} k
  = None.
Proof.
  intros Hc. rewrite matches_literal. cbn [input].
  change (lit "script") with (cu "s" :: lit "cript"). cbn [match_ci].
  rewrite (letter_not_space (cu "s") c eq_refl Hc). reflexivity.
Qed.

Lemma matches_close st k :
  matches true closing st k =
  match close_tag (input st) with
  | Some (tag, rest) => k (advance st tag rest)
  | None => None
  end.
Proof.
  unfold closing, close_tag. cbn [sequence matches].
  destruct (input st) as [|c [|d s1]]; [reflexivity | |].
  - rewrite unit_eqb_char by reflexivity.
    destruct (is_char "<" c); reflexivity.
  - rewrite unit_eqb_char by reflexivity.
    destruct (is_char "<" c); [|reflexivity].
    cbn [step input andb]. rewrite unit_eqb_char by reflexivity.
    destruct (is_char "/" d); [|reflexivity].
    unfold star. cbn [matches step input before text groups].
    rewrite repeat_star_commit
      by (intros; apply script_after_space; assumption).
    destruct (span is_space s1) as [gap s2]. cbn [fst snd].
    rewrite matches_literal. cbn [input].
    destruct (match_ci (lit "script") s2) as [[name s3]|]; [|reflexivity].
    cbn [advance input matches before text groups].
    destruct s3 as [|gt s4]; [reflexivity|].
    rewrite unit_eqb_char by reflexivity.
    destruct (is_char ">" gt); [|reflexivity].
    f_equal. unfold step, advance. cbn [before input text groups prev_after].
    rewrite (app_assoc gap name [gt]), prev_after_snoc.
    f_equal. rewrite <- !app_assoc. reflexivity.
Qed.

(** The lazy group in front of the closing tag stops where that tag first
    matches. *)
Lemma lazy_until_close (gs : list (nat * jsstring)) (n : nat) :
  forall (s : jsstring) (prev : option code_unit) (txt : jsstring),
    repeat_class false any
      (fun st' =>
         matches true closing (capture 1 (skipn n (text st')) st')
           (fun st'' => Some st''))
      0 None gs prev txt s
    = match until_close s with
      | Some (body, tag, rest) =>
          Some {| before := prev_after prev (body ++ tag); input := rest;
                  text := txt ++ body ++ tag;
                  groups := (1, skipn n (txt ++ body)) :: gs |}
      | None => None
      end.
Proof.
  induction s as [|c s IH]; intros prev txt.
  - cbn [repeat_class until_close]. rewrite matches_close. reflexivity.
  - cbn [repeat_class until_close any has_room andb].
    rewrite matches_close. cbn [capture input].
    destruct (close_tag (c :: s)) as [[tag rest]|].
    + unfold advance. cbn [before input text groups app].
      rewrite app_nil_r. reflexivity.
    + cbn [pred option_map]. rewrite IH.
      destruct (until_close s) as [[[body tag] rest]|]; [|reflexivity].
      cbn [app prev_after]. rewrite <- !app_assoc. reflexivity.
Qed.

Lemma exec_scriptRegex (prev : option code_unit) (s : jsstring) :
  exec true scriptRegex prev s = script_match prev s.
Proof.
  unfold exec, script_match, open_tag.
  change scriptRegex with
    (Seq (Chr (cu "<"))
       (Seq (star is_space)
          (Seq (literal (lit "script"))
             (Seq (star (fun c => negb (is_char ">" c)))
                (Seq (Chr (cu ">"))
                   (Seq (Group 1 (lazy_star any)) closing)))))).
  cbn [matches input].
  destruct s as [|c s1]; [reflexivity|].
  rewrite unit_eqb_char by reflexivity.
  destruct (is_char "<" c); [|reflexivity].
  unfold star. cbn [matches step input before text groups app].
  rewrite repeat_star_commit
    by (intros; apply script_after_space; assumption).
  destruct (span is_space s1) as [gap s2]. cbn [fst snd].
  rewrite matches_literal. cbn [input].
  destruct (match_ci (lit "script") s2) as [[name s3]|]; [|reflexivity].
  cbn [advance input matches before text groups].
  rewrite repeat_star_commit.
  - destruct (span (fun c0 => negb (is_char ">" c0)) s3) as [attrs s4] eqn:Es.
    cbn [fst snd input]. destruct s4 as [|gt s5]; [reflexivity|].
    rewrite unit_eqb_char by reflexivity.
    pose proof (span_stop _ _ _ _ _ Es) as Hgt.
    apply negb_false_iff in Hgt. rewrite Hgt.
    unfold lazy_star. cbn [matches step input before text groups].
    rewrite lazy_until_close.
    destruct (until_close s5) as [[[body tag] rest]|]; [|reflexivity].
    cbn [text groups group Nat.eqb]. rewrite skipn_app, skipn_all, Nat.sub_diag.
    cbn [skipn app]. f_equal. f_equal.
    rewrite <- !app_assoc. reflexivity.
  - intros prev' txt c' s' Hc'. cbn [matches input].
    rewrite unit_eqb_char by reflexivity.
    apply negb_true_iff in Hc'. rewrite Hc'. reflexivity.
Qed.

(** *** The password pattern *)

Lemma lookahead_spec (cls : code_unit -> bool) (gs : list (nat * jsstring)) :
  forall (s : jsstring) (prev : option code_unit) (txt : jsstring),
    is_some
      (repeat_class true dot
         (fun st' => matches false (Seq (Cls cls) Eps) st'
                       (fun st'' => Some st''))
         0 None gs prev txt s)
    = lookahead cls s.
Proof.
  induction s as [|c s IH]; intros prev txt; [reflexivity|].
  cbn [repeat_class lookahead has_room matches input].
  rewrite andb_true_r. destruct (dot c); cbn [andb].
  - cbn [pred option_map]. rewrite <- IH with (prev := Some c) (txt := txt ++ [c]).
    cbn [matches].
    destruct (repeat_class _ _ _ _ _ _ _ _ _); cbn [is_some];
      [symmetry; apply orb_true_r|].
    rewrite orb_false_r. destruct (cls c); reflexivity.
  - rewrite orb_false_r. destruct (cls c); reflexivity.
Qed.

Lemma matches_ahead (cls : code_unit -> bool) st k :
  matches false (Ahead (sequence [star dot; Cls cls])) st k =
  if lookahead cls (input st) then k st else None.
Proof.
  cbn [matches sequence]. unfold star. cbn [matches].
  rewrite <- (lookahead_spec cls (groups st) (input st) (before st) (text st)).
  cbn [matches].
  destruct (repeat_class _ _ _ _ _ _ _ _ _); reflexivity.
Qed.

Lemma counted_spec (cls : code_unit -> bool) (gs : list (nat * jsstring)) :
  forall (s : jsstring) (min max : nat) (prev : option code_unit)
         (txt : jsstring),
    is_some
      (repeat_class true cls
         (fun st' => matches false (Seq Eol Eps) st' (fun st'' => Some st''))
         min (Some max) gs prev txt s)
    = counted cls min max s.
Proof.
  unfold counted.
  induction s as [|c s IH]; intros min max prev txt.
  - cbn [repeat_class matches input forallb List.length].
    destruct min; reflexivity.
  - cbn [repeat_class forallb List.length has_room].
    destruct (cls c); cbn [andb]; [|destruct min; reflexivity].
    destruct max as [|max]; cbn [Nat.eqb negb Nat.leb].
    + rewrite andb_false_r. destruct min; reflexivity.
    + cbn [option_map pred].
      specialize (IH (pred min) max (Some c) (txt ++ [c])).
      assert (E : Nat.leb min (S (List.length s))
                  = Nat.leb (pred min) (List.length s))
        by (destruct min; reflexivity).
      rewrite E, <- IH.
      destruct (repeat_class _ _ _ _ _ _ _ _ _) as [r|]; [reflexivity|].
      destruct min; reflexivity.
Qed.

Lemma matches_seq (icase : bool) (a b : re) st k :
  matches icase (Seq a b) st k =
  matches icase a st (fun st' => matches icase b st' k).
Proof. reflexivity. Qed.

Lemma matches_bol (icase : bool) st k :
  matches icase Bol st k =
  match before st with None => k st | Some _ => None end.
Proof. reflexivity. Qed.

Lemma exec_passwordRegex_start (s : jsstring) :
  is_some (exec false passwordRegex None s) = password_test s.
Proof.
  unfold exec, password_test.
  change passwordRegex with
    (Seq Bol
       (Seq (Ahead (sequence [star dot; Cls is_lower]))
          (Seq (Ahead (sequence [star dot; Cls is_upper]))
             (Seq (Ahead (sequence [star dot; Cls is_digit]))
                (Seq (Ahead (sequence [star dot; Cls is_special]))
                   (Seq (Rep true 8 (Some 128) is_password_char)
                      (Seq Eol Eps))))))).
  rewrite matches_seq, matches_bol. cbn [before].
  rewrite matches_seq, matches_ahead. cbn [input].
  destruct (lookahead is_lower s); [|reflexivity].
  rewrite matches_seq, matches_ahead. cbn [input].
  destruct (lookahead is_upper s); [|reflexivity].
  rewrite matches_seq, matches_ahead. cbn [input].
  destruct (lookahead is_digit s); [|reflexivity].
  rewrite matches_seq, matches_ahead. cbn [input].
  destruct (lookahead is_special s); [|reflexivity].
  cbn [andb].
  rewrite <- (counted_spec is_password_char [] s 8 128 None []).
  cbn [matches groups before text input].
  destruct (repeat_class _ _ _ _ _ _ _ _ _); reflexivity.
Qed.

Lemma exec_passwordRegex_later (c : code_unit) (s : jsstring) :
  exec false passwordRegex (Some c) s = None.
Proof. reflexivity. Qed.

Lemma test_passwordRegex (s : jsstring) :
  test (exec false passwordRegex) s = password_test s.
Proof.
  rewrite <- exec_passwordRegex_start. unfold test.
  assert (Hlater : forall t c,
             test_from (exec false passwordRegex) (Some c) t = false).
  { induction t as [|d t IH]; intros c; cbn [test_from];
      rewrite exec_passwordRegex_later; [reflexivity | apply IH]. }
  destruct s as [|c s]; cbn [test_from];
    destruct (exec false passwordRegex None _); cbn [is_some];
    try reflexivity.
  apply Hlater.
Qed.

End Matcher.

(** ** Global replacement *)

Section Replace.

Variable fn : rmatch -> jsstring.

(** Only what the pattern matches at each position matters. *)
Lemma replace_from_ext (re1 re2 : regex) :
  (forall prev s, re1 prev s = re2 prev s) ->
  forall s prev inside,
    replace_from re1 fn prev inside s = replace_from re2 fn prev inside s.
Proof.
  intros Hre. induction s as [|c s IH]; intros prev inside; simpl.
  - rewrite Hre. reflexivity.
  - destruct inside; [|apply IH]. rewrite Hre.
    destruct (re2 prev (c :: s)) as [m|]; [|rewrite IH; reflexivity].
    destruct (List.length (matched m)); rewrite IH; reflexivity.
Qed.

(** Replacing a one-character class rewrites the string unit by unit. *)
Lemma replace_from_class (grouped : bool) (cls : code_unit -> bool)
    (s : jsstring) :
  forall prev,
    replace_from (re_class grouped cls) fn prev 0 s =
    flat_map (fun c =>
      if cls c
      then fn {| matched := [c]; group1 := if grouped then [c] else [] |}
      else [c]) s.
Proof.
  induction s as [|c s IH]; intros prev; simpl; [reflexivity|].
  destruct (cls c); simpl; rewrite IH; reflexivity.
Qed.

(** Where the pattern matches nowhere the string is left as it is. *)
Lemma replace_from_no_match (re : regex) (ok : code_unit -> bool)
    (s : jsstring) :
  (forall prev, re prev [] = None) ->
  (forall prev c t, ok c = true -> re prev (c :: t) = None) ->
  forallb ok s = true ->
  forall prev, replace_from re fn prev 0 s = s.
Proof.
  intros Hnil Hcons. induction s as [|c s IH]; simpl; intros Hall prev.
  - rewrite Hnil. reflexivity.
  - apply andb_true_iff in Hall. destruct Hall as [Hc Hs].
    rewrite (Hcons prev c s Hc), IH by exact Hs. reflexivity.
Qed.

End Replace.

(** ** isSqlInjection *)

Section SqlSanitizer.

(** *** The escaping of one match *)

Lemma escape_punct_flat_map (m : jsstring) :
  escape_punct m =
  flat_map (fun c => if is_sql_punct c then [cu "\"; c] else [c]) m.
Proof.
  unfold escape_punct, replace.
  rewrite (replace_from_ext _ _ _ (exec_group_class false is_sql_punct)).
  apply replace_from_class.
Qed.

Lemma escape_punct_plain (m : jsstring) :
  plain m = true -> escape_punct m = m.
Proof.
  rewrite escape_punct_flat_map. unfold plain.
  induction m as [|c m IH]; cbn [forallb flat_map]; [reflexivity|].
  rewrite andb_true_iff, negb_true_iff. intros [-> Hm].
  rewrite IH by exact Hm. reflexivity.
Qed.

(** *** Resuming behind a match *)

Lemma replace_from_inside (re : regex) (fn : rmatch -> jsstring)
    (a b : jsstring) :
  forall prev,
    replace_from re fn prev (List.length a) (a ++ b) =
    replace_from re fn (prev_after prev a) 0 b.
Proof.
  induction a as [|x a IH]; intros prev; simpl; [reflexivity | apply IH].
Qed.

(** *** What the matchers consume *)

Lemma match_ci_spec (p : jsstring) :
  forall s m rest,
    match_ci p s = Some (m, rest) ->
    s = m ++ rest
    /\ Forall2 (fun x y => canonicalize x = canonicalize y) p m.
Proof.
  induction p as [|x p IH]; intros s m rest; simpl.
  - intros H; inversion H; subst. split; [reflexivity | constructor].
  - destruct s as [|y s]; [discriminate|].
    destruct (N.eqb_spec (canonicalize x) (canonicalize y)) as [E|];
      [|discriminate].
    destruct (match_ci p s) as [[m' rest']|] eqn:Em; [|discriminate].
    intros H; inversion H; subst.
    destruct (IH _ _ _ Em) as [-> Hm].
    split; [reflexivity | constructor; assumption].
Qed.

Lemma span_spec (cls : code_unit -> bool) (s : jsstring) :
  forall run rest,
    span cls s = (run, rest) -> s = run ++ rest /\ forallb cls run = true.
Proof.
  induction s as [|c s IH]; intros run rest; simpl.
  - intros H; inversion H; auto.
  - destruct (cls c) eqn:Ec.
    + destruct (span cls s) as [run' rest'].
      intros H; inversion H; subst.
      destruct (IH _ _ eq_refl) as [-> Hr].
      simpl. rewrite Ec, Hr. auto.
    + intros H; inversion H; auto.
Qed.

Lemma letter_folds_to_letter (x y : code_unit) :
  is_letter x = true -> canonicalize x = canonicalize y ->
  is_letter y = true.
Proof.
  unfold canonicalize, is_letter.
  destruct (is_lower x) eqn:Ex, (is_lower y) eqn:Ey; simpl; try reflexivity;
    intros Hx Heq; char_prop; lia.
Qed.

Lemma letter_plain (c : code_unit) :
  is_letter c = true -> is_sql_punct c = false.
Proof.
  intros H. destruct (is_sql_punct c) eqn:E; [|reflexivity].
  exfalso. unfold is_letter in H. char_prop. lia.
Qed.

Lemma space_plain (c : code_unit) :
  is_space c = true -> is_sql_punct c = false.
Proof.
  intros H. destruct (is_sql_punct c) eqn:E; [|reflexivity].
  exfalso. char_prop. lia.
Qed.

(** The text a keyword matches consists of letters. *)
Lemma folded_letters_plain (w m : jsstring) :
  forallb is_letter w = true ->
  Forall2 (fun x y => canonicalize x = canonicalize y) w m ->
  plain m = true.
Proof.
  intros Hw Hfold. induction Hfold as [|x y w m Hxy Hrest IH]; [reflexivity|].
  simpl in Hw. apply andb_true_iff in Hw. destruct Hw as [Hx Hw].
  unfold plain. simpl.
  rewrite (letter_plain y (letter_folds_to_letter x y Hx Hxy)).
  apply IH; assumption.
Qed.

Lemma word_text_match (w s m rest : jsstring) :
  is_word_text w = true ->
  match_ci w s = Some (m, rest) ->
  s = m ++ rest /\ m <> [] /\ plain m = true.
Proof.
  intros Hw Hm. destruct (match_ci_spec _ _ _ _ Hm) as [-> Hfold].
  split; [reflexivity|].
  destruct w as [|x w]; [discriminate|].
  split; [inversion Hfold; discriminate|].
  eapply folded_letters_plain; [exact Hw | exact Hfold].
Qed.

Lemma plain_app (a b : jsstring) :
  plain (a ++ b) = plain a && plain b.
Proof. apply forallb_app. Qed.

Lemma word_alternative_match (prev : option code_unit) (a : alternative)
    (s m rest : jsstring) :
  word_alternative a = true ->
  match_alternative prev a s = Some (m, rest) ->
  s = m ++ rest /\ m <> [] /\ plain m = true.
Proof.
  destruct a as [w | w1 w2]; simpl.
  - apply word_text_match.
  - rewrite andb_true_iff. intros [H1 H2].
    destruct (word_boundary prev (hd_error s)); [|discriminate].
    destruct (match_ci w1 s) as [[m1 s1]|] eqn:E1; [|discriminate].
    destruct (span is_space s1) as [gap s2] eqn:Eg.
    destruct gap as [|g gap]; [discriminate|].
    destruct (match_ci w2 s2) as [[m2 rest2]|] eqn:E2; [|discriminate].
    intros H; inversion H; subst.
    destruct (word_text_match _ _ _ _ H1 E1) as (-> & Hne & Hp1).
    destruct (span_spec _ _ _ _ Eg) as [-> Hsp].
    destruct (word_text_match _ _ _ _ H2 E2) as (-> & _ & Hp2).
    split; [rewrite <- app_assoc; simpl; rewrite <- app_assoc; reflexivity|].
    split; [destruct m1; [congruence | discriminate]|].
    change (m1 ++ g :: gap ++ m2) with (m1 ++ (g :: gap) ++ m2).
    rewrite !plain_app, Hp1, Hp2, andb_true_r. simpl.
    assert (Hgap : plain (g :: gap) = true).
    { unfold plain. apply forallb_forall. intros c Hc.
      rewrite forallb_forall in Hsp. rewrite (space_plain c (Hsp c Hc)).
      reflexivity. }
    exact Hgap.
Qed.

(** A token of punctuation does not start at a code unit that is none. *)
Lemma punct_alternative_no_match (prev : option code_unit) (a : alternative)
    (c : code_unit) (s : jsstring) :
  punct_alternative a = true -> is_sql_punct c = false ->
  match_alternative prev a (c :: s) = None.
Proof.
  destruct a as [[|p w] | w1 w2]; simpl; try discriminate.
  intros Hp Hc.
  destruct (N.eqb_spec (canonicalize p) (canonicalize c)) as [E|];
    [|reflexivity].
  exfalso. unfold canonicalize in E.
  destruct (is_lower p) eqn:Ep, (is_lower c) eqn:Ec; char_prop; lia.
Qed.

Lemma first_alternative_plain (prev : option code_unit)
    (alts : list alternative) (c : code_unit) (s m rest : jsstring) :
  forallb (fun a => word_alternative a || punct_alternative a) alts = true ->
  is_sql_punct c = false ->
  first_alternative prev alts (c :: s) = Some (m, rest) ->
  c :: s = m ++ rest /\ m <> [] /\ plain m = true.
Proof.
  intros Halts Hc. induction alts as [|a alts IH]; simpl; [discriminate|].
  simpl in Halts. apply andb_true_iff in Halts. destruct Halts as [Ha Halts].
  destruct (match_alternative prev a (c :: s)) as [[m' rest']|] eqn:Em;
    [|apply IH; exact Halts].
  apply orb_true_iff in Ha. destruct Ha as [Ha | Ha].
  - destruct (word_boundary _ _); [|apply IH; exact Halts].
    intros H; inversion H; subst.
    eapply word_alternative_match; eassumption.
  - rewrite (punct_alternative_no_match prev a c s Ha Hc) in Em.
    discriminate.
Qed.

(** *** The pattern at one position *)

Lemma word_boundary_punct_r (prev : option code_unit) (c : code_unit) :
  is_sql_punct c = true -> word_boundary prev (Some c) = word_at prev.
Proof.
  intros H. unfold word_boundary. simpl.
  assert (Hw : is_word c = false).
  { destruct (is_word c) eqn:E; [|reflexivity]. exfalso. char_prop. lia. }
  rewrite Hw. apply xorb_false_r.
Qed.

Lemma word_boundary_punct_l (c : code_unit) (next : option code_unit) :
  is_sql_punct c = true -> word_boundary (Some c) next = word_at next.
Proof.
  intros H. unfold word_boundary. simpl.
  assert (Hw : is_word c = false).
  { destruct (is_word c) eqn:E; [|reflexivity]. exfalso. char_prop. lia. }
  rewrite Hw. apply xorb_false_l.
Qed.

Lemma sql_match_nil (prev : option code_unit) :
  sql_match prev [] = None.
Proof.
  unfold sql_match. simpl.
  destruct (word_boundary prev None); reflexivity.
Qed.

(** Where the position holds no punctuation a match is free of it. *)
Lemma sql_match_plain (prev : option code_unit) (c : code_unit)
    (s : jsstring) (r : rmatch) :
  is_sql_punct c = false ->
  sql_match prev (c :: s) = Some r ->
  exists m rest,
    matched r = c :: m /\ s = m ++ rest /\ plain (c :: m) = true.
Proof.
  intros Hc. unfold sql_match.
  destruct (word_boundary prev (hd_error (c :: s))); [|discriminate].
  destruct (first_alternative prev sql_alternatives (c :: s))
    as [[m rest]|] eqn:E; [|discriminate].
  intros H; inversion H; subst; simpl.
  destruct (first_alternative_plain prev sql_alternatives c s m rest
              eq_refl Hc E) as (Heq & Hne & Hp).
  destruct m as [|x m]; [congruence|].
  simpl in Heq. inversion Heq; subst.
  exists m, rest. auto.
Qed.

Lemma first_alternative_app (prev : option code_unit)
    (l1 l2 : list alternative) (s : jsstring) :
  first_alternative prev (l1 ++ l2) s =
  match first_alternative prev l1 s with
  | Some r => Some r
  | None => first_alternative prev l2 s
  end.
Proof.
  induction l1 as [|a l1 IH]; simpl; [reflexivity|].
  destruct (match_alternative prev a s) as [[m rest]|]; [|exact IH].
  destruct (word_boundary _ _); [reflexivity | exact IH].
Qed.

(** A keyword does not start at punctuation. *)
Lemma word_alternative_no_match (prev : option code_unit) (a : alternative)
    (c : code_unit) (s : jsstring) :
  word_alternative a = true -> is_sql_punct c = true ->
  match_alternative prev a (c :: s) = None.
Proof.
  intros Ha Hc.
  assert (Hw : forall w, is_word_text w = true -> match_ci w (c :: s) = None).
  { intros [|x w]; [discriminate|]. simpl. rewrite andb_true_iff.
    intros [Hx _].
    destruct (N.eqb_spec (canonicalize x) (canonicalize c)) as [E|];
      [|reflexivity].
    exfalso. unfold canonicalize, is_letter in *.
    destruct (is_lower x) eqn:Ex, (is_lower c) eqn:Ec; char_prop; lia. }
  destruct a as [w | w1 w2]; simpl in *.
  - apply Hw, Ha.
  - apply andb_true_iff in Ha. destruct Ha as [H1 _].
    rewrite (Hw w1 H1). destruct (word_boundary _ _); reflexivity.
Qed.

Lemma first_alternative_words (prev : option code_unit)
    (alts : list alternative) (c : code_unit) (s : jsstring) :
  forallb word_alternative alts = true -> is_sql_punct c = true ->
  first_alternative prev alts (c :: s) = None.
Proof.
  intros Halts Hc. induction alts as [|a alts IH]; [reflexivity|].
  simpl in Halts. apply andb_true_iff in Halts. destruct Halts as [Ha Halts].
  simpl. rewrite (word_alternative_no_match prev a c s Ha Hc).
  apply IH, Halts.
Qed.

(** Punctuation has no other case. *)
Lemma canonicalize_eqb_punct (p d : code_unit) :
  is_sql_punct p = true ->
  N.eqb (canonicalize p) (canonicalize d) = N.eqb p d.
Proof.
  intros Hp. unfold canonicalize.
  destruct (N.eqb_spec p d) as [<- | Hne].
  - apply N.eqb_refl.
  - apply N.eqb_neq.
    destruct (is_lower p) eqn:Ep, (is_lower d) eqn:Ed; char_prop; lia.
Qed.

(** At punctuation the pattern matches a token between two word
    characters, and nothing else. *)
Lemma sql_match_punct (prev : option code_unit) (c : code_unit)
    (s1 : jsstring) :
  is_sql_punct c = true ->
  sql_match prev (c :: s1) =
  if word_at prev then
    if is_single_token c && word_at (hd_error s1)
    then Some {| matched := [c]; group1 := [c] |}
    else
      match s1 with
      | d :: s2 =>
          if is_double_token c d && word_at (hd_error s2)
          then Some {| matched := [c; d]; group1 := [c; d] |}
          else None
      | [] => None
      end
  else None.
Proof.
  intros Hc. unfold sql_match. cbn [hd_error].
  rewrite (word_boundary_punct_r prev c Hc).
  destruct (word_at prev); [|reflexivity].
  change sql_alternatives
    with (firstn 20 sql_alternatives
          ++ firstn 6 (skipn 20 sql_alternatives)
          ++ skipn 26 sql_alternatives).
  rewrite first_alternative_app,
    (first_alternative_words _ (firstn 20 sql_alternatives) c s1 eq_refl Hc).
  rewrite first_alternative_app.
  rewrite (first_alternative_words _ (skipn 26 sql_alternatives) c s1 eq_refl Hc).
  assert (Hcases : (c = 59 \/ c = 35 \/ c = 47 \/ c = 42 \/ c = 45)%N)
    by (clear - Hc; char_prop; lia).
  unfold is_single_token, is_double_token, is_char.
  destruct Hcases as [-> | [-> | [-> | [-> | ->]]]];
    cbn -[canonicalize is_word N.eqb word_boundary word_at];
    rewrite ?canonicalize_eqb_punct by reflexivity;
    cbn -[canonicalize is_word word_boundary word_at];
    rewrite ?word_boundary_punct_l by reflexivity;
    try (destruct (word_at (hd_error s1)); destruct s1; reflexivity);
    (destruct s1 as [|d s2]; [reflexivity|]);
    rewrite ?canonicalize_eqb_punct by reflexivity;
    eval_cu; rewrite ?(N.eqb_sym d);
    repeat match goal with
      |- context [N.eqb ?k d] => destruct (N.eqb_spec k d); subst
    end;
    try lia;
    cbn -[canonicalize is_word word_boundary word_at];
    rewrite ?word_boundary_punct_l by reflexivity;
    try (destruct (word_at (hd_error s2)); reflexivity);
    try reflexivity.
Qed.

(** *** The whole replacement *)

Lemma single_token_punct (c : code_unit) :
  is_single_token c = true -> is_sql_punct c = true.
Proof. intros H. char_prop. lia. Qed.

Lemma double_token_punct (c d : code_unit) :
  is_double_token c d = true ->
  is_sql_punct c = true /\ is_sql_punct d = true.
Proof. intros H. char_prop. lia. Qed.

Lemma plain_single_token (c : code_unit) :
  is_sql_punct c = false -> is_single_token c = false.
Proof.
  intros H. destruct (is_single_token c) eqn:E; [|reflexivity].
  rewrite (single_token_punct c E) in H. discriminate.
Qed.

Lemma plain_double_token (c d : code_unit) :
  is_sql_punct c = false -> is_double_token c d = false.
Proof.
  intros H. destruct (is_double_token c d) eqn:E; [|reflexivity].
  destruct (double_token_punct c d E) as [Hc _]. congruence.
Qed.

(** Text without punctuation is copied. *)
Lemma escape_flanked_plain (m rest : jsstring) :
  plain m = true ->
  forall prev,
    escape_flanked prev (m ++ rest) =
    m ++ escape_flanked (prev_after prev m) rest.
Proof.
  induction m as [|c m IH]; intros Hm prev; [reflexivity|].
  unfold plain in Hm. simpl in Hm.
  apply andb_true_iff in Hm. destruct Hm as [Hc Hm].
  apply negb_true_iff in Hc.
  cbn [app escape_flanked prev_after].
  rewrite (plain_single_token c Hc), andb_false_r. cbn [andb].
  specialize (IH Hm (Some c)).
  destruct (m ++ rest) as [|d s2].
  - rewrite IH. reflexivity.
  - rewrite (plain_double_token c d Hc), andb_false_r. cbn [andb].
    rewrite IH. reflexivity.
Qed.

Lemma escape_punct_single (c : code_unit) :
  is_sql_punct c = true -> escape_punct [c] = [cu "\"; c].
Proof.
  intros H. rewrite escape_punct_flat_map. simpl. rewrite H. reflexivity.
Qed.

Lemma escape_punct_double (c d : code_unit) :
  is_sql_punct c = true -> is_sql_punct d = true ->
  escape_punct [c; d] = [cu "\"; c; cu "\"; d].
Proof.
  intros Hc Hd. rewrite escape_punct_flat_map. simpl. rewrite Hc, Hd.
  reflexivity.
Qed.

Lemma replace_sql_flanked (n : nat) :
  forall s prev,
    List.length s <= n ->
    replace_from sql_match (fun m => escape_punct (matched m)) prev 0 s
    = escape_flanked prev s.
Proof.
  induction n as [|n IH]; intros s prev Hlen.
  - destruct s; [|simpl in Hlen; lia].
    simpl. rewrite sql_match_nil. reflexivity.
  - destruct s as [|c s1].
    + simpl. rewrite sql_match_nil. reflexivity.
    + simpl in Hlen. cbn [replace_from escape_flanked].
      destruct (is_sql_punct c) eqn:Hc.
      * (* punctuation: a token between word characters, or no match *)
        rewrite (sql_match_punct prev c s1 Hc).
        destruct (word_at prev); cbn [andb];
          [|destruct s1; rewrite IH by (simpl in *; lia); reflexivity].
        destruct (is_single_token c && word_at (hd_error s1)) eqn:Es.
        { apply andb_true_iff in Es. destruct Es as [Es _].
          cbn [matched List.length].
          rewrite (escape_punct_single c Hc), IH by lia. reflexivity. }
        destruct s1 as [|d s2]; [rewrite IH by (simpl; lia); reflexivity|].
        destruct (is_double_token c d && word_at (hd_error s2)) eqn:Ed.
        { apply andb_true_iff in Ed. destruct Ed as [Ed _].
          destruct (double_token_punct c d Ed) as [_ Hd].
          cbn [matched List.length replace_from].
          rewrite (escape_punct_double c d Hc Hd), IH by (simpl in *; lia).
          reflexivity. }
        rewrite IH by (simpl in *; lia). reflexivity.
      * (* no punctuation: a keyword, a phrase, or no match *)
        rewrite (plain_single_token c Hc), andb_false_r. cbn [andb].
        assert (Hspec : escape_flanked prev (c :: s1) =
                        c :: escape_flanked (Some c) s1).
        { cbn [escape_flanked].
          rewrite (plain_single_token c Hc), andb_false_r. cbn [andb].
          destruct s1 as [|d s2]; [reflexivity|].
          rewrite (plain_double_token c d Hc), andb_false_r. reflexivity. }
        cbn [escape_flanked] in Hspec.
        rewrite (plain_single_token c Hc), andb_false_r in Hspec.
        cbn [andb] in Hspec. rewrite Hspec. clear Hspec.
        destruct (sql_match prev (c :: s1)) as [r|] eqn:Er;
          [|rewrite IH by lia; reflexivity].
        destruct (sql_match_plain prev c s1 r Hc Er)
          as (m & rest & Hr & -> & Hp).
        rewrite Hr. cbn [List.length].
        rewrite (escape_punct_plain (c :: m) Hp).
        rewrite replace_from_inside, IH
          by (rewrite length_app in Hlen; lia).
        unfold plain in Hp. simpl in Hp.
        apply andb_true_iff in Hp. destruct Hp as [_ Hp].
        rewrite (escape_flanked_plain m rest Hp). reflexivity.
Qed.

End SqlSanitizer.

(** C4, as the code has it.  The pattern is wrapped in two word boundaries,
    so a token [--], [/*], [*/], [#] or [;] is matched, and each of its code
    units escaped with a backslash, only where it stands directly between
    two word characters; everything else, keyword matches included, is
    copied.  A string without any of the five punctuation characters comes
    back as it is. *)
Theorem isSqlInjection_escapes_flanked_tokens (input : jsstring) :
  isSqlInjection input = escape_flanked None input
  /\ (plain input = true -> isSqlInjection input = input)
  /\ isSqlInjection (lit "hello world") = lit "hello world"
  /\ isSqlInjection (lit "a;b") = lit "a\;b".
Proof.
  assert (H : isSqlInjection input = escape_flanked None input).
  { unfold isSqlInjection, replace.
    rewrite (replace_from_ext _ _ _ exec_sqlInjectionRegex).
    apply (replace_sql_flanked (List.length input)). lia. }
  repeat split; try reflexivity; [exact H|].
  intros Hp. rewrite H.
  rewrite <- (app_nil_r input) at 1.
  rewrite (escape_flanked_plain input [] Hp). simpl. apply app_nil_r.
Qed.

(** An instance: keywords without punctuation. *)
Lemma isSqlInjection_escapes_flanked_tokens_witness :
  isSqlInjection (lit "SELECT name FROM users") = lit "SELECT name FROM users".
Proof.
  apply (proj1 (proj2 (isSqlInjection_escapes_flanked_tokens
                         (lit "SELECT name FROM users")))).
  reflexivity.
Defined.

(** The statement of the test suite: its terminator stands behind a quote
    and stays as it is. *)
Lemma isSqlInjection_keeps_terminator :
  In (cu ";") admin_query
  /\ isSqlInjection admin_query = admin_query
  /\ includes (isSqlInjection admin_query) (lit "\;") = false.
Proof.
  repeat split; try reflexivity.
  apply in_or_app with (l := lit "SELECT * FROM users WHERE name = 'admin'")
                       (m := [cu ";"]).
  right. left. reflexivity.
Qed.

(** ** isJsScript *)

Section HtmlSanitizer.

Lemma entity_plain (c : code_unit) :
  is_html_special c = false -> entity c = [c].
Proof.
  unfold is_html_special, entity. intros H.
  repeat (apply orb_false_iff in H; destruct H as [H ?]).
  repeat match goal with E : _ = false |- _ => rewrite E; clear E end.
  reflexivity.
Qed.

Lemma escapeHtml_flat_map (str : jsstring) :
  escapeHtml str = flat_map entity str.
Proof.
  unfold escapeHtml, replace.
  rewrite (replace_from_ext _ _ _ (exec_class false is_html_special)).
  rewrite replace_from_class.
  apply flat_map_ext. intros c. simpl.
  destruct (is_html_special c) eqn:E; [reflexivity|].
  rewrite (entity_plain c E). reflexivity.
Qed.

Lemma entity_no_markup (c : code_unit) :
  forallb (fun x => negb (is_markup x)) (entity c) = true.
Proof.
  unfold entity.
  destruct (is_char "&" c) eqn:E1; [reflexivity|].
  destruct (is_char "<" c) eqn:E2; [reflexivity|].
  destruct (is_char ">" c) eqn:E3; [reflexivity|].
  destruct (N.eqb c dquote) eqn:E4; [reflexivity|].
  destruct (is_char "'" c) eqn:E5; [reflexivity|].
  simpl. unfold is_markup. rewrite E2, E3, E4, E5. reflexivity.
Qed.

Lemma escapeHtml_no_markup (str : jsstring) :
  forallb (fun x => negb (is_markup x)) (escapeHtml str) = true.
Proof.
  rewrite escapeHtml_flat_map.
  induction str as [|c str IH]; simpl; [reflexivity|].
  rewrite forallb_app, entity_no_markup, IH. reflexivity.
Qed.

(** Without an opening angle bracket there is no tag to take out. *)
Lemma stripped_no_tag (input : jsstring) :
  forallb (fun x => negb (is_markup x)) input = true ->
  stripped input = input.
Proof.
  intros H. unfold stripped, replace.
  rewrite (replace_from_ext _ _ _ exec_scriptRegex).
  apply (replace_from_no_match _ script_match (fun x => negb (is_markup x)));
    [reflexivity | | exact H].
  intros prev c t Hc. unfold script_match, open_tag.
  unfold is_markup in Hc. apply negb_true_iff in Hc.
  repeat (apply orb_false_iff in Hc; destruct Hc as [Hc ?]).
  rewrite Hc. reflexivity.
Qed.

(** An entity is longer than the character it stands for. *)
Lemma entity_length (c : code_unit) :
  1 <= List.length (entity c)
  /\ (List.length (entity c) = 1 -> is_html_special c = false).
Proof.
  unfold entity, is_html_special.
  destruct (is_char "&" c); [simpl; split; [lia | discriminate]|].
  destruct (is_char "<" c); [simpl; split; [lia | discriminate]|].
  destruct (is_char ">" c); [simpl; split; [lia | discriminate]|].
  destruct (N.eqb c dquote); [simpl; split; [lia | discriminate]|].
  destruct (is_char "'" c); [simpl; split; [lia | discriminate]|].
  simpl. split; [lia | reflexivity].
Qed.

Lemma flat_map_entity_length (str : jsstring) :
  List.length str <= List.length (flat_map entity str)
  /\ (List.length (flat_map entity str) = List.length str ->
      forallb (fun c => negb (is_html_special c)) str = true).
Proof.
  induction str as [|c str [IHle IHeq]]; simpl; [split; [lia | reflexivity]|].
  rewrite length_app. destruct (entity_length c) as [H1 Hc].
  split; [lia|]. intros H.
  rewrite Hc by lia. rewrite IHeq by lia. reflexivity.
Qed.

Lemma flat_map_entity_fixed (str : jsstring) :
  flat_map entity str = str <->
  forallb (fun c => negb (is_html_special c)) str = true.
Proof.
  split.
  - intros H. apply flat_map_entity_length. rewrite H. reflexivity.
  - induction str as [|c str IH]; simpl; [reflexivity|].
    rewrite andb_true_iff, negb_true_iff. intros [Hc Hs].
    rewrite (entity_plain c Hc), IH by exact Hs. reflexivity.
Qed.

(** Once the markup characters are gone, only the ampersand is special. *)
Lemma no_markup_special (str : jsstring) :
  forallb (fun x => negb (is_markup x)) str = true ->
  (forallb (fun c => negb (is_html_special c)) str = true <->
   ~ In (cu "&") str).
Proof.
  induction str as [|c str IH]; simpl; [tauto|].
  rewrite !andb_true_iff, !negb_true_iff. intros [Hc Hs].
  specialize (IH Hs). rewrite IH.
  unfold is_markup in Hc. unfold is_html_special.
  repeat (apply orb_false_iff in Hc; destruct Hc as [Hc ?]).
  repeat match goal with E : _ = false |- _ => rewrite E; clear E end.
  rewrite !orb_false_r. unfold is_char. rewrite N.eqb_neq.
  change (cu "&") with 38%N in *. tauto.
Qed.

End HtmlSanitizer.

(** C10.  The result of [isJsScript] is the text left by the first phase
    with every ampersand, angle bracket and quote replaced by its entity; no
    entity holds an angle bracket or a quote, and so neither does the
    result. *)
Theorem isJsScript_no_markup (input : jsstring) :
  isJsScript input = flat_map entity (stripped input)
  /\ entity (cu "<") = lit "&lt;" /\ entity (cu ">") = lit "&gt;"
  /\ entity dquote = lit "&quot;" /\ entity (cu "'") = lit "&#39;"
  /\ (forall c, forallb (fun x => negb (is_markup x)) (entity c) = true)
  /\ Forall (fun c => c <> cu "<" /\ c <> cu ">" /\ c <> dquote /\ c <> cu "'")
       (isJsScript input).
Proof.
  repeat split; try reflexivity.
  - unfold isJsScript. apply escapeHtml_flat_map.
  - apply entity_no_markup.
  - apply Forall_forall. intros c Hin.
    pose proof (escapeHtml_no_markup (stripped input)) as H.
    rewrite forallb_forall in H. specialize (H c Hin).
    apply negb_true_iff in H. unfold is_markup, is_char in H.
    repeat (apply orb_false_iff in H; destruct H as [H ?]).
    rewrite !N.eqb_neq in *. auto.
Qed.

(** C3, as the code has it.  A second pass finds no tag and escapes the
    ampersands of the first result again; the result stays the same exactly
    when it holds no ampersand. *)
Theorem isJsScript_idempotent_iff (input : jsstring) :
  isJsScript (isJsScript input) = flat_map entity (isJsScript input)
  /\ (isJsScript (isJsScript input) = isJsScript input <->
      ~ In (cu "&") (isJsScript input)).
Proof.
  assert (Hclean : forallb (fun x => negb (is_markup x)) (isJsScript input) = true)
    by apply escapeHtml_no_markup.
  assert (Hsecond : isJsScript (isJsScript input)
                    = flat_map entity (isJsScript input)).
  { unfold isJsScript at 1. fold (stripped (isJsScript input)).
    rewrite (stripped_no_tag _ Hclean). apply escapeHtml_flat_map. }
  split; [exact Hsecond|].
  rewrite Hsecond, flat_map_entity_fixed. apply no_markup_special, Hclean.
Qed.

(** An instance: a text without markup. *)
Lemma isJsScript_idempotent_iff_witness :
  isJsScript (isJsScript (lit "Click me")) = isJsScript (lit "Click me").
Proof.
  apply (proj2 (proj2 (isJsScript_idempotent_iff (lit "Click me")))).
  vm_compute. intuition discriminate.
Defined.

(** One ampersand is escaped twice by two passes. *)
Lemma isJsScript_not_idempotent :
  isJsScript (isJsScript (lit "&")) <> isJsScript (lit "&").
Proof. vm_compute. discriminate. Qed.

(** ** validatePassword *)

Section Password.

(** Among the permitted characters [.] matches everything, so each
    lookahead asks for one character of its class anywhere. *)
Lemma lookahead_has (cls : code_unit -> bool) (s : jsstring) :
  forallb is_password_char s = true -> lookahead cls s = has cls s.
Proof.
  induction s as [|c s IH]; simpl; [reflexivity|].
  rewrite andb_true_iff. intros [Hc Hs].
  rewrite (password_char_dot c Hc), IH by exact Hs. reflexivity.
Qed.

Lemma password_test_iff (s : jsstring) :
  password_test s = true <->
  8 <= List.length s <= 128
  /\ forallb is_password_char s = true
  /\ has is_lower s = true /\ has is_upper s = true
  /\ has is_digit s = true /\ has is_special s = true.
Proof.
  unfold password_test, counted.
  rewrite !andb_true_iff, !Nat.leb_le. split.
  - intros [[[[Hl Hu] Hd] Hs] [[Hall H8] H128]].
    rewrite !lookahead_has in * by exact Hall. tauto.
  - intros (H8 & Hall & Hl & Hu & Hd & Hs).
    rewrite !lookahead_has by exact Hall. tauto.
Qed.

Lemma validatePassword_cases (password : jsstring)
    (possiblePasswordMinLength possiblePasswordLength : Z) :
  validatePassword password possiblePasswordMinLength possiblePasswordLength =
  if (Z.of_nat (List.length password) <? possiblePasswordMinLength)%Z
  then Throw (too_short possiblePasswordMinLength)
  else if (possiblePasswordLength <? Z.of_nat (List.length password))%Z
  then Throw (too_long possiblePasswordLength)
  else if password_test password then Return tt
  else Throw weak_password.
Proof.
  unfold validatePassword. rewrite Z.gtb_ltb, test_passwordRegex.
  destruct (password_test password); reflexivity.
Qed.

End Password.

(** C6, as the code has it by design.  A password that is shorter than the
    minimum or longer than the maximum, that holds a character other than a
    letter, a digit or one of the seven symbols, or that lacks a lowercase
    letter, an uppercase letter, a digit or a symbol, is rejected.  With a
    minimum of 8 or more and a maximum of 128 or less, as the defaults are,
    no other password is: it passes exactly when none of this is the case.
    What is raised is one of the three failures. *)
Theorem validatePassword_accepts_iff (password : jsstring) (minLen maxLen : Z) :
  ((Z.of_nat (List.length password) < minLen)%Z
   \/ (maxLen < Z.of_nat (List.length password))%Z
   \/ forallb is_password_char password = false
   \/ has is_lower password = false \/ has is_upper password = false
   \/ has is_digit password = false \/ has is_special password = false ->
   validatePassword password minLen maxLen <> Return tt)
  /\ ((8 <= minLen)%Z -> (maxLen <= 128)%Z ->
      (validatePassword password minLen maxLen = Return tt <->
       (minLen <= Z.of_nat (List.length password) <= maxLen)%Z
       /\ forallb is_password_char password = true
       /\ has is_lower password = true /\ has is_upper password = true
       /\ has is_digit password = true /\ has is_special password = true))
  /\ (validatePassword password minLen maxLen = Return tt
      \/ validatePassword password minLen maxLen = Throw (too_short minLen)
      \/ validatePassword password minLen maxLen = Throw (too_long maxLen)
      \/ validatePassword password minLen maxLen = Throw weak_password)
  /\ validatePassword (lit "Password1!") 8 128 = Return tt
  /\ validatePassword (lit "Password123") 8 128 = Throw weak_password.
Proof.
  split; [|split; [|split; [|split; reflexivity]]].
  - intros Hbad Hok. rewrite validatePassword_cases in Hok.
    destruct (Z.ltb_spec (Z.of_nat (List.length password)) minLen);
      [discriminate Hok|].
    destruct (Z.ltb_spec maxLen (Z.of_nat (List.length password)));
      [discriminate Hok|].
    destruct (password_test password) eqn:E; [|discriminate Hok].
    apply password_test_iff in E.
    destruct E as (_ & Hall & Hl & Hu & Hd & Hs).
    destruct Hbad as [H' | [H' | [H' | [H' | [H' | [H' | H']]]]]];
      try lia; congruence.
  - intros Hmin Hmax. rewrite validatePassword_cases.
    destruct (Z.ltb_spec (Z.of_nat (List.length password)) minLen);
      [split; [discriminate | lia]|].
    destruct (Z.ltb_spec maxLen (Z.of_nat (List.length password)));
      [split; [discriminate | lia]|].
    destruct (password_test password) eqn:E.
    + apply password_test_iff in E. split; [intros _ | reflexivity].
      split; [lia | apply E].
    + split; [discriminate|]. intros (_ & Hall).
      assert (Htest : password_test password = true)
        by (apply password_test_iff; split; [lia | exact Hall]).
      rewrite Htest in E. discriminate E.
  - rewrite validatePassword_cases.
    destruct (_ <? _)%Z; [tauto|]. destruct (_ <? _)%Z; [tauto|].
    destruct (password_test password); tauto.
Qed.

(** An instance: the password of the README, with the default bounds. *)
Lemma validatePassword_accepts_iff_witness :
  validatePassword (lit "StrongP@ssw0rd!") 8 128 = Return tt.
Proof.
  apply (proj2 (proj1 (proj2 (validatePassword_accepts_iff
                                (lit "StrongP@ssw0rd!") 8 128))
                 ltac:(lia) ltac:(lia))).
  repeat split; try reflexivity; simpl; lia.
Defined.

(** A password within the bounds with a character of each of the four
    classes, and a space: it is rejected. *)
Lemma validatePassword_rejects_other_characters :
  (8 <= Z.of_nat (List.length spaced_password) <= 128)%Z
  /\ has is_lower spaced_password = true
  /\ has is_upper spaced_password = true
  /\ has is_digit spaced_password = true
  /\ has is_special spaced_password = true
  /\ validatePassword spaced_password 8 128 = Throw weak_password.
Proof. repeat split; try reflexivity; simpl; lia. Qed.

(** ** validateNonEmptyFields *)

Section NonEmptyFields.

Variable depth : Z.

Lemma forEach_first_failure {A} (callback : A -> completion unit)
    (failures : A -> list exn) (l : list A) :
  Forall (fun x => callback x = first_failure (failures x)) l ->
  forEach callback l = first_failure (flat_map failures l).
Proof.
  induction 1 as [|x l Hx Hl IH]; simpl; [reflexivity|].
  rewrite Hx. destruct (failures x); simpl; [exact IH | reflexivity].
Qed.

(** The validator throws the first failure of the traversal, if any. *)
Lemma validateNonEmptyFields_blanks (data : value) :
  forall currentDepth,
    validateNonEmptyFields data depth currentDepth =
    first_failure (blanks data depth currentDepth).
Proof.
  induction data as
    [ | | b | n | z | s | d | f | items IH | entries IH] using value_ind;
    intros cur; simpl; destruct (cur >=? depth)%Z; try reflexivity.
  - destruct s; reflexivity.
  - apply forEach_first_failure.
    revert IH. apply Forall_impl. intros item H. apply H.
  - apply forEach_first_failure.
    revert IH. apply Forall_impl. intros [key v] H. simpl.
    destruct (is_blank v); [reflexivity|].
    unfold nested. destruct (_ || _); [apply H | reflexivity].
Qed.

Lemma flat_map_nil {A B} (f : A -> list B) (l : list A) :
  flat_map f l = [] <-> forall x, In x l -> f x = [].
Proof.
  induction l as [|x l IH]; simpl.
  - split; [intros _ y [] | reflexivity].
  - split.
    + intros H. apply app_eq_nil in H. destruct H as [Hx Hl].
      intros y [<- | Hy]; [exact Hx | apply IH; assumption].
    + intros H. rewrite (H x (or_introl eq_refl)). simpl.
      apply IH. intros y Hy. apply H. right; exact Hy.
Qed.

(** Up to [2^53] in magnitude the integers are doubles, and counting is
    exact. *)
Lemma to_double_exact (z : Z) :
  (Z.abs z <= 2 ^ 53)%Z -> to_double z = z.
Proof.
  intros H. unfold to_double.
  destruct (Z.leb_spec (Z.abs z) (2 ^ 53)) as [_ | Hgt]; [reflexivity | lia].
Qed.

Hypothesis depth_exact : (depth <= 2 ^ 53)%Z.

Lemma next_depth_exact (currentDepth : Z) :
  (- 2 ^ 53 <= currentDepth)%Z -> (currentDepth < depth)%Z ->
  to_double (currentDepth + 1) = (currentDepth + 1)%Z.
Proof.
  intros Hlow Hlt. apply to_double_exact.
  change (2 ^ 53)%Z with 9007199254740992%Z in *. lia.
Qed.

(** A blank value within the bound shows up in the traversal. *)
Lemma blank_at_blanks (data : value) (k : nat) :
  blank_at data k ->
  forall currentDepth,
    (- 2 ^ 53 <= currentDepth)%Z ->
    (currentDepth + Z.of_nat k < depth)%Z ->
    blanks data depth currentDepth <> [].
Proof.
  induction 1 as [v Hv | entries key v Hin Hv
                  | entries key v k Hin Hnb Hn Hb IH | items v k Hin Hb IH];
    intros cur Hlow Hlt.
  - destruct v as [ | | | | | [|] | | | | ]; try discriminate; simpl;
      destruct (Z.geb_spec cur depth); try lia; discriminate.
  - simpl. destruct (Z.geb_spec cur depth) as [Hge|Hlt']; [lia|].
    intros H. rewrite flat_map_nil in H. specialize (H _ Hin). simpl in H.
    rewrite Hv in H. discriminate.
  - simpl. destruct (Z.geb_spec cur depth) as [Hge|Hlt']; [lia|].
    rewrite (next_depth_exact cur Hlow Hlt').
    intros H. rewrite flat_map_nil in H. specialize (H _ Hin). simpl in H.
    rewrite Hnb, Hn in H.
    revert H. apply IH; lia.
  - simpl. destruct (Z.geb_spec cur depth) as [Hge|Hlt']; [lia|].
    rewrite (next_depth_exact cur Hlow Hlt').
    intros H. rewrite flat_map_nil in H. specialize (H _ Hin).
    revert H. apply IH; lia.
Qed.

(** What the traversal reports is a blank value within the bound. *)
Lemma blanks_blank_at (data : value) :
  forall currentDepth,
    (- 2 ^ 53 <= currentDepth)%Z ->
    blanks data depth currentDepth <> [] ->
    exists k, blank_at data k /\ (currentDepth + Z.of_nat k < depth)%Z.
Proof.
  induction data as
    [ | | b | n | z | s | d | f | items IH | entries IH] using value_ind;
    intros cur Hlow; simpl; destruct (Z.geb_spec cur depth) as [Hge|Hlt'];
    try congruence; intros Hne.
  - exists 0. split; [apply blank_here; reflexivity | lia].
  - exists 0. split; [apply blank_here; reflexivity | lia].
  - destruct s; [|congruence].
    exists 0. split; [apply blank_here; reflexivity | lia].
  - rewrite (next_depth_exact cur Hlow Hlt') in Hne.
    destruct (flat_map _ items) as [|e0 tl] eqn:E; [congruence|]. clear Hne.
    assert (Hex : exists item, In item items
                               /\ blanks item depth (cur + 1) <> []).
    { clear IH. induction items as [|x l IHl]; [discriminate|].
      simpl in E. destruct (blanks x depth (cur + 1)) eqn:Ex.
      - destruct (IHl E) as (y & Hy & Hne). exists y; simpl; auto.
      - exists x. simpl. split; [auto | congruence]. }
    destruct Hex as (item & Hin & Hne).
    rewrite Forall_forall in IH.
    destruct (IH item Hin (cur + 1)%Z ltac:(lia) Hne) as (k & Hk & Hlt).
    exists (S k). split; [eapply blank_in_item; eauto | lia].
  - rewrite (next_depth_exact cur Hlow Hlt') in Hne.
    destruct (flat_map _ entries) as [|e0 tl] eqn:E; [congruence|]. clear Hne.
    assert (Hex : exists key v, In (key, v) entries
               /\ (is_blank v = true
                   \/ is_blank v = false /\ nested v = true
                      /\ blanks v depth (cur + 1) <> [])).
    { clear IH. induction entries as [|[key v] l IHl]; [discriminate|].
      simpl in E. destruct (is_blank v) eqn:Eb.
      - exists key, v. simpl; auto.
      - destruct (nested v) eqn:En.
        + destruct (blanks v depth (cur + 1)) eqn:Ev.
          * destruct (IHl E) as (key' & v' & Hin & Hcase).
            exists key', v'. simpl; auto.
          * exists key, v. simpl. split; [auto|]. right.
            split; [assumption|]. split; [assumption | congruence].
        + destruct (IHl E) as (key' & v' & Hin & Hcase).
          exists key', v'. simpl; auto. }
    destruct Hex as (key & v & Hin & [Hb | (Hnb & Hn & Hne)]).
    + exists 0. split; [eapply blank_field; eauto | lia].
    + rewrite Forall_forall in IH.
      destruct (IH (key, v) Hin (cur + 1)%Z ltac:(lia) Hne) as (k & Hk & Hlt).
      exists (S k). split; [eapply blank_in_field; eauto | lia].
Qed.

End NonEmptyFields.

(** C8.  At a recursion depth of [depth] or more nothing is inspected.
    Where the depths are integers that doubles count exactly, up to [2^53]
    in magnitude, the call returns normally when every blank value lies at
    recursion depth [depth] or deeper; a blank value above the bound makes
    it throw, and what it throws is the failure for the first blank value of
    the depth-first traversal.  The blank values are [null], [undefined] and
    the empty string: such a field of an object raises the failure that
    names the field and the depth of the object, such an element of an array
    the failure for a value one level deeper. *)
Theorem validateNonEmptyFields_depth_bound (data : value)
    (depth currentDepth : Z) :
  ((depth <= currentDepth)%Z ->
     validateNonEmptyFields data depth currentDepth = Return tt)
  /\ ((- 2 ^ 53 <= currentDepth)%Z -> (depth <= 2 ^ 53)%Z ->
      (forall k, blank_at data k -> (depth <= currentDepth + Z.of_nat k)%Z) ->
        validateNonEmptyFields data depth currentDepth = Return tt)
  /\ ((- 2 ^ 53 <= currentDepth)%Z -> (depth <= 2 ^ 53)%Z ->
      forall k, blank_at data k -> (currentDepth + Z.of_nat k < depth)%Z ->
        exists e later,
          blanks data depth currentDepth = e :: later
          /\ validateNonEmptyFields data depth currentDepth = Throw e)
  /\ (forall v, is_blank v = true <->
                v = VNull \/ v = VUndefined \/ v = VString [])
  /\ (forall key v rest,
        v = VNull \/ v = VUndefined \/ v = VString [] ->
        (currentDepth < depth)%Z ->
        validateNonEmptyFields (VObject ((key, v) :: rest)) depth currentDepth
        = Throw (empty_field key currentDepth))
  /\ (forall v rest,
        v = VNull \/ v = VUndefined \/ v = VString [] ->
        (- 2 ^ 53 <= currentDepth)%Z -> (depth <= 2 ^ 53)%Z ->
        (currentDepth + 1 < depth)%Z ->
        validateNonEmptyFields (VArray (v :: rest)) depth currentDepth
        = Throw (empty_value (currentDepth + 1))).
Proof.
  split; [|split; [|split; [|split; [|split]]]].
  - intros H. destruct data; simpl;
      destruct (Z.geb_spec currentDepth depth); try lia; reflexivity.
  - intros Hlow Hhigh H. rewrite validateNonEmptyFields_blanks.
    destruct (blanks data depth currentDepth) eqn:E; [reflexivity|].
    destruct (blanks_blank_at depth Hhigh data currentDepth Hlow)
      as (k & Hk & Hlt); [congruence|].
    specialize (H k Hk). lia.
  - intros Hlow Hhigh k Hk Hlt. rewrite validateNonEmptyFields_blanks.
    pose proof (blank_at_blanks depth Hhigh data k Hk currentDepth Hlow Hlt)
      as Hne.
    destruct (blanks data depth currentDepth) as [|e later]; [congruence|].
    exists e, later. split; reflexivity.
  - intros v. split.
    + destruct v as [ | | | | | [|] | | | | ]; try discriminate; auto.
    + intros [-> | [-> | ->]]; reflexivity.
  - intros key v rest Hv Hlt. cbn [validateNonEmptyFields].
    destruct (Z.geb_spec currentDepth depth) as [Hge | _]; [lia|].
    cbn [forEach fst snd].
    destruct Hv as [-> | [-> | ->]]; reflexivity.
  - intros v rest Hv Hlow Hhigh Hlt. cbn [validateNonEmptyFields].
    destruct (Z.geb_spec currentDepth depth) as [Hge | _]; [lia|].
    cbn [forEach].
    rewrite (next_depth_exact depth Hhigh currentDepth Hlow) by lia.
    destruct Hv as [-> | [-> | ->]]; cbn [validateNonEmptyFields];
      destruct (Z.geb_spec (currentDepth + 1) depth) as [Hge | _];
      try lia; reflexivity.
Qed.

(** An instance: a null field one level down, within the bound 10. *)
Lemma validateNonEmptyFields_depth_bound_witness :
  validateNonEmptyFields
    (VObject [(lit "a", VObject [(lit "b", VNull)])]) 10 0
  = Throw (empty_field (lit "b") 1).
Proof.
  destruct (proj1 (proj2 (proj2 (validateNonEmptyFields_depth_bound
                     (VObject [(lit "a", VObject [(lit "b", VNull)])]) 10 0)))
              ltac:(vm_compute; discriminate) ltac:(vm_compute; discriminate)
              1)
    as (e & later & Hblanks & Hthrow).
  - apply (blank_in_field _ (lit "a") (VObject [(lit "b", VNull)]) 0);
      try reflexivity; [left; reflexivity|].
    apply (blank_field _ (lit "b") VNull); [left; reflexivity | reflexivity].
  - vm_compute. reflexivity.
  - rewrite Hthrow. vm_compute in Hblanks. injection Hblanks as <- _.
    reflexivity.
Defined.

(** ** isNull *)

(** C7, as the code has it.  Both zeros return normally.  [false] is let
    through by the falsy-value test but is no string, number, bigint or
    object, and raises the invalid-type failure.  Every other falsy value
    raises the falsy-value failure; the empty array and the empty plain
    object raise theirs. *)
Theorem isNull_falsy_values :
  isNull (VNumber (Int 0)) = Return tt
  /\ isNull (VNumber NegZero) = Return tt
  /\ isNull (VBoolean false) = Throw (Error (lit "Invalid value type"))
  /\ (forall v, to_boolean v = false -> is_zero v = false ->
                is_false v = false ->
        isNull v = Throw (Error (lit "Value is null, undefined, or falsy")))
  /\ isNull (VArray []) = Throw (Error (lit "Value is an empty array"))
  /\ isNull (VObject [])
     = Throw (Error (lit "Value is an empty class instance")).
Proof.
  repeat split.
  intros v Hb Hz Hf. unfold isNull. rewrite Hb, Hz, Hf. reflexivity.
Qed.

(** An instance: [undefined]. *)
Lemma isNull_falsy_values_witness :
  isNull VUndefined = Throw (Error (lit "Value is null, undefined, or falsy")).
Proof.
  apply (proj1 (proj2 (proj2 (proj2 isNull_falsy_values))) VUndefined);
    reflexivity.
Defined.

(** [isNull(false)] raises. *)
Lemma isNull_false_raises : isNull (VBoolean false) <> Return tt.
Proof. discriminate. Qed.

(* ===================================================================== *)
(** * Part III. Further properties of the code                            *)
(* ===================================================================== *)

(** ** validateByStructure: what a failure says and what a pass means *)

Section StructureReports.

Implicit Types (structure arg shape : value) (path : jsstring).

Lemma hasOwnProperty_true (o : value) (key : jsstring) :
  hasOwnProperty o key = Return true -> is_some (own_property o key) = true.
Proof.
  destruct o as [ | | | | | | | | elems | props];
    cbn [hasOwnProperty]; try (intros H; injection H as H; exact H).
  cbn [own_property].
  destruct (lookup (lit "hasOwnProperty") props) as [[]|];
    intros H; try discriminate H. injection H as H. exact H.
Qed.

(** The method of an object shape is the builtin one, or the call does not
    return. *)
Lemma hasOwnProperty_declared (fields : list (jsstring * value))
    (k : jsstring) (s : value) (b : bool) :
  In (k, s) fields ->
  hasOwnProperty (VObject fields) k = Return b -> b = true.
Proof.
  intros Hin. cbn [hasOwnProperty].
  destruct (lookup (lit "hasOwnProperty") fields) as [[]|];
    intros H; try discriminate H. injection H as H.
  rewrite <- H. apply (lookup_In k s fields Hin).
Qed.

(** The loop body for a declared key, where nothing shadows the method. *)
Lemma check_key_object (fields props : list (jsstring * value)) path
    (k : jsstring) (recurse : value -> jsstring -> completion (option exn)) :
  lookup (lit "hasOwnProperty") fields = None ->
  lookup (lit "hasOwnProperty") props = None ->
  is_some (lookup k fields) = true ->
  check_key (VObject fields) (VObject props) path k recurse =
  match lookup k props with
  | Some v => recurse v (key_path path k)
  | None => Return (Some (missing_key k path))
  end.
Proof.
  intros Hf Hp Hk. unfold check_key. cbn [hasOwnProperty].
  rewrite Hf, Hp, Hk. cbn [bind]. unfold get. cbn [own_property].
  destruct (lookup k props); reflexivity.
Qed.

Lemma for_each_ext {A} (f g : A -> completion (option exn)) (l : list A) :
  (forall x, In x l -> f x = g x) -> for_each f l = for_each g l.
Proof.
  induction l as [|x l IH]; intros H; simpl; [reflexivity|].
  rewrite (H x (or_introl eq_refl)), IH; [reflexivity|].
  intros y Hy. apply H. right. exact Hy.
Qed.

Lemma lookup_app_other (k k' : jsstring) (v : value)
    (props : list (jsstring * value)) :
  k <> k' -> lookup k (props ++ [(k', v)]) = lookup k props.
Proof.
  intros Hne. induction props as [|[k0 v0] props IH]; simpl.
  - destruct (str_eqb k k') eqn:E; [|reflexivity].
    apply str_eqb_eq in E. contradiction.
  - destruct (str_eqb k k0); [reflexivity | exact IH].
Qed.

Lemma lookup_None_In (k : jsstring) (s : value)
    (fields : list (jsstring * value)) :
  lookup k fields = None -> ~ In (k, s) fields.
Proof.
  intros H Hin. apply lookup_In in Hin. rewrite H in Hin. discriminate.
Qed.

End StructureReports.

(** X1.  A subject object that lacks a declared field: where the fields
    declared before it are present and pass, the matcher returns the failure
    [Missing key] for that field at the path of the object. *)
Theorem validateByStructure_missing_key
    (fields props earlier later : list (jsstring * value))
    (key : jsstring) (shape : value) (path : jsstring) :
  fields = earlier ++ (key, shape) :: later ->
  lookup (lit "hasOwnProperty") fields = None ->
  lookup (lit "hasOwnProperty") props = None ->
  lookup key props = None ->
  (forall k s, In (k, s) earlier ->
     exists v, lookup k props = Some v
               /\ validateByStructure s v (key_path path k) = Return None) ->
  validateByStructure (VObject fields) (VObject props) path =
  Return (Some (missing_key key path)).
Proof.
  intros Hfields Hf Hp Hkey Hearlier.
  cbn [validateByStructure typeof is_null].
  rewrite str_eqb_refl. cbn [negb orb].
  assert (Hbody : forall k s, In (k, s) fields ->
            check_key (VObject fields) (VObject props) path k
              (validateByStructure s) =
            match lookup k props with
            | Some v => validateByStructure s v (key_path path k)
            | None => Return (Some (missing_key k path))
            end).
  { intros k s Hin. apply check_key_object; auto.
    apply (lookup_In k s fields Hin). }
  rewrite (for_each_ext _
    (fun entry => match lookup (fst entry) props with
                  | Some v => validateByStructure (snd entry) v
                                (key_path path (fst entry))
                  | None => Return (Some (missing_key (fst entry) path))
                  end))
    by (intros [k s] Hin; apply Hbody; exact Hin).
  rewrite Hfields, for_each_app.
  assert (H0 : for_each
            (fun entry => match lookup (fst entry) props with
                  | Some v => validateByStructure (snd entry) v
                                (key_path path (fst entry))
                  | None => Return (Some (missing_key (fst entry) path))
                  end) earlier = Return None).
  { apply for_each_none. intros [k s] Hin.
    destruct (Hearlier k s Hin) as (v & Hv & Hok).
    cbn [fst snd]. rewrite Hv. exact Hok. }
  rewrite H0. cbn [bind for_each fst snd]. rewrite Hkey. reflexivity.
Qed.

(** An instance: the user of the test suite without its age. *)
Lemma validateByStructure_missing_key_witness :
  validateByStructure
    (VObject [(lit "name", VString (lit "string"));
              (lit "age", VString (lit "number"))])
    (VObject [(lit "name", VString (lit "Alice"))]) [] =
  Return (Some (missing_key (lit "age") [])).
Proof.
  apply (validateByStructure_missing_key _ _
           [(lit "name", VString (lit "string"))] []
           (lit "age") (VString (lit "number")) []);
    try reflexivity.
  intros k s [H | []]. inversion H; subst.
  exists (VString (lit "Alice")). split; reflexivity.
Defined.

(** X2.  Every failure the matcher returns is one of its five messages, and
    the path in it starts with the path the call was given: failures are
    reported at or below the position the caller names. *)
Theorem validateByStructure_failure_path (structure : value) :
  forall (arg : value) (path : jsstring) (e : exn),
    validateByStructure structure arg path = Return (Some e) ->
    exists suffix, failure_at (path ++ suffix) e.
Proof.
  assert (Hhere : forall path e, failure_at path e ->
                    exists suffix, failure_at (path ++ suffix) e).
  { intros path e H. exists []. rewrite app_nil_r. exact H. }
  induction structure as
    [ | | b | n | z | tag | d | f | shapes IH | fields IH] using value_ind;
    intros arg path e; cbn [validateByStructure];
    try (intros H; inversion H; subst; apply Hhere; constructor).
  - (* null *)
    destruct (negb (str_eqb (typeof arg) (lit "object")) || is_null arg);
      intros H; inversion H; subst. apply Hhere; constructor.
  - (* a type tag *)
    destruct (negb (str_eqb (typeof arg) tag));
      intros H; inversion H; subst. apply Hhere; constructor.
  - (* an array shape *)
    destruct arg as [ | | | | | | | | elems | ]; cbn [isArray negb];
      try (intros H; inversion H; subst; apply Hhere; constructor).
    change (for_each _ shapes)
      with (validateByStructure (VArray shapes) (VArray elems) path).
    rewrite validateByStructure_array. intros H.
    apply for_each_first_failure in H.
    destruct H as (before & [shape [j v]] & after & Hcross & _ & Hfail).
    assert (Hin : In (shape, (j, v)) (cross shapes elems))
      by (rewrite Hcross; apply in_elt).
    apply In_cross in Hin. destruct Hin as [Hshape _].
    rewrite Forall_forall in IH.
    destruct (IH shape Hshape v _ e Hfail) as [suffix Hat].
    exists (lit "[" ++ decimal j ++ lit "]" ++ suffix).
    cbn [fst snd] in Hat. unfold index_path in Hat.
    rewrite <- ?app_assoc in Hat. rewrite <- ?app_assoc. exact Hat.
  - (* an object shape *)
    destruct (negb (str_eqb (typeof arg) (lit "object")) || is_null arg);
      [intros H; inversion H; subst; apply Hhere; constructor|].
    intros H. apply for_each_first_failure in H.
    destruct H as (before & [k s] & after & Hfields & _ & Hfail).
    assert (Hin : In (k, s) fields) by (rewrite Hfields; apply in_elt).
    unfold check_key in Hfail. cbn [fst snd] in Hfail.
    destruct (hasOwnProperty (VObject fields) k) as [[|] | | ];
      cbn [bind] in Hfail; try discriminate.
    destruct (hasOwnProperty arg k) as [[|] | | ];
      cbn [bind] in Hfail; try discriminate.
    + rewrite Forall_forall in IH.
      destruct (IH (k, s) Hin _ _ e Hfail) as [suffix Hat].
      exists (lit "." ++ k ++ suffix).
      unfold key_path in Hat.
      rewrite <- ?app_assoc in Hat. rewrite <- ?app_assoc. exact Hat.
    + inversion Hfail; subst. apply Hhere; constructor.
Qed.

(** An instance: a string where the element shape asks for a number. *)
Lemma validateByStructure_failure_path_witness :
  exists suffix,
    failure_at (lit "items" ++ suffix)
      (expected_type (lit "number") (lit "items[0]") (lit "string")).
Proof.
  apply (validateByStructure_failure_path
           (VArray [VString (lit "number")])
           (VArray [VString (lit "one")]) (lit "items")).
  reflexivity.
Defined.

(** X3.  No false pass: when the matcher returns no failure for a shape
    made of type tags, arrays and field maps, every leaf of the subject has
    the type its tag names, every declared field is an own property of the
    subject and every array element passes every element shape. *)
Theorem validateByStructure_pass_admits (structure : value) :
  forall (arg : value) (path : jsstring),
    proper_shape structure = true ->
    validateByStructure structure arg path = Return None ->
    admits structure arg.
Proof.
  induction structure as
    [ | | b | n | z | tag | d | f | shapes IH | fields IH] using value_ind;
    intros arg path Hproper; try discriminate Hproper;
    cbn [validateByStructure].
  - (* a type tag *)
    destruct (str_eqb (typeof arg) tag) eqn:E; cbn [negb]; [|discriminate].
    intros _. constructor. apply str_eqb_eq. exact E.
  - (* an array shape *)
    destruct arg as [ | | | | | | | | elems | ]; cbn [isArray negb];
      try discriminate.
    change (for_each _ shapes)
      with (validateByStructure (VArray shapes) (VArray elems) path).
    rewrite validateByStructure_array, for_each_none. intros Hall.
    constructor. intros s v Hs Hv.
    destruct (In_nth_error _ _ Hv) as [j Hj].
    rewrite Forall_forall in IH.
    apply (IH s Hs v (index_path path j)).
    + cbn [proper_shape] in Hproper. rewrite forallb_forall in Hproper.
      apply Hproper. exact Hs.
    + apply (Hall (s, (j, v))). apply In_cross. auto.
  - (* an object shape *)
    destruct (str_eqb (typeof arg) (lit "object")) eqn:Etype;
      cbn [negb orb]; [|discriminate].
    destruct (is_null arg) eqn:Enull; [discriminate|].
    rewrite for_each_none. intros Hall.
    assert (Hkey : forall k s, In (k, s) fields ->
              is_some (own_property arg k) = true
              /\ validateByStructure s (get arg k) (key_path path k)
                 = Return None).
    { intros k s Hin. specialize (Hall (k, s) Hin).
      unfold check_key in Hall. cbn [fst snd] in Hall.
      destruct (hasOwnProperty (VObject fields) k) as [declared | | ] eqn:Ed;
        cbn [bind] in Hall; try discriminate.
      rewrite (hasOwnProperty_declared fields k s declared Hin Ed) in Hall.
      destruct (hasOwnProperty arg k) as [[|] | | ] eqn:Ep;
        cbn [bind] in Hall; try discriminate.
      split; [apply hasOwnProperty_true; exact Ep | exact Hall]. }
    apply admits_object.
    + apply str_eqb_eq. exact Etype.
    + exact Enull.
    + intros k s Hin. apply (Hkey k s Hin).
    + intros k s x Hin Hx. destruct (Hkey k s Hin) as [_ Hok].
      unfold get in Hok. rewrite Hx in Hok.
      rewrite Forall_forall in IH.
      apply (IH (k, s) Hin x (key_path path k)); [|exact Hok].
      cbn [proper_shape] in Hproper. rewrite forallb_forall in Hproper.
      apply (Hproper (k, s) Hin).
Qed.

(** An instance: a user with a list of tags. *)
Lemma validateByStructure_pass_admits_witness :
  admits
    (VObject [(lit "name", VString (lit "string"));
              (lit "tags", VArray [VString (lit "string")])])
    (VObject [(lit "name", VString (lit "Alice"));
              (lit "tags", VArray [VString (lit "a"); VString (lit "b")])]).
Proof.
  apply (validateByStructure_pass_admits _ _ []); reflexivity.
Defined.

(** X4.  Empty arrays.  An array shape without element shapes lets every
    array pass, and an empty array passes every array shape, whatever its
    element shapes are: they are never looked at. *)
Theorem validateByStructure_empty_array (shapes elems : list value)
    (path : jsstring) :
  validateByStructure (VArray []) (VArray elems) path = Return None
  /\ validateByStructure (VArray shapes) (VArray []) path = Return None.
Proof.
  split; [reflexivity|].
  rewrite validateByStructure_array. apply for_each_none.
  intros [shape [j v]] Hin. apply In_cross in Hin.
  destruct Hin as [_ Hj]. destruct j; discriminate Hj.
Qed.

(** X5.  A field that the shape does not declare plays no part: where the
    match reaches no function supplied by the caller, adding one field to
    the subject, under any name but that of the method the matcher calls,
    leaves the result of the match as it was. *)
Theorem validateByStructure_undeclared_field
    (fields props : list (jsstring * value)) (key : jsstring) (v : value)
    (path : jsstring) :
  lookup key fields = None ->
  key <> lit "hasOwnProperty" ->
  validateByStructure (VObject fields) (VObject props) path <> UserCode ->
  validateByStructure (VObject fields) (VObject (props ++ [(key, v)])) path =
  validateByStructure (VObject fields) (VObject props) path.
Proof.
  intros Hkey Hname _.
  cbn [validateByStructure typeof is_null].
  apply for_each_ext. intros [k s] Hin. cbn [fst snd].
  assert (Hk : k <> key).
  { intros ->. apply (lookup_None_In key s fields Hkey Hin). }
  unfold check_key, get. cbn [hasOwnProperty own_property].
  rewrite (lookup_app_other (lit "hasOwnProperty") key v props)
    by (intros E; apply Hname; symmetry; exact E).
  rewrite (lookup_app_other k key v props Hk). reflexivity.
Qed.

(** An instance: a user with a field the shape does not know. *)
Lemma validateByStructure_undeclared_field_witness :
  validateByStructure
    (VObject [(lit "name", VString (lit "string"))])
    (VObject ([(lit "name", VString (lit "Alice"))]
              ++ [(lit "admin", VBoolean true)])) [] =
  validateByStructure
    (VObject [(lit "name", VString (lit "string"))])
    (VObject [(lit "name", VString (lit "Alice"))]) [].
Proof.
  apply (validateByStructure_undeclared_field
           [(lit "name", VString (lit "string"))]
           [(lit "name", VString (lit "Alice"))] (lit "admin")
           (VBoolean true) []).
  - reflexivity.
  - discriminate.
  - discriminate.
Defined.

(** ** validateType: what each descriptor accepts *)

Section TypeDescriptors.

Lemma throw_value_mismatch_throws (type value : value) :
  throw_value_mismatch type value <> Return tt.
Proof.
  unfold throw_value_mismatch.
  destruct (to_string type); cbn [bind]; try discriminate.
  destruct (to_string value); discriminate.
Qed.

Lemma throw_typeof_mismatch_throws (type value : value) :
  throw_typeof_mismatch type value <> Return tt.
Proof.
  unfold throw_typeof_mismatch. destruct (to_string type); discriminate.
Qed.

Lemma isArray_typeof (v : value) :
  isArray v = true -> typeof v = lit "object".
Proof. destruct v; try discriminate. reflexivity. Qed.

End TypeDescriptors.

(** X6.  The six constructors as descriptors, for a value that is a
    primitive, a function, an array or a plain object (an object made with
    [new], as [new String("x")] is, is no value of the embedding).  [Object]
    accepts the plain objects, neither arrays nor functions nor [null];
    [Array] accepts the arrays; [Function] the functions; [String],
    [Number] and [Boolean] the primitives of their type.  Every other one of
    these values makes the call throw. *)
Theorem validateType_constructor_accepts (b : builtin) (v : value) :
  validateType (VFunction (Builtin b)) v = Return tt <-> satisfies b v = true.
Proof.
  pose proof (throw_value_mismatch_throws (VFunction (Builtin b)) v) as Hv.
  pose proof (throw_typeof_mismatch_throws (VFunction (Builtin b)) v) as Ht.
  destruct b;
    destruct v as [ | | c | n | z | s | d | f | elems | props];
    cbn -[throw_value_mismatch throw_typeof_mismatch] in *;
    split; intros H; try reflexivity; try discriminate H;
    contradiction.
Qed.

(** X7.  A descriptor that is neither [null] nor a function is compared by
    [typeof] alone: the call returns exactly when the value is not [null]
    and has the [typeof] of the descriptor.  So an array given as the
    descriptor accepts every plain object, and a plain object every
    array. *)
Theorem validateType_descriptor_typeof (type v : value) :
  is_null type = false ->
  is_callable type = false ->
  (validateType type v = Return tt <->
   is_null v = false /\ typeof type = typeof v).
Proof.
  intros Hnull Hfun.
  pose proof (throw_value_mismatch_throws type v) as Hv.
  pose proof (throw_typeof_mismatch_throws type v) as Ht.
  assert (Hplain : validateType type v =
            if is_null v then throw_value_mismatch type v
            else if str_eqb (typeof type) (typeof v) then Return tt
            else if isArray type && isArray v then Return tt
            else throw_typeof_mismatch type v).
  { unfold validateType. rewrite Hnull. cbn [orb andb negb].
    destruct (is_null v); [reflexivity|].
    destruct type; try discriminate; reflexivity. }
  rewrite Hplain. destruct (is_null v).
  - split; [intros H; contradiction | intros [H _]; discriminate].
  - destruct (str_eqb (typeof type) (typeof v)) eqn:E.
    + apply str_eqb_eq in E. tauto.
    + destruct (isArray type) eqn:Ea; cbn [andb].
      * destruct (isArray v) eqn:Eb.
        -- apply isArray_typeof in Ea. apply isArray_typeof in Eb.
           rewrite Ea, Eb, str_eqb_refl in E. discriminate.
        -- split; [intros H; contradiction|]. intros [_ H].
           apply str_eqb_eq in H. congruence.
      * split; [intros H; contradiction|]. intros [_ H].
        apply str_eqb_eq in H. congruence.
Qed.

(** An instance: the empty array as the descriptor of a plain object. *)
Lemma validateType_descriptor_typeof_witness :
  validateType (VArray []) (VObject [(lit "a", VNumber (Int 1))]) = Return tt.
Proof.
  apply (proj2 (validateType_descriptor_typeof (VArray [])
                  (VObject [(lit "a", VNumber (Int 1))]) eq_refl eq_refl)).
  split; reflexivity.
Defined.

(** ** isNull: the values that pass *)

(** X8.  [isNull] returns normally for exactly these values: a non-empty
    string, a number other than NaN, a bigint other than zero, a non-empty
    array and an object with a property.  Booleans, symbols and functions
    always make it throw. *)
Theorem isNull_passes_iff (v : value) :
  isNull v = Return tt <-> non_empty v = true.
Proof.
  destruct v as [ | | b | n | z | s | d | f | elems | props];
    try (split; [intros H; vm_compute in H; discriminate H
                | intros H; discriminate H]).
  - destruct b; split; intros H; vm_compute in H; discriminate H.
  - destruct n as [ | | | | z]; try (split; intros H; try reflexivity;
                                      vm_compute in H; discriminate H).
    unfold isNull. cbn [to_boolean is_zero is_false non_empty typeof].
    destruct (Z.eqb z 0); split; reflexivity.
  - unfold isNull. cbn [to_boolean is_zero is_false non_empty typeof].
    destruct (Z.eqb z 0); split; intros H; try reflexivity;
      vm_compute in H; discriminate H.
  - destruct s; split; intros H; try reflexivity; vm_compute in H;
      discriminate H.
  - destruct elems; split; intros H; try reflexivity; vm_compute in H;
      discriminate H.
  - destruct props; split; intros H; try reflexivity; vm_compute in H;
      discriminate H.
Qed.

(** ** validateNonEmptyFields: the depth bound *)

(** X9.  A smaller depth bound inspects less: data that passes with the
    bound [depth] passes with every smaller bound, from the same starting
    depth. *)
Theorem validateNonEmptyFields_monotone (data : value)
    (depth depth' currentDepth : Z) :
  (depth' <= depth)%Z ->
  validateNonEmptyFields data depth currentDepth = Return tt ->
  validateNonEmptyFields data depth' currentDepth = Return tt.
Proof.
  intros Hle. revert currentDepth.
  induction data as
    [ | | b | n | z | s | d | f | items IH | entries IH] using value_ind;
    intros cur; cbn [validateNonEmptyFields];
    destruct (Z.geb_spec cur depth') as [Hge' | Hlt']; try reflexivity;
    destruct (Z.geb_spec cur depth) as [Hge | Hlt]; try lia; try (intros H; exact H).
  - induction IH as [|item items Hitem _ IHitems]; cbn [forEach];
      [reflexivity|].
    destruct (validateNonEmptyFields item depth (to_double (cur + 1)))
      as [[] | e | ] eqn:E; cbn [bind]; try discriminate.
    rewrite (Hitem _ E). cbn [bind]. exact IHitems.
  - induction IH as [|[key v] entries Hentry _ IHentries]; cbn [forEach];
      [reflexivity|].
    cbn [fst snd] in *.
    destruct (is_blank v); cbn [bind]; [intros H; exact H|].
    destruct (str_eqb (typeof v) (lit "object") || isArray v).
    + destruct (validateNonEmptyFields v depth (to_double (cur + 1)))
        as [[] | e | ] eqn:E; cbn [bind]; try discriminate.
      rewrite (Hentry _ E). cbn [bind]. exact IHentries.
    + cbn [bind]. exact IHentries.
Qed.

(** An instance: a blank field two levels down, with the bounds 2 and 1. *)
Lemma validateNonEmptyFields_monotone_witness :
  validateNonEmptyFields
    (VObject [(lit "a", VObject [(lit "b", VObject [(lit "c", VNull)])])])
    1 0 = Return tt.
Proof.
  apply (validateNonEmptyFields_monotone
           (VObject [(lit "a", VObject [(lit "b", VObject [(lit "c", VNull)])])])
           2 1 0).
  - lia.
  - reflexivity.
Defined.

(** ** isSqlInjection: what the escaping adds *)

Section SqlEscaping.

Lemma isSqlInjection_closed (input : jsstring) :
  isSqlInjection input = escape_flanked None input.
Proof.
  unfold isSqlInjection, replace.
  rewrite (replace_from_ext _ _ _ exec_sqlInjectionRegex).
  apply (replace_sql_flanked (List.length input)). lia.
Qed.

(** The three ways in which the escaping goes on at a position. *)
Lemma escape_flanked_cases
    (P : option code_unit -> jsstring -> jsstring -> Prop) :
  (forall prev, P prev [] []) ->
  (forall prev c s1,
     word_at prev = true -> is_single_token c = true ->
     word_at (hd_error s1) = true ->
     P (Some c) s1 (escape_flanked (Some c) s1) ->
     P prev (c :: s1) (cu "\" :: c :: escape_flanked (Some c) s1)) ->
  (forall prev c d s2,
     word_at prev = true -> is_double_token c d = true ->
     word_at (hd_error s2) = true ->
     P (Some d) s2 (escape_flanked (Some d) s2) ->
     P prev (c :: d :: s2)
       (cu "\" :: c :: cu "\" :: d :: escape_flanked (Some d) s2)) ->
  (forall prev c s1,
     token_at prev (c :: s1) = false ->
     P (Some c) s1 (escape_flanked (Some c) s1) ->
     P prev (c :: s1) (c :: escape_flanked (Some c) s1)) ->
  forall s prev, P prev s (escape_flanked prev s).
Proof.
  intros Hnil Hsingle Hdouble Hcopy s.
  remember (List.length s) as n eqn:Hn.
  assert (Hlen : List.length s <= n) by lia. clear Hn.
  revert s Hlen. induction n as [|n IH]; intros s Hlen prev.
  - destruct s; [apply Hnil | simpl in Hlen; lia].
  - destruct s as [|c s1]; [apply Hnil|]. simpl in Hlen.
    cbn [escape_flanked].
    destruct (word_at prev && is_single_token c && word_at (hd_error s1))
      eqn:E1.
    + apply andb_true_iff in E1. destruct E1 as [E1 Hnext].
      apply andb_true_iff in E1. destruct E1 as [Hprev Hc].
      apply Hsingle; auto. apply IH. lia.
    + destruct s1 as [|d s2].
      * apply Hcopy; [|apply IH; simpl; lia].
        cbn [token_at]. rewrite E1. reflexivity.
      * destruct (word_at prev && is_double_token c d
                  && word_at (hd_error s2)) eqn:E2.
        -- apply andb_true_iff in E2. destruct E2 as [E2 Hnext].
           apply andb_true_iff in E2. destruct E2 as [Hprev Hcd].
           apply Hdouble; auto. apply IH. simpl in Hlen. lia.
        -- apply Hcopy; [|apply IH; lia].
           cbn [token_at]. rewrite E1, E2. reflexivity.
Qed.

Lemma escape_flanked_copy (prev : option code_unit) (c : code_unit)
    (s1 : jsstring) :
  token_at prev (c :: s1) = false ->
  escape_flanked prev (c :: s1) = c :: escape_flanked (Some c) s1.
Proof.
  cbn [token_at escape_flanked]. intros H.
  apply orb_false_iff in H. destruct H as [H1 H2]. rewrite H1.
  destruct s1 as [|d s2]; [reflexivity|]. rewrite H2. reflexivity.
Qed.

Lemma token_at_not_word (prev : option code_unit) (s : jsstring) :
  word_at prev = false -> token_at prev s = false.
Proof.
  intros H. destruct s as [|c [|d s2]]; cbn [token_at]; rewrite ?H;
    reflexivity.
Qed.

Lemma token_at_backslash (prev : option code_unit) (s : jsstring) :
  token_at prev (cu "\" :: s) = false.
Proof.
  cbn [token_at].
  change (is_single_token (cu "\")) with false.
  rewrite andb_false_r. cbn [andb orb].
  destruct s as [|d s2]; [reflexivity|].
  replace (is_double_token (cu "\") d) with false;
    [rewrite andb_false_r; reflexivity|].
  unfold is_double_token, is_char. eval_cu. reflexivity.
Qed.

Lemma double_token_backslash (c : code_unit) :
  is_double_token c (cu "\") = false.
Proof.
  unfold is_double_token, is_char. eval_cu. cbn [N.eqb Pos.eqb].
  rewrite !andb_false_r. reflexivity.
Qed.

(** The escaping starts with the code unit the input starts with, or with
    a backslash. *)
Lemma escape_flanked_head (prev : option code_unit) (s : jsstring) :
  hd_error (escape_flanked prev s) = hd_error s
  \/ hd_error (escape_flanked prev s) = Some (cu "\").
Proof.
  destruct s as [|c s1]; [left; reflexivity|]. cbn [escape_flanked].
  destruct (word_at prev && is_single_token c && word_at (hd_error s1));
    [right; reflexivity|].
  destruct s1 as [|d s2]; [left; reflexivity|].
  destruct (word_at prev && is_double_token c d && word_at (hd_error s2));
    [right | left]; reflexivity.
Qed.

Lemma escape_flanked_head_word (prev : option code_unit) (s : jsstring) :
  word_at (hd_error s) = false ->
  word_at (hd_error (escape_flanked prev s)) = false.
Proof.
  intros H. destruct (escape_flanked_head prev s) as [-> | ->];
    [exact H | reflexivity].
Qed.

(** Where no token starts in the input, none starts in what the escaping
    makes of the rest. *)
Lemma token_at_escaped (prev : option code_unit) (c : code_unit)
    (s1 : jsstring) :
  token_at prev (c :: s1) = false ->
  token_at prev (c :: escape_flanked (Some c) s1) = false.
Proof.
  destruct (word_at prev) eqn:Hprev;
    [|intros _; apply token_at_not_word; exact Hprev].
  cbn [token_at]. rewrite Hprev. cbn [andb]. intros H.
  apply orb_false_iff in H. destruct H as [H1 H2].
  apply orb_false_iff. split.
  - apply andb_false_iff in H1. apply andb_false_iff.
    destruct H1 as [H1 | H1]; [left; exact H1 | right].
    apply escape_flanked_head_word. exact H1.
  - destruct s1 as [|d s2]; [reflexivity|].
    cbn [escape_flanked].
    destruct (word_at (Some c) && is_single_token d
              && word_at (hd_error s2));
      [rewrite double_token_backslash; reflexivity|].
    assert (Hcopy : match d :: escape_flanked (Some d) s2 with
                    | [] => false
                    | d' :: s2' => is_double_token c d'
                                   && word_at (hd_error s2')
                    end = false).
    { apply andb_false_iff in H2. apply andb_false_iff.
      destruct H2 as [H2 | H2]; [left; exact H2 | right].
      apply escape_flanked_head_word. exact H2. }
    destruct s2 as [|e s3]; [exact Hcopy|].
    destruct (word_at (Some c) && is_double_token d e
              && word_at (hd_error s3));
      [rewrite double_token_backslash; reflexivity | exact Hcopy].
Qed.

Lemma single_token_not_backslash (c : code_unit) :
  is_single_token c = true -> is_backslash c = false.
Proof.
  unfold is_backslash. intros H.
  destruct (is_char "\" c) eqn:E; [|reflexivity].
  exfalso. char_prop. lia.
Qed.

Lemma double_token_not_backslash (c d : code_unit) :
  is_double_token c d = true ->
  is_backslash c = false /\ is_backslash d = false.
Proof.
  unfold is_backslash. intros H.
  destruct (is_char "\" c) eqn:Ec; destruct (is_char "\" d) eqn:Ed;
    try (split; reflexivity); exfalso; char_prop; lia.
Qed.

End SqlEscaping.

(** X10.  [isSqlInjection] is idempotent: the backslashes of a first pass
    take the escaped tokens away from the word characters before them, and
    a second pass finds nothing left to escape. *)
Theorem isSqlInjection_idempotent (input : jsstring) :
  isSqlInjection (isSqlInjection input) = isSqlInjection input.
Proof.
  rewrite !isSqlInjection_closed. generalize (@None code_unit).
  intros prev. revert input prev.
  apply (escape_flanked_cases
           (fun prev _ out => escape_flanked prev out = out)).
  - reflexivity.
  - intros prev c s1 _ _ _ IH.
    rewrite (escape_flanked_copy prev) by apply token_at_backslash.
    rewrite (escape_flanked_copy (Some (cu "\")))
      by (apply token_at_not_word; reflexivity).
    rewrite IH. reflexivity.
  - intros prev c d s2 _ _ _ IH.
    rewrite (escape_flanked_copy prev) by apply token_at_backslash.
    rewrite (escape_flanked_copy (Some (cu "\")))
      by (apply token_at_not_word; reflexivity).
    rewrite (escape_flanked_copy (Some c)) by apply token_at_backslash.
    rewrite (escape_flanked_copy (Some (cu "\")))
      by (apply token_at_not_word; reflexivity).
    rewrite IH. reflexivity.
  - intros prev c s1 Hno IH.
    rewrite (escape_flanked_copy prev) by (apply token_at_escaped; exact Hno).
    rewrite IH. reflexivity.
Qed.

(** X11.  [isSqlInjection] only adds backslashes, at most one for each
    code unit of the input: without its backslashes the result is the input
    without its backslashes, and it is at most twice as long. *)
Theorem isSqlInjection_adds_backslashes (input : jsstring) :
  without_backslashes (isSqlInjection input) = without_backslashes input
  /\ List.length input <= List.length (isSqlInjection input)
     <= 2 * List.length input.
Proof.
  rewrite !isSqlInjection_closed. generalize (@None code_unit).
  intros prev. revert input prev.
  apply (escape_flanked_cases
           (fun _ s out =>
              without_backslashes out = without_backslashes s
              /\ List.length s <= List.length out <= 2 * List.length s)).
  - intros _. split; [reflexivity | simpl; lia].
  - intros _ c s1 _ Hc _ [IH Hlen].
    apply single_token_not_backslash in Hc.
    unfold without_backslashes in *. cbn [filter List.length].
    change (is_backslash (cu "\")) with true. rewrite Hc. cbn [negb].
    rewrite IH. split; [reflexivity | lia].
  - intros _ c d s2 _ Hcd _ [IH Hlen].
    apply double_token_not_backslash in Hcd. destruct Hcd as [Hc Hd].
    unfold without_backslashes in *. cbn [filter List.length].
    change (is_backslash (cu "\")) with true. rewrite Hc, Hd. cbn [negb].
    rewrite IH. split; [reflexivity | lia].
  - intros _ c s1 _ [IH Hlen].
    unfold without_backslashes in *. cbn [filter List.length].
    rewrite IH. split; [reflexivity | lia].
Qed.

(** ** isJsScript: the two phases *)

Section HtmlPhases.

Lemma entity_cases (c : code_unit) :
  (c = cu "&" /\ entity c = lit "&amp;")
  \/ (c = cu "<" /\ entity c = lit "&lt;")
  \/ (c = cu ">" /\ entity c = lit "&gt;")
  \/ (c = dquote /\ entity c = lit "&quot;")
  \/ (c = cu "'" /\ entity c = lit "&#39;")
  \/ (c <> cu "&" /\ entity c = [c]).
Proof.
  unfold entity, is_char.
  destruct (N.eqb_spec c (cu "&")); [tauto|].
  destruct (N.eqb_spec c (cu "<")); [tauto|].
  destruct (N.eqb_spec c (cu ">")); [tauto|].
  destruct (N.eqb_spec c dquote); [tauto|].
  destruct (N.eqb_spec c (cu "'")); tauto.
Qed.

Lemma flat_map_entity_injective (a : jsstring) :
  forall b, flat_map entity a = flat_map entity b -> a = b.
Proof.
  induction a as [|c a IH]; intros [|d b]; cbn [flat_map].
  - reflexivity.
  - intros H. exfalso.
    destruct (entity_cases d) as [[_ E]|[[_ E]|[[_ E]|[[_ E]|[[_ E]|[_ E]]]]]];
      rewrite E in H; discriminate H.
  - intros H. exfalso.
    destruct (entity_cases c) as [[_ E]|[[_ E]|[[_ E]|[[_ E]|[[_ E]|[_ E]]]]]];
      rewrite E in H; discriminate H.
  - intros H.
    destruct (entity_cases c)
      as [[Hc Ec]|[[Hc Ec]|[[Hc Ec]|[[Hc Ec]|[[Hc Ec]|[Hc Ec]]]]]];
    destruct (entity_cases d)
      as [[Hd Ed]|[[Hd Ed]|[[Hd Ed]|[[Hd Ed]|[[Hd Ed]|[Hd Ed]]]]]];
      rewrite Ec, Ed in H; unfold dquote in *; eval_cu; cbn in H;
      inversion H; subst; try congruence; f_equal; apply IH; assumption.
Qed.

Lemma replace_from_match (re : regex) (fn : rmatch -> jsstring)
    (prev : option code_unit) (m rest : jsstring) (r : rmatch) :
  m <> [] ->
  re prev (m ++ rest) = Some r ->
  matched r = m ->
  replace_from re fn prev 0 (m ++ rest) =
  fn r ++ replace_from re fn (prev_after prev m) 0 rest.
Proof.
  intros Hm Hr Hmatched. destruct m as [|c m]; [congruence|].
  cbn [app replace_from prev_after]. cbn [app] in Hr.
  rewrite Hr, Hmatched. cbn [List.length].
  rewrite replace_from_inside. reflexivity.
Qed.

(** The script pattern does not look behind the position it starts at. *)
Lemma replace_from_script (fn : rmatch -> jsstring) (s : jsstring) :
  forall p q inside,
    replace_from script_match fn p inside s =
    replace_from script_match fn q inside s.
Proof.
  induction s as [|c s IH]; intros p q inside; cbn [replace_from].
  - reflexivity.
  - destruct inside; [|apply IH]. unfold script_match at 1 3.
    reflexivity.
Qed.

Lemma close_tag_not_lt (c : code_unit) (s : jsstring) :
  is_char "<" c = false -> close_tag (c :: s) = None.
Proof. intros H. destruct s; cbn [close_tag]; rewrite ?H; reflexivity. Qed.

Lemma until_close_body (body rest : jsstring) :
  forallb (fun c => negb (is_char "<" c)) body = true ->
  until_close (body ++ lit "</script>" ++ rest) =
  Some (body, lit "</script>", rest).
Proof.
  induction body as [|c body IH]; cbn [forallb app].
  - intros _. reflexivity.
  - rewrite andb_true_iff, negb_true_iff. intros [Hc Hbody].
    cbn [until_close]. rewrite (close_tag_not_lt c _ Hc), (IH Hbody).
    reflexivity.
Qed.

Lemma stripped_element (body rest : jsstring) :
  forallb (fun c => negb (is_char "<" c)) body = true ->
  stripped (lit "<script>" ++ body ++ lit "</script>" ++ rest) =
  body ++ stripped rest.
Proof.
  intros Hbody. unfold stripped, replace.
  rewrite !(replace_from_ext _ _ _ exec_scriptRegex).
  replace (lit "<script>" ++ body ++ lit "</script>" ++ rest)
    with ((lit "<script>" ++ body ++ lit "</script>") ++ rest)
    by (rewrite <- !app_assoc; reflexivity).
  rewrite (replace_from_match script_match _ None _ rest
             {| matched := lit "<script>" ++ body ++ lit "</script>";
                group1 := body |}).
  - cbn [group1]. f_equal. apply replace_from_script.
  - discriminate.
  - rewrite <- !app_assoc. unfold script_match.
    change (open_tag (lit "<script>" ++ body ++ lit "</script>" ++ rest))
      with (Some (lit "<script>", body ++ lit "</script>" ++ rest)).
    cbn beta iota.
    rewrite (until_close_body body rest Hbody). reflexivity.
  - reflexivity.
Qed.

Lemma includes_tail (c : code_unit) (s p : jsstring) :
  includes (c :: s) p = false ->
  strip_prefix p (c :: s) = None /\ includes s p = false.
Proof.
  cbn [includes]. destruct (strip_prefix p (c :: s)); [discriminate|].
  auto.
Qed.

Lemma includes_app (a b p : jsstring) :
  includes (a ++ b) p = false -> includes b p = false.
Proof.
  induction a as [|c a IH]; cbn [app]; [auto|].
  intros H. apply includes_tail in H. apply IH, H.
Qed.

Lemma close_tag_prefix (s : jsstring) :
  strip_prefix (lit "</") s = None -> close_tag s = None.
Proof.
  destruct s as [|c [|d s1]]; try reflexivity.
  cbn [close_tag]. change (lit "</") with [cu "<"; cu "/"].
  cbn [strip_prefix]. unfold is_char.
  rewrite (N.eqb_sym c), (N.eqb_sym d).
  destruct (N.eqb (cu "<") c); [|reflexivity].
  destruct (N.eqb (cu "/") d); [discriminate | reflexivity].
Qed.

Lemma until_close_includes (s : jsstring) :
  includes s (lit "</") = false -> until_close s = None.
Proof.
  induction s as [|c s IH]; [reflexivity|].
  intros H. apply includes_tail in H. destruct H as [Hp Hs].
  cbn [until_close]. rewrite (close_tag_prefix _ Hp), (IH Hs).
  reflexivity.
Qed.

Lemma open_tag_rest (s opening rest : jsstring) :
  open_tag s = Some (opening, rest) -> s = opening ++ rest.
Proof.
  destruct s as [|c s1]; [discriminate|]. cbn [open_tag].
  destruct (is_char "<" c); [|discriminate].
  destruct (span is_space s1) as [gap s2] eqn:Egap.
  destruct (match_ci (lit "script") s2) as [[name s3]|] eqn:Ename;
    [|discriminate].
  destruct (span (fun x => negb (is_char ">" x)) s3) as [attrs s4] eqn:Eattrs.
  destruct s4 as [|gt s5]; [discriminate|].
  intros H. injection H as <- <-.
  apply span_spec in Egap. destruct Egap as [-> _].
  apply match_ci_spec in Ename. destruct Ename as [-> _].
  apply span_spec in Eattrs. destruct Eattrs as [-> _].
  cbn [app]. rewrite <- !app_assoc. reflexivity.
Qed.

Lemma script_match_includes (prev : option code_unit) (s : jsstring) :
  includes s (lit "</") = false -> script_match prev s = None.
Proof.
  intros H. unfold script_match.
  destruct (open_tag s) as [[opening s1]|] eqn:E; [|reflexivity].
  apply open_tag_rest in E. subst s. apply includes_app in H.
  rewrite (until_close_includes s1 H). reflexivity.
Qed.

Lemma stripped_unclosed (input : jsstring) :
  includes input (lit "</") = false -> stripped input = input.
Proof.
  unfold stripped, replace.
  rewrite (replace_from_ext _ _ _ exec_scriptRegex).
  generalize (@None code_unit).
  induction input as [|c s IH]; intros prev H; cbn [replace_from];
    rewrite (script_match_includes prev _ H); [reflexivity|].
  apply includes_tail in H. rewrite (IH (Some c)) by apply H. reflexivity.
Qed.

End HtmlPhases.

(** X12.  The escaping of markup loses nothing: two texts with the same
    escaped form are the same text. *)
Theorem escapeHtml_injective (a b : jsstring) :
  escapeHtml a = escapeHtml b -> a = b.
Proof.
  rewrite !escapeHtml_flat_map. apply flat_map_entity_injective.
Qed.

(** An instance: a comparison and its escaped form. *)
Lemma escapeHtml_injective_witness : lit "a<b" = lit "a<b".
Proof. apply (escapeHtml_injective (lit "a<b") (lit "a<b")). reflexivity. Defined.

(** X13.  A script element whose content holds no opening angle bracket is
    replaced by its content: of [<script>], the content, [</script>] and
    what follows, the content stays, escaped, in front of the result for
    what follows. *)
Theorem isJsScript_script_element (body rest : jsstring) :
  ~ In (cu "<") body ->
  isJsScript (lit "<script>" ++ body ++ lit "</script>" ++ rest) =
  escapeHtml body ++ isJsScript rest.
Proof.
  intros Hbody.
  assert (H : forallb (fun c => negb (is_char "<" c)) body = true).
  { apply forallb_forall. intros c Hc. apply negb_true_iff.
    unfold is_char. apply N.eqb_neq. intros ->. contradiction. }
  unfold isJsScript. fold (stripped rest).
  fold (stripped (lit "<script>" ++ body ++ lit "</script>" ++ rest)).
  rewrite (stripped_element body rest H), !escapeHtml_flat_map.
  apply flat_map_app.
Qed.

(** An instance: the alert of the test suite in front of a text. *)
Lemma isJsScript_script_element_witness :
  isJsScript (lit "<script>" ++ lit "alert('x')" ++ lit "</script>"
              ++ lit "Hello") =
  escapeHtml (lit "alert('x')") ++ isJsScript (lit "Hello").
Proof.
  apply (isJsScript_script_element (lit "alert('x')") (lit "Hello")).
  vm_compute. intuition discriminate.
Defined.

(** X14.  Without a closing tag nothing is taken out: a text that nowhere
    holds [</] is only escaped, an opening script tag in it included. *)
Theorem isJsScript_unclosed (input : jsstring) :
  includes input (lit "</") = false ->
  isJsScript input = escapeHtml input.
Proof.
  intros H. unfold isJsScript. fold (stripped input).
  rewrite (stripped_unclosed input H). reflexivity.
Qed.

(** An instance: an opening tag that is never closed. *)
Lemma isJsScript_unclosed_witness :
  isJsScript (lit "<script>alert(1)") = lit "&lt;script&gt;alert(1)".
Proof.
  rewrite (isJsScript_unclosed (lit "<script>alert(1)")); reflexivity.
Defined.

(** ** validatePassword: the bounds of the pattern *)

(** X15.  The pattern has the bounds 8 and 128 of its own.  A password
    whose length is within the bounds of the call but below 8 or above 128
    is rejected with the failure for a weak password, whatever its
    characters are: a lower minimum or a higher maximum is of no effect. *)
Theorem validatePassword_pattern_bounds (password : jsstring)
    (minLen maxLen : Z) :
  (minLen <= Z.of_nat (List.length password) <= maxLen)%Z ->
  List.length password < 8 \/ 128 < List.length password ->
  validatePassword password minLen maxLen = Throw weak_password.
Proof.
  intros Hcall Hpattern. rewrite validatePassword_cases.
  destruct (Z.ltb_spec (Z.of_nat (List.length password)) minLen); [lia|].
  destruct (Z.ltb_spec maxLen (Z.of_nat (List.length password))); [lia|].
  destruct (password_test password) eqn:E; [|reflexivity].
  apply password_test_iff in E. lia.
Qed.

(** An instance: six characters of all four classes, with the minimum 4. *)
Lemma validatePassword_pattern_bounds_witness :
  validatePassword (lit "Ab1!cd") 4 128 = Throw weak_password.
Proof.
  apply (validatePassword_pattern_bounds (lit "Ab1!cd") 4 128);
    simpl; lia.
Defined.

(** ** Anchored patterns with greedy runs *)

Section GreedyRuns.

Implicit Types (st : mstate) (k : mstate -> option mstate).

Lemma fits_zero (max : option nat) : fits max 0.
Proof. destruct max; cbn [fits]; [lia | exact I]. Qed.

Lemma fits_room (max : option nat) (n : nat) :
  fits max (S n) <-> has_room max = true /\ fits (option_map pred max) n.
Proof.
  destruct max as [[|m]|]; cbn [fits has_room option_map pred Nat.eqb negb].
  - split; [lia | intros [H _]; discriminate H].
  - split; [intros H; split; [reflexivity | lia] | intros [_ H]; lia].
  - tauto.
Qed.

(** A greedy run in front of [k] succeeds exactly when the input splits
    into a run of the class, of a length within the bounds, and a rest that
    [k] accepts: the matcher comes back to every shorter run. *)
Lemma repeat_greedy_some (cls : code_unit -> bool) k
    (gs : list (nat * jsstring)) :
  forall s min max prev txt,
    is_some (repeat_class true cls k min max gs prev txt s) = true <->
    exists run rest,
      s = run ++ rest /\ forallb cls run = true
      /\ min <= List.length run /\ fits max (List.length run)
      /\ is_some (k {| before := prev_after prev run; input := rest;
                       text := txt ++ run; groups := gs |}) = true.
Proof.
  assert (Hstay : forall s min max prev txt,
            (forall x run rest, s = (x :: run) ++ rest ->
               forallb cls (x :: run) = true ->
               fits max (List.length (x :: run)) -> False) ->
            (is_some (match min with
                      | O => k {| before := prev; input := s; text := txt;
                                  groups := gs |}
                      | S _ => None
                      end) = true <->
             exists run rest,
               s = run ++ rest /\ forallb cls run = true
               /\ min <= List.length run /\ fits max (List.length run)
               /\ is_some (k {| before := prev_after prev run; input := rest;
                                text := txt ++ run; groups := gs |}) = true)).
  { intros s min max prev txt Hno. split.
    - intros H. destruct min; [|discriminate H].
      exists [], s. rewrite (app_nil_r txt).
      repeat split; auto. apply fits_zero.
    - intros (run & rest & Hs & Hall & Hmin & Hfit & Hk).
      destruct run as [|x run]; [|exfalso; eapply Hno; eauto].
      cbn [List.length] in Hmin. destruct min; [|lia].
      cbn [app] in Hs. subst rest.
      cbn [prev_after] in Hk. rewrite (app_nil_r txt) in Hk. exact Hk. }
  induction s as [|c s IH]; intros min max prev txt.
  - cbn [repeat_class]. apply Hstay.
    intros x run rest Hs. discriminate Hs.
  - cbn [repeat_class].
    destruct (cls c && has_room max) eqn:E.
    + apply andb_true_iff in E. destruct E as [Ec Eroom]. split.
      * destruct (repeat_class true cls k (pred min) (option_map pred max)
                    gs (Some c) (txt ++ [c]) s) as [r|] eqn:Er.
        -- intros _.
           destruct (proj1 (IH (pred min) (option_map pred max) (Some c)
                              (txt ++ [c])))
             as (run & rest & Hs & Hall & Hmin & Hfit & Hk);
             [rewrite Er; reflexivity|].
           exists (c :: run), rest. cbn [forallb List.length prev_after].
           rewrite Ec, Hall, Hs. rewrite <- app_assoc in Hk.
           repeat split; auto; [lia | apply fits_room; auto].
        -- intros H. destruct min; [|discriminate H].
           exists [], (c :: s). rewrite (app_nil_r txt).
           repeat split; auto. apply fits_zero.
      * intros (run & rest & Hs & Hall & Hmin & Hfit & Hk).
        destruct run as [|x run].
        -- cbn [List.length] in Hmin. destruct min; [|lia].
           cbn [app] in Hs. subst rest.
           cbn [prev_after] in Hk. rewrite (app_nil_r txt) in Hk.
           destruct (repeat_class true cls k _ _ gs (Some c)
                       (txt ++ [c]) s); [reflexivity | exact Hk].
        -- cbn [app] in Hs. injection Hs as <- Hs.
           cbn [forallb] in Hall. apply andb_true_iff in Hall.
           destruct Hall as [_ Hall]. cbn [List.length] in Hmin, Hfit.
           apply fits_room in Hfit. destruct Hfit as [_ Hfit].
           assert (Hrec : is_some (repeat_class true cls k (pred min)
                                     (option_map pred max) gs (Some c)
                                     (txt ++ [c]) s) = true).
           { apply IH. exists run, rest. cbn [prev_after] in Hk.
             rewrite <- app_assoc. repeat split; auto. lia. }
           destruct (repeat_class true cls k _ _ gs (Some c)
                       (txt ++ [c]) s); [reflexivity | discriminate Hrec].
    + apply Hstay. intros x run rest Hs Hall Hfit.
      cbn [app] in Hs. injection Hs as <- _.
      cbn [forallb] in Hall. apply andb_true_iff in Hall.
      destruct Hall as [Hc _]. cbn [List.length] in Hfit.
      apply fits_room in Hfit. destruct Hfit as [Hroom _].
      rewrite Hc, Hroom in E. discriminate E.
Qed.

Lemma matches_plus_some (cls : code_unit -> bool) (r : re) st k :
  is_some (matches false (Seq (plus cls) r) st k) = true <->
  exists run rest,
    input st = run ++ rest /\ forallb cls run = true /\ run <> []
    /\ is_some (matches false r (advance st run rest) k) = true.
Proof.
  unfold plus. cbn [matches]. rewrite repeat_greedy_some.
  split.
  - intros (run & rest & Hs & Hall & Hne & _ & Hk). exists run, rest.
    repeat split; auto. intros ->. cbn [List.length] in Hne. lia.
  - intros (run & rest & Hs & Hall & Hne & Hk). exists run, rest.
    repeat split; auto.
    destruct run; [congruence | cbn [List.length]; lia].
Qed.

Lemma matches_chr_some (p : code_unit) (r : re) st k :
  is_some (matches false (Seq (Chr p) r) st k) = true <->
  exists rest,
    input st = p :: rest
    /\ is_some (matches false r (advance st [p] rest) k) = true.
Proof.
  cbn [matches unit_eqb]. destruct (input st) as [|c s'].
  - split; [discriminate | intros (rest & H & _); discriminate H].
  - destruct (N.eqb_spec p c) as [<- | Hne].
    + split.
      * intros H. exists s'. split; [reflexivity | exact H].
      * intros (rest & H & Hk). injection H as <-. exact Hk.
    + split; [discriminate|]. intros (rest & H & _).
      injection H as H _. congruence.
Qed.

Lemma matches_eol_some st :
  is_some (matches false (Seq Eol Eps) st (fun st' => Some st')) = true <->
  input st = [].
Proof.
  cbn [matches]. destruct (input st); split; try reflexivity; discriminate.
Qed.

Lemma is_some_exec (icase : bool) (r : re) (prev : option code_unit)
    (s : jsstring) :
  is_some (exec icase r prev s) =
  is_some (matches icase r
             {| before := prev; input := s; text := []; groups := [] |}
             (fun st => Some st)).
Proof. unfold exec. destruct (matches _ _ _ _); reflexivity. Qed.

(** A pattern that starts with [^] matches at the start or nowhere. *)
Lemma test_anchored (re : regex) (s : jsstring) :
  (forall c t, re (Some c) t = None) ->
  test re s = is_some (re None s).
Proof.
  intros Hlater.
  assert (H : forall t c, test_from re (Some c) t = false).
  { induction t as [|d t IH]; intros c; cbn [test_from]; rewrite Hlater;
      [reflexivity | apply IH]. }
  unfold test. destruct s as [|c s]; cbn [test_from];
    destruct (re None _); cbn [is_some]; try reflexivity.
  apply H.
Qed.

(** *** The pattern of an e-mail address *)

Lemma test_emailRegex (s : jsstring) :
  test (exec false emailRegex) s = true <->
  exists name host tld,
    s = name ++ cu "@" :: host ++ cu "." :: tld
    /\ name <> [] /\ host <> [] /\ tld <> []
    /\ forallb is_email_char name = true
    /\ forallb is_email_char host = true
    /\ forallb is_email_char tld = true.
Proof.
  rewrite test_anchored by reflexivity. rewrite is_some_exec.
  change emailRegex with
    (Seq Bol
       (Seq (plus is_email_char)
          (Seq (Chr (cu "@"))
             (Seq (plus is_email_char)
                (Seq (Chr (cu "."))
                   (Seq (plus is_email_char) (Seq Eol Eps))))))).
  rewrite matches_seq, matches_bol. cbn [before].
  split.
  - intros H.
    apply matches_plus_some in H.
    destruct H as (name & r1 & Hs & Hname & Hn & H). cbn [input] in Hs.
    apply matches_chr_some in H. destruct H as (r2 & Hr1 & H).
    apply matches_plus_some in H.
    destruct H as (host & r3 & Hr2 & Hhost & Hh & H).
    apply matches_chr_some in H. destruct H as (r4 & Hr3 & H).
    apply matches_plus_some in H.
    destruct H as (tld & r5 & Hr4 & Htld & Ht & H).
    apply matches_eol_some in H.
    cbn [advance input] in *. subst.
    exists name, host, tld. rewrite app_nil_r. repeat split; auto.
  - intros (name & host & tld & -> & Hn & Hh & Ht & Hname & Hhost & Htld).
    apply matches_plus_some. exists name, (cu "@" :: host ++ cu "." :: tld).
    repeat split; auto.
    apply matches_chr_some. exists (host ++ cu "." :: tld).
    split; [reflexivity|].
    apply matches_plus_some. exists host, (cu "." :: tld).
    repeat split; auto.
    apply matches_chr_some. exists tld. split; [reflexivity|].
    apply matches_plus_some. exists tld, []. rewrite app_nil_r.
    repeat split; auto; apply matches_eol_some; reflexivity.
Qed.

(** *** The pattern of a user name *)

Lemma test_userNameRegex (s : jsstring) :
  test (exec false userNameRegex) s = true <->
  s <> [] /\ forallb is_alnum s = true.
Proof.
  rewrite test_anchored by reflexivity. rewrite is_some_exec.
  change userNameRegex with (Seq Bol (Seq (plus is_alnum) (Seq Eol Eps))).
  rewrite matches_seq, matches_bol. cbn [before].
  rewrite matches_plus_some. split.
  - intros (run & rest & Hs & Hall & Hne & H).
    apply matches_eol_some in H. cbn [advance input] in *. subst.
    rewrite app_nil_r. auto.
  - intros [Hne Hall]. exists s, []. cbn [input]. rewrite app_nil_r.
    repeat split; auto; apply matches_eol_some; reflexivity.
Qed.

End GreedyRuns.

(** ** validateEmail *)

Section EmailShape.

Lemma email_char_count (part : jsstring) :
  forallb is_email_char part = true ->
  count_occ N.eq_dec part (cu "@") = 0
  /\ forallb (fun c => negb (is_space c)) part = true.
Proof.
  induction part as [|c part IH]; cbn [forallb count_occ]; [auto|].
  rewrite andb_true_iff. intros [Hc Hpart].
  destruct (IH Hpart) as [Hcount Hspace]. rewrite Hspace, andb_true_r.
  unfold is_email_char in Hc. apply negb_true_iff in Hc.
  apply orb_false_iff in Hc. destruct Hc as [Hs Hat].
  rewrite Hs. split; [|reflexivity].
  destruct (N.eq_dec c (cu "@")) as [-> | _]; [discriminate Hat | exact Hcount].
Qed.

End EmailShape.

(** X16.  An address passes exactly when its length is within the two
    bounds and it reads name, [@], host, [.], rest, where the three parts
    are non-empty and hold neither white space nor [@]. *)
Theorem validateEmail_accepts_iff (email : jsstring) (minLen maxLen : Z) :
  outcome (validateEmail email minLen maxLen) = Return tt <->
  (minLen <= Z.of_nat (List.length email) <= maxLen)%Z
  /\ exists name host tld,
       email = name ++ cu "@" :: host ++ cu "." :: tld
       /\ name <> [] /\ host <> [] /\ tld <> []
       /\ forallb is_email_char name = true
       /\ forallb is_email_char host = true
       /\ forallb is_email_char tld = true.
Proof.
  unfold validateEmail. cbn [outcome]. rewrite Z.gtb_ltb.
  rewrite <- test_emailRegex.
  destruct (Z.ltb_spec (Z.of_nat (List.length email)) minLen);
    [split; [discriminate | lia]|].
  destruct (Z.ltb_spec maxLen (Z.of_nat (List.length email)));
    [split; [discriminate | lia]|].
  destruct (test (exec false emailRegex) email); cbn [negb].
  - split; [intros _; split; [lia | reflexivity] | reflexivity].
  - split; [discriminate | intros [_ Hshape]; discriminate Hshape].
Qed.

(** An instance: the address of the test suite. *)
Lemma validateEmail_accepts_iff_witness :
  outcome (validateEmail (lit "test@example.com") 5 64) = Return tt.
Proof.
  apply (proj2 (validateEmail_accepts_iff (lit "test@example.com") 5 64)).
  split; [simpl; lia|].
  exists (lit "test"), (lit "example"), (lit "com").
  repeat split; try reflexivity; discriminate.
Defined.

(** X17.  An address that passes holds exactly one [@] and no white space
    and has five code units or more: a minimum below five is of no
    effect. *)
Theorem validateEmail_accepted_shape (email : jsstring) (minLen maxLen : Z) :
  outcome (validateEmail email minLen maxLen) = Return tt ->
  count_occ N.eq_dec email (cu "@") = 1
  /\ forallb (fun c => negb (is_space c)) email = true
  /\ 5 <= List.length email.
Proof.
  unfold validateEmail. cbn [outcome].
  destruct (_ <? _)%Z; [discriminate|].
  destruct (_ >? _)%Z; [discriminate|].
  destruct (test (exec false emailRegex) email) eqn:E; [|discriminate].
  intros _. apply test_emailRegex in E.
  destruct E as (name & host & tld & -> & Hn & Hh & Ht & Hname & Hhost & Htld).
  destruct (email_char_count name Hname) as [Cn Sn].
  destruct (email_char_count host Hhost) as [Ch Sh].
  destruct (email_char_count tld Htld) as [Ct St].
  repeat split.
  - rewrite count_occ_app. cbn [count_occ].
    destruct (N.eq_dec (cu "@") (cu "@")) as [_ | Hne]; [|congruence].
    rewrite count_occ_app. cbn [count_occ].
    destruct (N.eq_dec (cu ".") (cu "@")) as [Heq | _]; [discriminate Heq|].
    unfold code_unit. rewrite Cn, Ch, Ct. reflexivity.
  - rewrite forallb_app. cbn [forallb]. rewrite forallb_app. cbn [forallb].
    rewrite Sn, Sh, St. reflexivity.
  - rewrite length_app. cbn [List.length]. rewrite length_app.
    cbn [List.length].
    destruct name; [congruence|]. destruct host; [congruence|].
    destruct tld; [congruence|]. cbn [List.length]. lia.
Qed.

(** An instance: the address of the test suite. *)
Lemma validateEmail_accepted_shape_witness :
  count_occ N.eq_dec (lit "test@example.com") (cu "@") = 1
  /\ forallb (fun c => negb (is_space c)) (lit "test@example.com") = true
  /\ 5 <= List.length (lit "test@example.com").
Proof.
  apply (validateEmail_accepted_shape (lit "test@example.com") 5 64).
  reflexivity.
Defined.

(** ** validateUserName *)

(** X18.  A user name passes exactly when it is non-empty, made of letters
    and digits only, and within the two bounds.  The characters are looked
    at first: the empty name and a name with any other character raise the
    failure for the characters, whatever its length and the bounds are. *)
Theorem validateUserName_accepts_iff (userName : jsstring)
    (minLen maxLen : Z) :
  (validateUserName userName minLen maxLen = Return tt <->
   userName <> [] /\ forallb is_alnum userName = true
   /\ (minLen <= Z.of_nat (List.length userName) <= maxLen)%Z)
  /\ (userName = [] \/ forallb is_alnum userName = false ->
      validateUserName userName minLen maxLen = Throw invalid_username).
Proof.
  unfold validateUserName. rewrite Z.gtb_ltb.
  pose proof (test_userNameRegex userName) as Htest.
  destruct (test (exec false userNameRegex) userName); cbn [negb].
  - destruct (proj1 Htest eq_refl) as [Hne Hall]. split.
    + destruct (Z.ltb_spec (Z.of_nat (List.length userName)) minLen);
        [split; [discriminate | lia]|].
      destruct (Z.ltb_spec maxLen (Z.of_nat (List.length userName)));
        [split; [discriminate | lia]|].
      split; [intros _; repeat split; auto; lia | reflexivity].
    + intros [H | H]; congruence.
  - split; [|reflexivity].
    split; [discriminate|]. intros (Hne & Hall & _).
    assert (H : false = true) by (apply Htest; auto). discriminate H.
Qed.

(** An instance: the name of the test suite. *)
Lemma validateUserName_accepts_iff_witness :
  validateUserName (lit "user123") 5 32 = Return tt.
Proof.
  apply (proj2 (proj1 (validateUserName_accepts_iff (lit "user123") 5 32))).
  repeat split; try reflexivity; try discriminate; simpl; lia.
Defined.

(** ** Patterns with quantified groups *)

Section GroupedPatterns.

Implicit Types (st : mstate) (k : mstate -> option mstate) (m : matcher).

Lemma advance_advance st (x y r1 r2 : jsstring) :
  advance (advance st x r1) y r2 = advance st (x ++ y) r2.
Proof.
  unfold advance. cbn [before text groups].
  rewrite prev_after_app, <- app_assoc. reflexivity.
Qed.

Lemma accepts_ext m (L L' : jsstring -> Prop) :
  (forall x, L x <-> L' x) -> accepts m L -> accepts m L'.
Proof.
  intros HL Hm st k. rewrite (Hm st k).
  split; intros (x & rest & Hs & Hx & Hk); exists x, rest;
    repeat split; auto; apply HL; exact Hx.
Qed.

Lemma accepts_eps : accepts (matches false Eps) (fun x => x = []).
Proof.
  intros st k. cbn [matches]. split.
  - intros H. exists [], (input st). rewrite advance_nil. auto.
  - intros (x & rest & Hs & -> & Hk). cbn [app] in Hs.
    rewrite <- Hs, advance_nil in Hk. exact Hk.
Qed.

Lemma accepts_chr (p : code_unit) :
  accepts (matches false (Chr p)) (fun x => x = [p]).
Proof.
  intros st k. cbn [matches unit_eqb]. destruct (input st) as [|c s'].
  - split; [discriminate | intros (x & rest & Hs & -> & _); discriminate Hs].
  - destruct (N.eqb_spec p c) as [<- | Hne].
    + split.
      * intros H. exists [p], s'. repeat split. exact H.
      * intros (x & rest & Hs & -> & Hk). injection Hs as <-. exact Hk.
    + split; [discriminate|]. intros (x & rest & Hs & -> & _).
      injection Hs as Hs _. congruence.
Qed.

Lemma accepts_rep (cls : code_unit -> bool) (min : nat) (max : option nat) :
  accepts (matches false (Rep true min max cls))
    (fun x => forallb cls x = true /\ min <= List.length x
              /\ fits max (List.length x)).
Proof.
  intros st k. cbn [matches]. rewrite repeat_greedy_some.
  split.
  - intros (run & rest & Hs & Hall & Hmin & Hfit & Hk).
    exists run, rest. repeat split; auto.
  - intros (run & rest & Hs & (Hall & Hmin & Hfit) & Hk).
    exists run, rest. repeat split; auto.
Qed.

Lemma accepts_then m1 m2 (L1 L2 : jsstring -> Prop) :
  accepts m1 L1 -> accepts m2 L2 ->
  accepts (fun st k => m1 st (fun st' => m2 st' k))
    (fun x => exists u v, x = u ++ v /\ L1 u /\ L2 v).
Proof.
  intros H1 H2 st k. rewrite (H1 st _). split.
  - intros (u & r1 & Hs & Hu & H). apply H2 in H.
    destruct H as (v & r2 & Hr & Hv & Hk). cbn [advance input] in Hr.
    subst r1. rewrite advance_advance in Hk.
    exists (u ++ v), r2. rewrite <- app_assoc.
    repeat split; auto. exists u, v. auto.
  - intros (x & r2 & Hs & (u & v & -> & Hu & Hv) & Hk).
    rewrite <- app_assoc in Hs. exists u, (v ++ r2).
    repeat split; auto. apply H2. exists v, r2.
    cbn [advance input]. rewrite advance_advance. auto.
Qed.

Lemma accepts_seq (a b : re) (La Lb : jsstring -> Prop) :
  accepts (matches false a) La -> accepts (matches false b) Lb ->
  accepts (matches false (Seq a b))
    (fun x => exists u v, x = u ++ v /\ La u /\ Lb v).
Proof. intros Ha Hb. exact (accepts_then _ _ _ _ Ha Hb). Qed.

Lemma accepts_optional m (L : jsstring -> Prop) :
  accepts m L -> accepts (optional m) (fun x => x = [] \/ L x).
Proof.
  intros Hm st k. unfold optional. split.
  - destruct (m st _) as [r|] eqn:E.
    + intros _.
      match type of E with m st ?d = _ =>
        destruct (proj1 (Hm st d)) as (x & rest & Hs & Hx & Hk);
          [rewrite E; reflexivity|]
      end.
      cbn beta in Hk.
      destruct (Nat.eqb _ _); [discriminate Hk|].
      exists x, rest. auto.
    + intros H. exists [], (input st). rewrite advance_nil. auto.
  - intros (x & rest & Hs & Hx & Hk).
    assert (Hskip : x = [] ->
              is_some (match m st (fun st' =>
                         if Nat.eqb (List.length (input st'))
                              (List.length (input st))
                         then None else k st') with
                       | Some r => Some r
                       | None => k st
                       end) = true).
    { intros ->. cbn [app] in Hs. rewrite <- Hs, advance_nil in Hk.
      destruct (m st _); [reflexivity | exact Hk]. }
    destruct x as [|c x]; [apply Hskip; reflexivity|].
    destruct Hx as [Hx | Hx]; [discriminate Hx|].
    match goal with |- context [m st ?d] =>
      assert (H : is_some (m st d) = true)
    end.
    { apply Hm. exists (c :: x), rest. repeat split; auto.
      cbn beta. cbn [advance input].
      replace (Nat.eqb (List.length rest) (List.length (input st)))
        with false; [exact Hk|].
      symmetry. apply Nat.eqb_neq. rewrite Hs, length_app.
      cbn [List.length]. lia. }
    destruct (m st _); [reflexivity | discriminate H].
Qed.

(** With fuel for the iterations that are due and one for each code unit,
    a quantified group succeeds exactly when the input starts with enough
    texts of the group behind which the continuation succeeds. *)
Lemma accepts_repeat_group m (L : jsstring -> Prop) :
  accepts m L -> (forall x, L x -> x <> []) ->
  forall fuel min st k,
    min + List.length (input st) <= fuel ->
    (is_some (repeat_group fuel m min st k) = true <->
     exists xs rest,
       input st = List.concat xs ++ rest /\ Forall L xs
       /\ min <= List.length xs
       /\ is_some (k (advance st (List.concat xs) rest)) = true).
Proof.
  intros Hm Hne.
  assert (Hstay : forall min st k,
            is_some (match min with O => k st | S _ => None end) = true ->
            exists xs rest,
              input st = List.concat xs ++ rest /\ Forall L xs
              /\ min <= List.length xs
              /\ is_some (k (advance st (List.concat xs) rest)) = true).
  { intros min st k H. destruct min; [|discriminate H].
    exists [], (input st). cbn [List.concat app List.length].
    rewrite advance_nil. repeat split; auto. }
  induction fuel as [|fuel IH]; intros min st k Hfuel.
  - cbn [repeat_group]. split; [apply Hstay|].
    intros (xs & rest & Hs & Hall & Hmin & Hk).
    assert (Hin : input st = []) by (destruct (input st); [reflexivity | simpl in Hfuel; lia]).
    destruct xs as [|x xs].
    + cbn [List.length] in Hmin. destruct min; [|lia].
      cbn [List.concat app] in Hs, Hk. rewrite <- Hs, advance_nil in Hk.
      exact Hk.
    + exfalso. inversion Hall as [|? ? Hx _]; subst.
      apply (Hne x Hx). rewrite Hin in Hs. cbn [List.concat] in Hs.
      destruct x; [reflexivity | discriminate Hs].
  - cbn [repeat_group]. split.
    + destruct (m st _) as [r|] eqn:E; [|apply Hstay].
      intros _.
      match type of E with m st ?d = _ =>
        destruct (proj1 (Hm st d)) as (x & r1 & Hs & Hx & Hd);
          [rewrite E; reflexivity|]
      end.
      cbn beta in Hd. cbn [advance input] in Hd.
      destruct (Nat.eqb min 0 && Nat.eqb (List.length r1)
                                   (List.length (input st)));
        [discriminate Hd|].
      assert (Hx' : x <> []) by (apply Hne; exact Hx).
      apply IH in Hd.
      * destruct Hd as (xs & rest & Hr & Hall & Hmin & Hk).
        cbn [advance input] in Hr. rewrite advance_advance in Hk.
        exists (x :: xs), rest.
        cbn [List.concat List.length]. rewrite <- app_assoc, <- Hr.
        repeat split; auto. lia.
      * cbn [advance input]. rewrite Hs, length_app in Hfuel.
        destruct x; [congruence|]. cbn [List.length] in Hfuel. lia.
    + intros (xs & rest & Hs & Hall & Hmin & Hk).
      destruct xs as [|x xs].
      * cbn [List.length] in Hmin. destruct min; [|lia].
        cbn [List.concat app] in Hs, Hk. rewrite <- Hs, advance_nil in Hk.
        destruct (m st _); [reflexivity | exact Hk].
      * inversion Hall as [|? ? Hx Hxs]; subst.
        assert (Hx' : x <> []) by (apply Hne; exact Hx).
        cbn [List.concat] in Hs, Hk. rewrite <- app_assoc in Hs.
        match goal with |- context [m st ?d] =>
          assert (Hd : is_some (m st d) = true)
        end.
        { apply Hm. exists x, (List.concat xs ++ rest).
          repeat split; auto. cbn beta. cbn [advance input].
          replace (Nat.eqb (List.length (List.concat xs ++ rest))
                     (List.length (input st))) with false.
          - rewrite andb_false_r. apply IH.
            + cbn [advance input]. rewrite Hs, length_app in Hfuel.
              destruct x; [congruence|]. cbn [List.length] in Hfuel. lia.
            + exists xs, rest. cbn [advance input].
              rewrite advance_advance. cbn [List.length] in Hmin.
              repeat split; auto. lia.
          - symmetry. apply Nat.eqb_neq. rewrite Hs, !length_app.
            destruct x; [congruence|]. cbn [List.length]. lia. }
        destruct (m st _); [reflexivity | discriminate Hd].
Qed.

Lemma accepts_group_repeat m (L : jsstring -> Prop) (min : nat) :
  accepts m L -> (forall x, L x -> x <> []) ->
  accepts (group_repeat m min)
    (fun x => exists xs, x = List.concat xs /\ Forall L xs
                         /\ min <= List.length xs).
Proof.
  intros Hm Hne st k. unfold group_repeat.
  rewrite (accepts_repeat_group m L Hm Hne) by lia. split.
  - intros (xs & rest & Hs & Hall & Hmin & Hk).
    exists (List.concat xs), rest. repeat split; auto. exists xs. auto.
  - intros (x & rest & Hs & (xs & -> & Hall & Hmin) & Hk).
    exists xs, rest. auto.
Qed.

Lemma accepts_literal (w : jsstring) :
  accepts (matches false (literal w)) (fun x => x = w).
Proof.
  induction w as [|c w IH].
  - exact accepts_eps.
  - change (literal (c :: w)) with (Seq (Chr c) (literal w)).
    apply (fun HL => accepts_ext _ _ _ HL
             (accepts_seq _ _ _ _ (accepts_chr c) IH)).
    intros x. split.
    + intros (u & v & -> & -> & ->). reflexivity.
    + intros ->. exists [c], w. auto.
Qed.

(** A character and a run of a class behind it. *)
Lemma accepts_tagged (c : code_unit) (cls : code_unit -> bool) :
  accepts (matches false (sequence [Chr c; star cls]))
    (fun x => exists name, x = c :: name /\ forallb cls name = true).
Proof.
  change (sequence [Chr c; star cls])
    with (Seq (Chr c) (Seq (Rep true 0 None cls) Eps)).
  apply (fun HL => accepts_ext _ _ _ HL
           (accepts_seq _ _ _ _ (accepts_chr c)
              (accepts_seq _ _ _ _ (accepts_rep cls 0 None) accepts_eps))).
  intros x. split.
  - intros (u & v & -> & -> & name & e & -> & (Hall & _) & ->).
    exists name. rewrite app_nil_r. auto.
  - intros (name & -> & Hall). exists [c], name. repeat split.
    exists name, []. rewrite app_nil_r. cbn [fits]. repeat split; auto. lia.
Qed.

(** *** The parts of the URL pattern *)

Lemma accepts_scheme : accepts (matches false scheme) is_scheme.
Proof.
  change scheme with
    (Seq (literal (lit "http"))
       (Seq (Rep true 0 (Some 1) (is_char "s"))
          (Seq (literal (lit "://")) Eps))).
  apply (fun HL => accepts_ext _ _ _ HL
           (accepts_seq _ _ _ _ (accepts_literal (lit "http"))
              (accepts_seq _ _ _ _ (accepts_rep (is_char "s") 0 (Some 1))
                 (accepts_seq _ _ _ _ (accepts_literal (lit "://"))
                    accepts_eps)))).
  intros x. unfold is_scheme. split.
  - intros (u & v & -> & -> & s & v1 & -> & (Hs & _ & Hfit)
            & u2 & e & -> & -> & ->).
    cbn [fits] in Hfit. destruct s as [|c [|d s]].
    + left. reflexivity.
    + right. cbn [forallb] in Hs. rewrite andb_true_r in Hs.
      apply N.eqb_eq in Hs. subst c. reflexivity.
    + cbn [List.length] in Hfit. lia.
  - intros [-> | ->].
    + exists (lit "http"), (lit "://"). repeat split.
      exists [], (lit "://"). cbn [fits List.length]. repeat split; auto.
      exists (lit "://"), []. auto.
    + exists (lit "http"), (lit "s://"). repeat split.
      exists [cu "s"], (lit "://"). cbn [fits List.length].
      repeat split; auto.
      exists (lit "://"), []. auto.
Qed.

Lemma accepts_label : accepts (matches false label) is_label.
Proof.
  change label with (Seq (Rep true 1 None is_host_char)
                       (Seq (Chr (cu ".")) Eps)).
  apply (fun HL => accepts_ext _ _ _ HL
           (accepts_seq _ _ _ _ (accepts_rep is_host_char 1 None)
              (accepts_seq _ _ _ _ (accepts_chr (cu ".")) accepts_eps))).
  intros x. unfold is_label. split.
  - intros (name & v & -> & (Hall & Hmin & _) & u & e & -> & -> & ->).
    exists name. repeat split; auto.
    intros ->. cbn [List.length] in Hmin. lia.
  - intros (name & -> & Hne & Hall). exists name, [cu "."].
    cbn [fits]. repeat split; auto.
    + destruct name; [congruence | cbn [List.length]; lia].
    + exists [cu "."], []. auto.
Qed.

Lemma label_not_empty (x : jsstring) : is_label x -> x <> [].
Proof. intros (name & -> & _). destruct name; discriminate. Qed.

Lemma segment_not_empty (x : jsstring) : is_segment x -> x <> [].
Proof. intros (name & -> & _). discriminate. Qed.

Lemma accepts_tld :
  accepts (matches false (Rep true 2 (Some 6) is_alpha)) is_tld.
Proof.
  apply (fun HL => accepts_ext _ _ _ HL (accepts_rep is_alpha 2 (Some 6))).
  intros x. unfold is_tld. cbn [fits]. tauto.
Qed.

(** The URL pattern from behind the anchor [^] on, in front of the anchor
    [$]. *)
Lemma test_urlRegex (s : jsstring) :
  test (exec_pattern false urlRegex) s = true <-> url_shape s.
Proof.
  rewrite test_anchored by reflexivity.
  pose proof (accepts_optional _ _ accepts_scheme) as Hscheme.
  pose proof (accepts_group_repeat _ _ 1 accepts_label label_not_empty)
    as Hlabels.
  pose proof accepts_tld as Htld.
  pose proof (accepts_group_repeat _ _ 0
                (accepts_tagged (cu "/") is_host_char) segment_not_empty)
    as Hsegments.
  pose proof (accepts_optional _ _ (accepts_tagged (cu "?") is_query_char))
    as Hquery.
  pose proof (accepts_optional _ _ (accepts_tagged (cu "#") is_fragment_char))
    as Hfragment.
  unfold exec_pattern.
  match goal with |- is_some (match ?m with _ => _ end) = true <-> _ =>
    assert (Hexec : is_some (match m with
                             | Some st => Some {| matched := text st;
                                                  group1 := group 1 (groups st) |}
                             | None => None
                             end) = is_some m)
      by (destruct m; reflexivity)
  end.
  rewrite Hexec. clear Hexec.
  cbn [urlRegex matcher_of]. rewrite matches_bol. cbn [before].
  unfold url_shape. split.
  - intros H.
    apply Hscheme in H. destruct H as (x1 & r1 & Hs1 & Hx1 & H).
    apply Hlabels in H.
    destruct H as (x2 & r2 & Hs2 & (labels & -> & Hl & Hn) & H).
    apply Htld in H. destruct H as (x3 & r3 & Hs3 & Hx3 & H).
    apply Hsegments in H.
    destruct H as (x4 & r4 & Hs4 & (segments & -> & Hg & _) & H).
    apply Hquery in H. destruct H as (x5 & r5 & Hs5 & Hx5 & H).
    apply Hfragment in H. destruct H as (x6 & r6 & Hs6 & Hx6 & H).
    cbn [matches] in H. cbn [advance input] in *.
    destruct r6; [|discriminate H]. subst.
    exists x1, labels, x3, segments, x5, x6.
    rewrite app_nil_r. repeat split; auto; try apply Hx3.
    intros ->. cbn [List.length] in Hn. lia.
  - intros (x1 & labels & x3 & segments & x5 & x6 & -> & Hx1 & Hn & Hl
            & Hx3 & Hg & Hx5 & Hx6).
    apply Hscheme. eexists x1, _.
    split; [reflexivity|]. split; [exact Hx1|].
    apply Hlabels. eexists (List.concat labels), _. cbn [advance input].
    split; [reflexivity|]. split.
    { exists labels. repeat split; auto.
      destruct labels; [congruence | cbn [List.length]; lia]. }
    apply Htld. eexists x3, _. cbn [advance input].
    split; [reflexivity|]. split; [exact Hx3|].
    apply Hsegments. eexists (List.concat segments), _. cbn [advance input].
    split; [reflexivity|]. split.
    { exists segments. repeat split; auto. lia. }
    apply Hquery. eexists x5, _. cbn [advance input].
    split; [reflexivity|]. split; [exact Hx5|].
    apply Hfragment. exists x6, []. cbn [advance input].
    rewrite app_nil_r. split; [reflexivity|]. split; [exact Hx6|].
    reflexivity.
Qed.

End GroupedPatterns.

(** ** validateURL *)

Section UrlParts.

Lemma strip_prefix_iff (p s : jsstring) :
  is_some (strip_prefix p s) = true <-> exists rest, s = p ++ rest.
Proof.
  revert s. induction p as [|x p IH]; intros s; cbn [strip_prefix app].
  - split; [intros _; exists s; reflexivity | reflexivity].
  - destruct s as [|y s].
    + split; [discriminate | intros [rest H]; discriminate H].
    + destruct (N.eqb_spec x y) as [<- | Hne].
      * rewrite IH. split; intros [rest H]; exists rest; congruence.
      * split; [discriminate | intros [rest H]; congruence].
Qed.

(** [endsWith] asks for a suffix, wherever it starts. *)
Lemma ends_with_iff (s t : jsstring) :
  ends_with s t = true <-> exists front, s = front ++ t.
Proof.
  unfold ends_with. rewrite strip_prefix_iff. split.
  - intros [rest H]. exists (rev rest).
    rewrite <- (rev_involutive s), H, rev_app_distr, rev_involutive.
    reflexivity.
  - intros [front ->]. exists (rev front). apply rev_app_distr.
Qed.

Lemma forallb_impl (f g : code_unit -> bool) (l : jsstring) :
  (forall c, f c = true -> g c = true) ->
  forallb f l = true -> forallb g l = true.
Proof.
  intros Hfg. rewrite !forallb_forall. auto.
Qed.

Lemma forallb_concat (g : code_unit -> bool) (xs : list jsstring) :
  Forall (fun x => forallb g x = true) xs ->
  forallb g (List.concat xs) = true.
Proof.
  induction 1 as [|x xs Hx _ IH]; cbn [List.concat forallb];
    [reflexivity|].
  rewrite forallb_app, Hx, IH. reflexivity.
Qed.

Ltac url_char :=
  let c := fresh "c" in
  let H := fresh "H" in
  intros c H;
  unfold is_url_char, is_host_char, is_query_char, is_fragment_char,
    is_alpha, is_alnum in *;
  repeat (apply orb_true_iff in H; destruct H as [H | H]);
  rewrite H, ?orb_true_r; reflexivity.

Lemma host_char_url : forall c, is_host_char c = true -> is_url_char c = true.
Proof. url_char. Qed.

Lemma alpha_url : forall c, is_alpha c = true -> is_url_char c = true.
Proof. url_char. Qed.

Lemma query_char_url :
  forall c, is_query_char c = true -> is_url_char c = true.
Proof. url_char. Qed.

Lemma fragment_char_url :
  forall c, is_fragment_char c = true -> is_url_char c = true.
Proof. url_char. Qed.

Lemma url_shape_chars (url : jsstring) :
  url_shape url -> forallb is_url_char url = true.
Proof.
  intros (x1 & labels & x3 & segments & x5 & x6 & -> & Hx1 & _ & Hl
          & [Hx3 _] & Hg & Hx5 & Hx6).
  rewrite !forallb_app. repeat (apply andb_true_iff; split).
  - destruct Hx1 as [-> | [-> | ->]]; reflexivity.
  - apply forallb_concat. revert Hl. apply Forall_impl.
    intros x (name & -> & _ & Hname). rewrite forallb_app.
    rewrite (forallb_impl _ _ _ host_char_url Hname). reflexivity.
  - apply (forallb_impl _ _ _ alpha_url Hx3).
  - apply forallb_concat. revert Hg. apply Forall_impl.
    intros x (name & -> & Hname). cbn [forallb].
    rewrite (forallb_impl _ _ _ host_char_url Hname). reflexivity.
  - destruct Hx5 as [-> | (q & -> & Hq)]; [reflexivity|]. cbn [forallb].
    rewrite (forallb_impl _ _ _ query_char_url Hq). reflexivity.
  - destruct Hx6 as [-> | (f & -> & Hf)]; [reflexivity|]. cbn [forallb].
    rewrite (forallb_impl _ _ _ fragment_char_url Hf). reflexivity.
Qed.

Lemma validateURL_cases (hostname : jsstring -> completion jsstring)
    (url : jsstring) (maxLength : Z) (allowedDomains : list jsstring) :
  validateURL hostname url maxLength allowedDomains = Return tt ->
  test (exec_pattern false urlRegex) url = true
  /\ (Z.of_nat (List.length url) <= maxLength)%Z.
Proof.
  unfold validateURL. rewrite Z.gtb_ltb.
  destruct (test (exec_pattern false urlRegex) url); [|discriminate].
  destruct (Z.ltb_spec maxLength (Z.of_nat (List.length url)));
    [discriminate|].
  intros _. split; [reflexivity | lia].
Qed.

End UrlParts.

(** X19.  A URL passes exactly when it has the shape of the pattern, an
    optional [http://] or [https://], one or more labels of letters, digits
    and hyphens that each end in a dot, a last label of two to six letters,
    any number of path segments of letters, digits and hyphens, an optional
    query of letters, digits, [=] and [&] and an optional fragment, when it
    is not longer than the maximum, and when either no domain is asked for
    or the URL parser finds a host name that ends with one of the allowed
    domains, wherever in a label that ending starts. *)
Theorem validateURL_accepts_iff (hostname : jsstring -> completion jsstring)
    (url : jsstring) (maxLength : Z) (allowedDomains : list jsstring) :
  validateURL hostname url maxLength allowedDomains = Return tt <->
  url_shape url
  /\ (Z.of_nat (List.length url) <= maxLength)%Z
  /\ (allowedDomains = []
      \/ exists front allowed,
           hostname url = Return (front ++ allowed)
           /\ In allowed allowedDomains).
Proof.
  rewrite <- test_urlRegex. unfold validateURL. rewrite Z.gtb_ltb.
  destruct (test (exec_pattern false urlRegex) url); cbn [negb];
    [|split; [discriminate | intros [H _]; discriminate H]].
  destruct (Z.ltb_spec maxLength (Z.of_nat (List.length url)));
    [split; [discriminate | lia]|].
  destruct allowedDomains as [|d ds].
  - cbn [List.length Nat.ltb Nat.leb]. tauto.
  - cbn [List.length Nat.ltb Nat.leb].
    destruct (hostname url) as [domain | e | ]; cbn [bind].
    + destruct (existsb (fun allowedDomain => ends_with domain allowedDomain)
                  (d :: ds)) eqn:E; cbn [negb].
      * apply existsb_exists in E. destruct E as (allowed & Hin & Hends).
        apply ends_with_iff in Hends. destruct Hends as [front ->].
        split; [|reflexivity]. intros _.
        repeat split; auto. right. exists front, allowed. auto.
      * split; [discriminate|].
        intros (_ & _ & [Hnil | (front & allowed & Hhost & Hin)]);
          [discriminate Hnil|].
        injection Hhost as ->.
        assert (Hsome : existsb (fun allowedDomain =>
                           ends_with (front ++ allowed) allowedDomain)
                          (d :: ds) = true).
        { apply existsb_exists. exists allowed. split; [exact Hin|].
          apply ends_with_iff. exists front. reflexivity. }
        rewrite Hsome in E. discriminate E.
    + split; [discriminate|].
      intros (_ & _ & [Hnil | (front & allowed & Hhost & _)]);
        [discriminate Hnil | discriminate Hhost].
    + split; [discriminate|].
      intros (_ & _ & [Hnil | (front & allowed & Hhost & _)]);
        [discriminate Hnil | discriminate Hhost].
Qed.

(** An instance: a host that only ends with the allowed domain. *)
Lemma validateURL_accepts_iff_witness :
  validateURL (fun _ => Return (lit "evil-example.com"))
    (lit "https://evil-example.com/login") 2048 [lit "example.com"]
  = Return tt.
Proof.
  apply (proj2 (validateURL_accepts_iff
                  (fun _ => Return (lit "evil-example.com"))
                  (lit "https://evil-example.com/login") 2048
                  [lit "example.com"])).
  split; [apply test_urlRegex; reflexivity|].
  split; [simpl; lia|].
  right. exists (lit "evil-"), (lit "example.com").
  split; [reflexivity | left; reflexivity].
Defined.

(** X20.  A URL that passes is made of letters, digits and the nine
    characters [- . / : ? = & # _] only: a URL with a percent escape, a
    user name before [@], white space or a character outside ASCII is
    rejected, whatever the URL parser makes of it. *)
Theorem validateURL_accepted_chars
    (hostname : jsstring -> completion jsstring)
    (url : jsstring) (maxLength : Z) (allowedDomains : list jsstring) :
  validateURL hostname url maxLength allowedDomains = Return tt ->
  forallb is_url_char url = true.
Proof.
  intros H. apply validateURL_cases in H. destruct H as [H _].
  apply url_shape_chars, test_urlRegex, H.
Qed.

(** An instance: the URL of the test suite. *)
Lemma validateURL_accepted_chars_witness :
  forallb is_url_char (lit "https://example.com") = true.
Proof.
  apply (validateURL_accepted_chars (fun _ => Throw TypeError)
           (lit "https://example.com") 2048 []).
  reflexivity.
Defined.

